(** * syntax-parser: the backtracking parse engine of [src/parser/chain.ts]

    The engine walks a mutable graph of grammar nodes.  Objects of the
    TypeScript program live in a store (a list indexed by object identity);
    the mutually tail-calling functions [visiter], [visiterNextNode] and
    [tryChances] become the control component of a small-step machine. *)

From stdpp Require Import base option list numbers gmap strings.
From Stdlib Require Import ZArith NArith Lia.

Local Open Scope string_scope.
Local Open Scope nat_scope.
Local Open Scope list_scope.

(** ** Tokens ([../lexer/token]) *)

(** Modelled from the spec: the token type of the lexer module, which is not
    part of this file: a textual value and a character span.  The source
    compares tokens by reference; a lexer gives distinct tokens distinct
    spans, so the record itself stands for the reference. *)
Record IToken := mkToken {
  tok_value : string;
  tok_start : nat;
  tok_end : nat
}.

#[global] Instance IToken_eq_dec : EqDecision IToken.
Proof. solve_decision. Defined.

(** ** Scanner ([./scanner]) *)

(** Modelled from the spec: the state of the scanner class, a finite token
    sequence and a cursor into it. *)
Record Scanner := mkScanner {
  tokens : list IToken;
  index : nat
}.

Module Scan.

(** Modelled from the spec: the scanner class, a cursor over a finite token
    sequence ([new Scanner(tokens)] starts at index 0). *)
Definition new (ts : list IToken) : Scanner := mkScanner ts 0.

(** Modelled from the spec: [current_index] of the scanner. *)
Definition getIndex (s : Scanner) : nat := index s.

(** Modelled from the spec: [set_index] of the scanner, the restore half of
    save/restore. *)
Definition setIndex (i : nat) (s : Scanner) : Scanner := mkScanner (tokens s) i.

(** Modelled from the spec: [peek] of the scanner, the token at the cursor. *)
Definition read (s : Scanner) : option IToken := tokens s !! index s.

(** Modelled from the spec: [advance] of the scanner, moving the cursor by
    one token. *)
Definition next (s : Scanner) : Scanner := mkScanner (tokens s) (S (index s)).

(** Modelled from the spec: [is_end] of the scanner, cursor past the last
    token. *)
Definition isEnd (s : Scanner) : bool := length (tokens s) <=? index s.

(** Modelled from the spec: [rest_count] of the scanner, the tokens
    remaining. *)
Definition getRestTokenCount (s : Scanner) : Z :=
  Z.of_nat (length (tokens s)) - Z.of_nat (index s).

Fixpoint findIndex (t : IToken) (ts : list IToken) : option nat :=
  match ts with
  | [] => None
  | t' :: ts' => if decide (t' = t) then Some 0 else S <$> findIndex t ts'
  end.

(** Modelled from the spec: [next_after] of the scanner, the token
    immediately following a given token, absent when out of range. *)
Definition getNextFromToken (t : IToken) (s : Scanner) : option IToken :=
  match findIndex t (tokens s) with
  | Some i => tokens s !! S i
  | None => None
  end.

(** Modelled from the spec: [prev_token_from_char] of the scanner, the last
    token whose span ends at or before the offset. *)
Definition getPrevTokenFromCharacterIndex (offset : nat) (s : Scanner) : option IToken :=
  last (filter (fun t => tok_end t <= offset) (tokens s)).

(** Modelled from the spec: [next_token_from_char] of the scanner, the first
    token whose span starts at or after the offset. *)
Definition getNextTokenFromCharacterIndex (offset : nat) (s : Scanner) : option IToken :=
  head (filter (fun t => offset <= tok_start t) (tokens s)).

End Scan.

(** ** Terminal matchers ([./match]) *)

(** Modelled from the spec: the answer [{ match, token }] of a matcher, from
    the match module. *)
Record IMatch := mkMatch {
  token : option IToken;
  matched : bool   (* the field [match] of the source *)
}.

(** [IMatchFn]: a matcher reads the scanner and may advance it, so it returns
    the scanner it leaves behind. *)
Definition IMatchFn : Type := Scanner -> bool -> IMatch * Scanner.

(** Modelled from the spec: the matcher contract of the match module.  With
    [isCostToken] the scanner advances on success, without it the matcher only
    peeks. *)
Definition matchToken (compare : IToken -> bool) : IMatchFn :=
  fun scanner isCostToken =>
    match Scan.read scanner with
    | None => (mkMatch None false, scanner)
    | Some t =>
        if compare t
        then (mkMatch (Some t) true, if isCostToken then Scan.next scanner else scanner)
        else (mkMatch (Some t) false, scanner)
    end.

(** Modelled from the spec: [match(element)()] for a literal string, which
    matches when the next token's text equals that string. *)
Definition match_ (element : string) : IMatchFn :=
  matchToken (fun t => bool_decide (tok_value t = element)).

(** Modelled from the spec: the loose always-true sentinel; it consumes no
    token and carries none. *)
Definition matchTrue : IMatchFn := fun scanner _ => (mkMatch None true, scanner).

(** Modelled from the spec: the loose always-false sentinel. *)
Definition matchFalse : IMatchFn := fun scanner _ => (mkMatch None false, scanner).

(** ** AST values *)

(** [IAst = IToken | any]: what reducers see and return. *)
#[local] Unset Elimination Schemes.
Inductive IAst :=
| AstUndefined
| AstNull
| AstToken (t : IToken)
| AstArray (items : list IAst).
#[local] Set Elimination Schemes.

Definition ISolveAst : Type := list IAst -> IAst.

(** ** Grammar nodes *)

Definition NodeRef := nat.

Inductive MatchingType := TString | TLoose | TSpecial.

Inductive MatchingValue := VString (s : string) | VBool (b : bool).

Record IMatching := mkMatching {
  m_type : MatchingType;
  m_value : MatchingValue
}.

#[global] Instance MatchingType_eq_dec : EqDecision MatchingType.
Proof. solve_decision. Defined.
#[global] Instance MatchingValue_eq_dec : EqDecision MatchingValue.
Proof. solve_decision. Defined.
#[global] Instance IMatching_eq_dec : EqDecision IMatching.
Proof. solve_decision. Defined.

Record MatchNode := mkMatchNode {
  mn_parentNode : option NodeRef;
  mn_matchFunction : IMatchFn;
  mn_matching : IMatching;
  mn_parentIndex : nat
}.

(** [chainFunction] is a JavaScript function value; it is represented by its
    [name], under which the grammar holds its body. *)
Record FunctionNode := mkFunctionNode {
  fn_parentNode : option NodeRef;
  fn_chainFunction : string;
  fn_parentIndex : nat
}.

(** [childs : Node[]].  A JavaScript array grows when written past its end and
    leaves empty slots behind; [None] is such a slot. *)
Record TreeNode := mkTreeNode {
  tn_parentNode : option NodeRef;
  tn_childs : list (option NodeRef);
  tn_headIndex : nat;
  tn_version : option N;
  tn_parentIndex : nat
}.

(** [solveAst] is never null on a node made by [chain]: the factory always
    stores the reducer, the identity by default. *)
Record ChainNode := mkChainNode {
  cn_parentNode : option NodeRef;
  cn_childs : list (option NodeRef);
  cn_astResults : list IAst;
  cn_headIndex : nat;
  cn_functionName : option string;
  cn_solveAst : ISolveAst;
  cn_version : option N;
  cn_isPlus : bool;
  cn_plusHeadIndex : nat;
  cn_parentIndex : nat
}.

Inductive Node :=
| NMatch (m : MatchNode)
| NFunction (f : FunctionNode)
| NTree (t : TreeNode)
| NChain (c : ChainNode).

Definition parentNode (n : Node) : option NodeRef :=
  match n with
  | NMatch m => mn_parentNode m
  | NFunction f => fn_parentNode f
  | NTree t => tn_parentNode t
  | NChain c => cn_parentNode c
  end.

Definition parentIndex (n : Node) : nat :=
  match n with
  | NMatch m => mn_parentIndex m
  | NFunction f => fn_parentIndex f
  | NTree t => tn_parentIndex t
  | NChain c => cn_parentIndex c
  end.

(** [headIndex], [version], [childs] and [astResults] of a [ParentNode]. *)
Definition headIndex (n : Node) : option nat :=
  match n with
  | NTree t => Some (tn_headIndex t)
  | NChain c => Some (cn_headIndex c)
  | _ => None
  end.

Definition version (n : Node) : option N :=
  match n with
  | NTree t => tn_version t
  | NChain c => cn_version c
  | _ => None
  end.

Definition childs (n : Node) : list (option NodeRef) :=
  match n with
  | NTree t => tn_childs t
  | NChain c => cn_childs c
  | _ => []
  end.

Definition astResults (n : Node) : list IAst :=
  match n with
  | NChain c => cn_astResults c
  | _ => []
  end.

(** ** The parser object *)

Inductive FirstOrFunctionSet :=
| FMatch (node : NodeRef)
| FName (name : string)
| FUndefined.

(** [nodes] is the object store of the grammar graph owned by this parser; a
    [NodeRef] is a position in it.  The JavaScript [Set] of related names keeps
    insertion order, hence a duplicate-free list. *)
Record Parser := mkParser {
  p_version : N;
  rootChainNode : option NodeRef;
  firstSet : gmap string (list NodeRef);
  firstOrFunctionSet : gmap string (option (list FirstOrFunctionSet));
  relatedSet : gmap string (list string);
  nodes : list Node
}.

Definition setNodes (ns : list Node) (p : Parser) : Parser :=
  mkParser (p_version p) (rootChainNode p) (firstSet p) (firstOrFunctionSet p)
    (relatedSet p) ns.

Definition setFirstSet (fs : gmap string (list NodeRef)) (p : Parser) : Parser :=
  mkParser (p_version p) (rootChainNode p) fs (firstOrFunctionSet p) (relatedSet p)
    (nodes p).

Definition setFirstOrFunctionSet (fs : gmap string (option (list FirstOrFunctionSet)))
    (p : Parser) : Parser :=
  mkParser (p_version p) (rootChainNode p) (firstSet p) fs (relatedSet p) (nodes p).

Definition setRelatedSet (rs : gmap string (list string)) (p : Parser) : Parser :=
  mkParser (p_version p) (rootChainNode p) (firstSet p) (firstOrFunctionSet p) rs
    (nodes p).

Definition setRootChainNode (r : option NodeRef) (p : Parser) : Parser :=
  mkParser (p_version p) r (firstSet p) (firstOrFunctionSet p) (relatedSet p) (nodes p).

(** [new Parser()] *)
Definition newParser : Parser := mkParser 0 None ∅ ∅ ∅ [].

(** [getNewVersion = () => ++this.version] *)
Definition getNewVersion (p : Parser) : N * Parser :=
  let v := (p_version p + 1)%N in
  (v, mkParser v (rootChainNode p) (firstSet p) (firstOrFunctionSet p) (relatedSet p)
        (nodes p)).

(** ** Building the graph: a state and exception monad over the parser *)

Inductive Res (A : Type) :=
| Ok (a : A)
| Throw (msg : string).
Arguments Ok {A} a.
Arguments Throw {A} msg.

Definition Build (A : Type) : Type := Parser -> Res (A * Parser).

Definition ret {A} (a : A) : Build A := fun p => Ok (a, p).

Definition bind {A B} (m : Build A) (k : A -> Build B) : Build B :=
  fun p => match m p with
           | Ok (a, p') => k a p'
           | Throw msg => Throw msg
           end.

Definition throw {A} (msg : string) : Build A := fun _ => Throw msg.

Notation "x <- m ;; k" := (bind m (fun x => k))
  (at level 90, m at level 89, right associativity).
Notation "m ;;; k" := (bind m (fun _ => k))
  (at level 90, right associativity).

(** [new TreeNode(..)], [new ChainNode(..)], [new MatchNode(..)]: a fresh
    object gets the next free position of the store. *)
Definition alloc (n : Node) : Build NodeRef :=
  fun p => Ok (length (nodes p), setNodes (nodes p ++ [n]) p).

Definition getNode (r : NodeRef) (p : Parser) : option Node := nodes p !! r.

Definition putNode (r : NodeRef) (n : Node) (p : Parser) : Parser :=
  setNodes (<[r := n]> (nodes p)) p.

(** ** Grammar elements *)

(** What a rule body may contain, by the [typeof]/[instanceof] cases of
    [createNodeByElement]: a string, a boolean, a function of the match module
    ([prototype.name === 'match'], with its own [name] and its
    [prototype.displayName]), a value made by [chain] ([prototype.name ===
    'chainNodeFactory'], with [prototype.isPlus]), any other function (a
    [ChainFunction], held by name), an array, or something else. *)
#[local] Unset Elimination Schemes.
Inductive Element :=
| EString (s : string)
| EBoolean (b : bool)
| EMatch (name displayName : string) (fn : IMatchFn)
| EChainNodeFactory (elements : list Element) (solveAst : ISolveAst) (isPlus : bool)
| EChainFunction (name : string)
| EArray (elements : list Element)
| EOther.
#[local] Set Elimination Schemes.

(** A [ChainFunction] returns [chain(...elements)(solveAst)]; the grammar maps
    the function, by name, to these two arguments. *)
Definition Grammar : Type := string -> list Element * ISolveAst.

(** [element.name] *)
Definition elementName (e : Element) : option string :=
  match e with
  | EMatch name _ _ => Some name
  | EChainNodeFactory _ _ _ => Some "chainNodeFactory"
  | EChainFunction name => Some name
  | _ => None
  end.

(** [element.name === parentFunctionName]; [undefined] never equals [null]. *)
Definition nameIs (parentFunctionName : option string) (e : Element) : bool :=
  match elementName e, parentFunctionName with
  | Some a, Some b => bool_decide (a = b)
  | _, _ => false
  end.

Definition solveDirectLeftRecursion (elements : list Element)
    (parentFunctionName : option string) : list Element :=
  let leftRecursionElements := List.filter (nameIs parentFunctionName) elements in
  let normalElements := List.filter (fun e => negb (nameIs parentFunctionName e)) elements in
  elements.

(** A JavaScript string is truthy unless it is empty; [null] is falsy. *)
Definition truthyName (functionName : option string) : bool :=
  match functionName with
  | Some s => negb (bool_decide (s = ""))
  | None => false
  end.

(** Assignments to the fields of a node object.  [headIndex], [version] and
    [childs] exist on tree and chain nodes, the others on chain nodes only;
    on a node without the field the assignment changes nothing the program
    reads. *)
Definition withChilds (cs : list (option NodeRef)) (n : Node) : Node :=
  match n with
  | NTree t => NTree (mkTreeNode (tn_parentNode t) cs (tn_headIndex t) (tn_version t)
                        (tn_parentIndex t))
  | NChain c => NChain (mkChainNode (cn_parentNode c) cs (cn_astResults c) (cn_headIndex c)
                          (cn_functionName c) (cn_solveAst c) (cn_version c) (cn_isPlus c)
                          (cn_plusHeadIndex c) (cn_parentIndex c))
  | _ => n
  end.

Definition withHeadIndex (h : nat) (n : Node) : Node :=
  match n with
  | NTree t => NTree (mkTreeNode (tn_parentNode t) (tn_childs t) h (tn_version t)
                        (tn_parentIndex t))
  | NChain c => NChain (mkChainNode (cn_parentNode c) (cn_childs c) (cn_astResults c) h
                          (cn_functionName c) (cn_solveAst c) (cn_version c) (cn_isPlus c)
                          (cn_plusHeadIndex c) (cn_parentIndex c))
  | _ => n
  end.

Definition withVersion (v : N) (n : Node) : Node :=
  match n with
  | NTree t => NTree (mkTreeNode (tn_parentNode t) (tn_childs t) (tn_headIndex t) (Some v)
                        (tn_parentIndex t))
  | NChain c => NChain (mkChainNode (cn_parentNode c) (cn_childs c) (cn_astResults c)
                          (cn_headIndex c) (cn_functionName c) (cn_solveAst c) (Some v)
                          (cn_isPlus c) (cn_plusHeadIndex c) (cn_parentIndex c))
  | _ => n
  end.

Definition withAstResults (a : list IAst) (n : Node) : Node :=
  match n with
  | NChain c => NChain (mkChainNode (cn_parentNode c) (cn_childs c) a (cn_headIndex c)
                          (cn_functionName c) (cn_solveAst c) (cn_version c) (cn_isPlus c)
                          (cn_plusHeadIndex c) (cn_parentIndex c))
  | _ => n
  end.

Definition withIsPlus (b : bool) (n : Node) : Node :=
  match n with
  | NChain c => NChain (mkChainNode (cn_parentNode c) (cn_childs c) (cn_astResults c)
                          (cn_headIndex c) (cn_functionName c) (cn_solveAst c) (cn_version c)
                          b (cn_plusHeadIndex c) (cn_parentIndex c))
  | _ => n
  end.

Definition withPlusHeadIndex (k : nat) (n : Node) : Node :=
  match n with
  | NChain c => NChain (mkChainNode (cn_parentNode c) (cn_childs c) (cn_astResults c)
                          (cn_headIndex c) (cn_functionName c) (cn_solveAst c) (cn_version c)
                          (cn_isPlus c) k (cn_parentIndex c))
  | _ => n
  end.

(** Apply an assignment to the object behind a reference. *)
Definition modifyNode (r : NodeRef) (f : Node -> Node) (p : Parser) : Parser :=
  match getNode r p with
  | Some n => putNode r (f n) p
  | None => p
  end.

Definition setChilds (r : NodeRef) (cs : list (option NodeRef)) : Build unit :=
  fun p => Ok (tt, modifyNode r (withChilds cs) p).

Definition setIsPlus (r : NodeRef) : Build unit :=
  fun p => Ok (tt, modifyNode r (withIsPlus true) p).

(** [new ChainNode(parentIndex)] followed by the three assignments of
    [chainNodeFactory]. *)
Definition freshChainNode (parent : option NodeRef) (functionName : option string)
    (solveAst : ISolveAst) (parentIdx : nat) : Node :=
  NChain (mkChainNode parent [] [] 0 functionName solveAst None false 0 parentIdx).

(** [createNodeByElement].  The chain-factory case runs the factory with a
    null function name, so no FIRST set is generated there. *)
Fixpoint createNodeByElement (element : Element) (parent : option NodeRef)
    (parentIdx : nat) {struct element} : Build NodeRef :=
  let mapElements :=
    fix mapElements (es : list Element) (owner : NodeRef) (i : nat) : Build (list NodeRef) :=
      match es with
      | [] => ret []
      | e :: es' =>
          c <- createNodeByElement e (Some owner) i ;;
          cs <- mapElements es' owner (S i) ;;
          ret (c :: cs)
      end in
  match element with
  | EArray es =>
      treeNode <- alloc (NTree (mkTreeNode parent [] 0 None parentIdx)) ;;
      cs <- mapElements es treeNode 0 ;;
      setChilds treeNode (Some <$> cs) ;;;
      ret treeNode
  | EString s =>
      alloc (NMatch (mkMatchNode parent (match_ s) (mkMatching TString (VString s)) parentIdx))
  | EBoolean true =>
      alloc (NMatch (mkMatchNode parent matchTrue (mkMatching TLoose (VBool true)) parentIdx))
  | EBoolean false =>
      alloc (NMatch (mkMatchNode parent matchFalse (mkMatching TLoose (VBool false)) parentIdx))
  | EMatch _ displayName fn =>
      alloc (NMatch (mkMatchNode parent fn (mkMatching TSpecial (VString displayName)) parentIdx))
  | EChainNodeFactory es solveAst isPlus =>
      chainNode <- alloc (freshChainNode parent None solveAst parentIdx) ;;
      cs <- mapElements (solveDirectLeftRecursion es None) chainNode 0 ;;
      setChilds chainNode (Some <$> cs) ;;;
      (if isPlus then setIsPlus chainNode else ret tt) ;;;
      ret chainNode
  | EChainFunction name =>
      alloc (NFunction (mkFunctionNode parent name parentIdx))
  | EOther => throw "unknow element in chain"
  end.

(** ** FIRST sets *)

(** [Set.prototype.add] *)
Definition setAdd (x : string) (xs : list string) : list string :=
  if bool_decide (x ∈ xs) then xs else xs ++ [x].

(** [all.concat(r)]: an array is spliced in, [undefined] is appended as one
    element. *)
Definition concatResult (all : list FirstOrFunctionSet)
    (r : option (list FirstOrFunctionSet)) : list FirstOrFunctionSet :=
  match r with
  | Some l => all ++ l
  | None => all ++ [FUndefined]
  end.

(** [getFirstOrFunctionSet].  The source recursion descends the graph; [depth]
    bounds the descent, and running out of it is the stack exhaustion a cyclic
    graph causes.  A chain without a first child falls off the end of the
    function and yields [undefined], here [None]. *)
Fixpoint getFirstOrFunctionSet (depth : nat) (node : NodeRef) (functionName : string)
    : Build (option (list FirstOrFunctionSet)) :=
  match depth with
  | 0 => throw "RangeError: Maximum call stack size exceeded"
  | S depth' =>
      fun p =>
        match getNode node p with
        | Some (NChain c) =>
            match mjoin (cn_childs c !! 0) with
            | Some child => getFirstOrFunctionSet depth' child functionName p
            | None => Ok (None, p)
            end
        | Some (NTree t) =>
            (fix reduce (cs : list (option NodeRef)) (all : list FirstOrFunctionSet)
               : Build (option (list FirstOrFunctionSet)) :=
               match cs with
               | [] => ret (Some all)
               | None :: cs' => reduce cs' all
               | Some child :: cs' =>
                   r <- getFirstOrFunctionSet depth' child functionName ;;
                   reduce cs' (concatResult all r)
               end) (tn_childs t) [] p
        | Some (NMatch _) => Ok (Some [FMatch node], p)
        | Some (NFunction f) =>
            let relatedFunctionName := fn_chainFunction f in
            let related :=
              match relatedSet p !! relatedFunctionName with
              | Some names => setAdd functionName names
              | None => [functionName]
              end in
            Ok (Some [FName relatedFunctionName],
                setRelatedSet (<[relatedFunctionName := related]> (relatedSet p)) p)
        | None => Throw "Unexpected node: undefined"
        end
  end.

Definition isMatchEntry (e : FirstOrFunctionSet) : bool :=
  match e with FMatch _ => true | _ => false end.

Definition matchEntries (es : list FirstOrFunctionSet) : list NodeRef :=
  omap (fun e => match e with FMatch r => Some r | _ => None end) es.

(** The reducer of [solveFirstSet]: a name whose FIRST set is published is
    replaced by that set, everything else is kept. *)
Definition replaceSolved (fs : gmap string (list NodeRef))
    (all : list FirstOrFunctionSet) (entry : FirstOrFunctionSet)
    : list FirstOrFunctionSet :=
  match entry with
  | FName name =>
      match fs !! name with
      | Some solved => all ++ (FMatch <$> solved)
      | None => all ++ [entry]
      end
  | _ => all ++ [entry]
  end.

(** [solveFirstSet].  The callback handed to [relatedFunctionNames.forEach]
    is [relatedFunctionName => solveFirstSet]: it evaluates to the function
    and calls nothing, so the loop leaves the parser as it is. *)
Definition solveFirstSet (functionName : string) : Build unit :=
  fun p =>
    if bool_decide (is_Some (firstSet p !! functionName)) then Ok (tt, p)
    else
      match firstOrFunctionSet p !! functionName with
      | Some (Some firstMatchNodes) =>
          let newFirstMatchNodes :=
            foldl (replaceSolved (firstSet p)) [] firstMatchNodes in
          let p1 :=
            setFirstOrFunctionSet
              (<[functionName := Some newFirstMatchNodes]> (firstOrFunctionSet p)) p in
          if forallb isMatchEntry newFirstMatchNodes then
            let p2 :=
              setFirstSet (<[functionName := matchEntries newFirstMatchNodes]> (firstSet p1))
                p1 in
            match relatedSet p2 !! functionName with
            | Some relatedFunctionNames =>
                Ok (tt, foldl (fun q relatedFunctionName => q) p2 relatedFunctionNames)
            | None => Ok (tt, p2)
            end
          else Ok (tt, p1)
      | _ => Throw "TypeError: Cannot read properties of undefined (reading 'reduce')"
      end.

(** [generateFirstSet]; the descent is given one level per stored node and one
    more, which an acyclic graph cannot exceed. *)
Definition generateFirstSet (node : NodeRef) (functionName : string) : Build unit :=
  fun p =>
    if bool_decide (is_Some (firstSet p !! functionName)) then Ok (tt, p)
    else
      (firstMatchNodes <- getFirstOrFunctionSet (S (length (nodes p))) node functionName ;;
       (fun q => Ok (tt, setFirstOrFunctionSet
                           (<[functionName := firstMatchNodes]> (firstOrFunctionSet q)) q)) ;;;
       solveFirstSet functionName) p.

(** The [chainNodeFactory] closure returned by [chain(...elements)(solveAst)]. *)
Definition chainNodeFactory (elements : list Element) (solveAst : ISolveAst)
    (parent : option NodeRef) (functionName : option string) (parentIdx : nat)
    : Build NodeRef :=
  chainNode <- alloc (freshChainNode parent functionName solveAst parentIdx) ;;
  cs <- (fix mapElements (es : list Element) (i : nat) : Build (list NodeRef) :=
           match es with
           | [] => ret []
           | e :: es' =>
               c <- createNodeByElement e (Some chainNode) i ;;
               cs <- mapElements es' (S i) ;;
               ret (c :: cs)
           end) (solveDirectLeftRecursion elements functionName) 0 ;;
  setChilds chainNode (Some <$> cs) ;;;
  (if truthyName functionName
   then generateFirstSet chainNode (default "" functionName)
   else ret tt) ;;;
  ret chainNode.

(** [FunctionNode.run]: the chain function is called and its factory applied
    to the node's own parent, name and position. *)
Definition runFunctionNode (g : Grammar) (f : FunctionNode) : Build NodeRef :=
  let '(elements, solveAst) := g (fn_chainFunction f) in
  chainNodeFactory elements solveAst (fn_parentNode f) (Some (fn_chainFunction f))
    (fn_parentIndex f).

(** ** The visiter machine *)

Definition MAX_VISITER_CALL : N := 10000000.

Record IChance := mkChance {
  ch_node : NodeRef;
  ch_headIndex : nat;
  ch_tokenIndex : nat
}.

(** [store.parser] is the parser object itself; the store carries its state
    while a traversal runs. *)
Record VisiterStore := mkStore {
  restChances : list IChance;
  scanner : Scanner;
  s_version : N;
  s_parser : Parser
}.

(** Which function runs next.  Every call among [visiter], [visiterNextNode]
    and [tryChances] is the last action of its caller, and [tailCallOptimize]
    of the utils module turns the wrapped functions into loops over their
    pending calls, so a call is a jump; [ResetParents node version next] is
    the loop of [resetParentsHeadIndexAndVersion] standing at [node], after
    which [visiter(next)] runs. *)
Inductive Control :=
| Visiter (node : NodeRef)
| VisiterNextNode (node : NodeRef) (astValue : IAst)
| TryChances (node : NodeRef)
| ResetParents (node : NodeRef) (version : N) (next : NodeRef)
| Returned
| Thrown (msg : string).

(** A configuration: the pending call, the store, and the variables [V] that
    the callbacks of the option object close over. *)
Record Config (V : Type) := mkConfig {
  control : Control;
  store : VisiterStore;
  closure : V
}.
Arguments mkConfig {V} control store closure.
Arguments control {V} c.
Arguments store {V} c.
Arguments closure {V} c.

(** [VisiterOption].  An absent callback is [None]; a callback reads and
    assigns the variables it closes over and may throw.  [onSuccess] reads
    the parser it captured, [onMatchNode] ends in a call of [tryChances] or
    [visiterNextNode]. *)
Record VisiterOption (V : Type) := mkOption {
  onCallVisiter : option (V -> Res V);
  onVisiterNextNode : option (V -> Res V);
  onSuccess : option (Parser -> V -> Res V);
  onFail : option (V -> V);
  generateAst : bool;
  onMatchNode : NodeRef -> MatchNode -> VisiterStore -> V -> Config V;
  enableFirstSet : bool
}.
Arguments onCallVisiter {V} v.
Arguments onVisiterNextNode {V} v.
Arguments onSuccess {V} v.
Arguments onFail {V} v.
Arguments generateAst {V} v.
Arguments onMatchNode {V} v.
Arguments enableFirstSet {V} v.

Definition withParser (p : Parser) (st : VisiterStore) : VisiterStore :=
  mkStore (restChances st) (scanner st) (s_version st) p.

Definition withScanner (sc : Scanner) (st : VisiterStore) : VisiterStore :=
  mkStore (restChances st) sc (s_version st) (s_parser st).

Definition withRestChances (cs : list IChance) (st : VisiterStore) : VisiterStore :=
  mkStore cs (scanner st) (s_version st) (s_parser st).

Definition withStoreVersion (v : N) (st : VisiterStore) : VisiterStore :=
  mkStore (restChances st) (scanner st) v (s_parser st).

(** [a[i] = x] on a JavaScript array: in range it overwrites, past the end the
    array grows and the slots in between stay empty. *)
Definition arraySet {A} (hole : A) (i : nat) (x : A) (l : list A) : list A :=
  if decide (i < length l) then <[i := x]> l
  else l ++ replicate (i - length l) hole ++ [x].

(** lodash [set(astResults, `${p}.${i}`, v)]: the row at [p] is kept when it
    is an array and created when the slot holds no object; then [row[i] = v].
    The rows are the only objects this program stores at that level. *)
Definition lodashSet (p i : nat) (v : IAst) (a : list IAst) : list IAst :=
  let row := match a !! p with
             | Some (AstArray r) => r
             | _ => []
             end in
  arraySet AstUndefined p (AstArray (arraySet AstUndefined i v row)) a.

(** [Array.prototype.push] and [pop]: the end of the list is the top. *)
Definition push {A} (x : A) (l : list A) : list A := l ++ [x].

Definition pop {A} (l : list A) : option (A * list A) :=
  match reverse l with
  | [] => None
  | x :: r => Some (x, reverse r)
  end.

(** [resetHeadByVersion], on the node object. *)
Definition resetHeadByVersion (node : Node) (storeVersion : N) : Node :=
  if bool_decide (version node ≠ Some storeVersion) then
    match node with
    | NChain _ => withAstResults [] (withHeadIndex 0 (withVersion storeVersion node))
    | _ => withHeadIndex 0 (withVersion storeVersion node)
    end
  else node.

(** [if (visiterOption.cb) { visiterOption.cb(..) }] *)
Definition callIfPresent {V} (cb : option (V -> Res V)) (vars : V) : Res V :=
  match cb with
  | Some f => f vars
  | None => Ok vars
  end.

(** [firstMatchNodes.some(n => n.run(store.scanner, false).match)] *)
Fixpoint someFirstMatch (firstMatchNodes : list NodeRef) (p : Parser) (sc : Scanner)
    : Res (bool * Scanner) :=
  match firstMatchNodes with
  | [] => Ok (false, sc)
  | r :: rest =>
      match getNode r p with
      | Some (NMatch m) =>
          let '(matchResult, sc') := mn_matchFunction m sc false in
          if matched matchResult then Ok (true, sc') else someFirstMatch rest p sc'
      | _ => Throw "TypeError: firstMatchNode.run is not a function"
      end
  end.

Section Engine.

Context {V : Type}.
Variable g : Grammar.
Variable visiterOption : VisiterOption V.

(** [tryChances] up to and including the two assignments on the popped
    chance's node; the ancestors follow in [ResetParents]. *)
Definition tryChances (node : NodeRef) (st : VisiterStore) (vars : V) : Config V :=
  let '(v, p) := getNewVersion (s_parser st) in
  let st1 := withStoreVersion v (withParser p st) in
  match pop (restChances st1) with
  | None =>
      mkConfig Returned st1
        (match onFail visiterOption with Some f => f vars | None => vars end)
  | Some (recentChance, rest) =>
      let st2 := withScanner (Scan.setIndex (ch_tokenIndex recentChance) (scanner st1))
                   (withRestChances rest st1) in
      match getNode (ch_node recentChance) p with
      | None =>
          mkConfig
            (Thrown "TypeError: Cannot set properties of undefined (setting 'headIndex')")
            st2 vars
      | Some _ =>
          let p' := modifyNode (ch_node recentChance)
                      (fun n => withVersion v (withHeadIndex (ch_headIndex recentChance) n))
                      p in
          mkConfig (ResetParents (ch_node recentChance) v (ch_node recentChance))
            (withParser p' st2) vars
      end
  end.

(** One turn of the loop of [resetParentsHeadIndexAndVersion]. *)
Definition resetParentsHeadIndexAndVersion (node : NodeRef) (v : N) (next : NodeRef)
    (st : VisiterStore) (vars : V) : Config V :=
  let p := s_parser st in
  match getNode node p with
  | None =>
      mkConfig (Thrown "TypeError: Cannot read properties of undefined (reading 'parentNode')")
        st vars
  | Some n =>
      match parentNode n with
      | None => mkConfig (Visiter next) st vars
      | Some parent =>
          match getNode parent p with
          | Some (NChain _ as pn) | Some (NTree _ as pn) =>
              let h := Nat.min (parentIndex n + 1) (length (childs pn)) in
              let p' := putNode parent (withVersion v (withHeadIndex h pn)) p in
              mkConfig (ResetParents parent v next) (withParser p' st) vars
          | _ =>
              mkConfig
                (Thrown "TypeError: Cannot read properties of undefined (reading 'length')")
                st vars
          end
      end
  end.

(** [visiterNextNode] *)
Definition visiterNextNode (node : NodeRef) (astValue : IAst) (st : VisiterStore)
    (vars : V) : Config V :=
  match callIfPresent (onVisiterNextNode visiterOption) vars with
  | Throw msg => mkConfig (Thrown msg) st vars
  | Ok vars1 =>
      let p := s_parser st in
      match getNode node p with
      | None =>
          mkConfig
            (Thrown "TypeError: Cannot read properties of undefined (reading 'parentNode')")
            st vars1
      | Some n =>
          match parentNode n with
          | None =>
              if Scan.isEnd (scanner st) then
                match onSuccess visiterOption with
                | Some f =>
                    match f p vars1 with
                    | Ok vars2 => mkConfig Returned st vars2
                    | Throw msg => mkConfig (Thrown msg) st vars1
                    end
                | None => mkConfig Returned st vars1
                end
              else mkConfig (TryChances node) st vars1
          | Some parent =>
              match getNode parent p with
              | Some (NChain c) =>
                  let pn1 :=
                    if generateAst visiterOption then
                      if cn_isPlus c
                      then withAstResults
                             (lodashSet (cn_plusHeadIndex c) (parentIndex n) astValue
                                (cn_astResults c)) (NChain c)
                      else withAstResults
                             (arraySet AstUndefined (parentIndex n) astValue
                                (cn_astResults c)) (NChain c)
                    else NChain c in
                  if cn_isPlus c && bool_decide (cn_headIndex c = length (cn_childs c)) then
                    let pn2 := withPlusHeadIndex (cn_plusHeadIndex c + 1) pn1 in
                    let chance := mkChance parent 0 (Scan.getIndex (scanner st)) in
                    mkConfig (Visiter parent)
                      (withRestChances (push chance (restChances st))
                         (withParser (putNode parent pn2 p) st)) vars1
                  else
                    mkConfig (Visiter parent) (withParser (putNode parent pn1 p) st) vars1
              | Some (NTree _) => mkConfig (VisiterNextNode parent astValue) st vars1
              | _ => mkConfig (Thrown "Unexpected parent node type") st vars1
              end
          end
      end
  end.

(** The chain-node branch of [visiter], after [resetHeadByVersion]. *)
Definition visiterChain (node : NodeRef) (c : ChainNode) (st : VisiterStore) (vars : V)
    : Config V :=
  let p := s_parser st in
  let advance (st : VisiterStore) :=
    match mjoin (cn_childs c !! cn_headIndex c) with
    | Some nextChild =>
        mkConfig (Visiter nextChild)
          (withParser (putNode node (withHeadIndex (cn_headIndex c + 1) (NChain c))
                         (s_parser st)) st) vars
    | None =>
        mkConfig
          (VisiterNextNode node
             (if generateAst visiterOption then cn_solveAst c (cn_astResults c)
              else AstNull)) st vars
    end in
  if enableFirstSet visiterOption && truthyName (cn_functionName c)
     && bool_decide (cn_headIndex c = 0)
  then
    match firstSet p !! default "" (cn_functionName c) with
    | Some firstMatchNodes =>
        match someFirstMatch firstMatchNodes p (scanner st) with
        | Throw msg => mkConfig (Thrown msg) st vars
        | Ok (false, sc) =>
            mkConfig (TryChances node)
              (withScanner sc
                 (withParser
                    (putNode node (withHeadIndex (length (cn_childs c)) (NChain c)) p) st))
              vars
        | Ok (true, sc) => advance (withScanner sc st)
        end
    | None => advance st
    end
  else advance st.

(** The tree-node branch of [visiter], after [resetHeadByVersion]. *)
Definition visiterTree (node : NodeRef) (t : TreeNode) (currentTokenIndex : nat)
    (st : VisiterStore) (vars : V) : Config V :=
  let st1 :=
    if (Z.of_nat (tn_headIndex t) <? Z.of_nat (length (tn_childs t)) - 1)%Z
    then withRestChances
           (push (mkChance node (tn_headIndex t + 1) currentTokenIndex) (restChances st)) st
    else st in
  match mjoin (tn_childs t !! tn_headIndex t) with
  | Some nextChild =>
      mkConfig (Visiter nextChild)
        (withParser (putNode node (withHeadIndex (tn_headIndex t + 1) (NTree t))
                       (s_parser st1)) st1) vars
  | None => mkConfig Returned st1 vars
  end.

(** The function-node branch of [visiter]: expand, splice into the parent,
    visit the expansion. *)
Definition visiterFunction (f : FunctionNode) (st : VisiterStore) (vars : V) : Config V :=
  match runFunctionNode g f (s_parser st) with
  | Throw msg => mkConfig (Thrown msg) st vars
  | Ok (replacedNode, p) =>
      match fn_parentNode f ≫= (fun parent => pn ← getNode parent p; Some (parent, pn)) with
      | Some (parent, (NChain _ as pn)) | Some (parent, (NTree _ as pn)) =>
          let cs := arraySet None (fn_parentIndex f) (Some replacedNode) (childs pn) in
          mkConfig (Visiter replacedNode)
            (withParser (putNode parent (withChilds cs pn) p) st) vars
      | _ =>
          mkConfig
            (Thrown "TypeError: Cannot read properties of undefined (reading 'childs')")
            (withParser p st) vars
      end
  end.

(** [visiter].  A reference behind which there is no object is the falsy
    [node] of the first test.  [resetHeadByVersion] keeps the class of the
    node, so the inner matches have one live branch. *)
Definition visiter (node : NodeRef) (st : VisiterStore) (vars : V) : Config V :=
  match getNode node (s_parser st) with
  | None => mkConfig Returned st vars
  | Some n =>
      match callIfPresent (onCallVisiter visiterOption) vars with
      | Throw msg => mkConfig (Thrown msg) st vars
      | Ok vars1 =>
          let currentTokenIndex := Scan.getIndex (scanner st) in
          match n with
          | NChain _ =>
              match resetHeadByVersion n (s_version st) with
              | NChain c =>
                  visiterChain node c
                    (withParser (putNode node (NChain c) (s_parser st)) st) vars1
              | _ => mkConfig Returned st vars1
              end
          | NMatch m => onMatchNode visiterOption node m st vars1
          | NTree _ =>
              match resetHeadByVersion n (s_version st) with
              | NTree t =>
                  visiterTree node t currentTokenIndex
                    (withParser (putNode node (NTree t) (s_parser st)) st) vars1
              | _ => mkConfig Returned st vars1
              end
          | NFunction f => visiterFunction f st vars1
          end
      end
  end.

Definition step (cfg : Config V) : Config V :=
  match control cfg with
  | Visiter node => visiter node (store cfg) (closure cfg)
  | VisiterNextNode node astValue => visiterNextNode node astValue (store cfg) (closure cfg)
  | TryChances node => tryChances node (store cfg) (closure cfg)
  | ResetParents node v next =>
      resetParentsHeadIndexAndVersion node v next (store cfg) (closure cfg)
  | Returned | Thrown _ => cfg
  end.

Definition halted (cfg : Config V) : bool :=
  match control cfg with
  | Returned | Thrown _ => true
  | _ => false
  end.

(** [k] steps from a configuration. *)
Fixpoint steps (k : nat) (cfg : Config V) : Config V :=
  match k with
  | 0 => cfg
  | S k' => steps k' (step cfg)
  end.

(** Run until the outermost call returns or throws; [None] when [fuel] steps
    were not enough. *)
Fixpoint run (fuel : nat) (cfg : Config V) : option (Config V) :=
  if halted cfg then Some cfg
  else match fuel with
       | 0 => None
       | S fuel' => run fuel' (step cfg)
       end.

End Engine.

(** The loop of [resetParentsHeadIndexAndVersion(node, version)] is about to
    start, with [visiter(next)] to follow. *)
Definition loopStart {V} (v : N) (next node : NodeRef) (st : VisiterStore) (vars : V)
    : Config V :=
  mkConfig (ResetParents node v next) st vars.

(** ** The option object of [createParser] *)

Record LastMatch := mkLastMatch {
  restTokenCount : Z;
  lm_matchNode : NodeRef;
  lm_token : option IToken
}.

(** The [let] variables of [createParser] that its callbacks assign. *)
Record ParseVars := mkVars {
  success : bool;
  ast : IAst;
  callVisiterCount : N;
  callParentCount : N;
  lastMatchUnderShortestRestToken : option LastMatch;
  cursorPrevNodes : list NodeRef
}.

Definition tokenAst (t : option IToken) : IAst :=
  match t with
  | Some t => AstToken t
  | None => AstNull
  end.

(** The best-progress update of [onMatchNode]: a non-loose match replaces the
    record when there is none or when it leaves strictly fewer tokens. *)
Definition updateLastMatch (matchNode : NodeRef) (m : MatchNode) (matchResult : IMatch)
    (rest : Z) (last : option LastMatch) : option LastMatch :=
  if bool_decide (m_type (mn_matching m) ≠ TLoose) then
    match last with
    | None => Some (mkLastMatch rest matchNode (token matchResult))
    | Some l =>
        if (rest <? restTokenCount l)%Z
        then Some (mkLastMatch rest matchNode (token matchResult))
        else last
    end
  else last.

(** [cursorPrevToken !== null && matchResult.token === cursorPrevToken] *)
Definition isCursorPrev (cursorPrevToken : option IToken) (matchResult : IMatch) : bool :=
  match cursorPrevToken with
  | Some t => bool_decide (token matchResult = Some t)
  | None => false
  end.

Module ParseOption.

Definition onCallVisiter (v : ParseVars) : Res ParseVars :=
  let count := (callVisiterCount v + 1)%N in
  if (MAX_VISITER_CALL <? count)%N then Throw "call visiter more then 10000000"
  else Ok (mkVars (success v) (ast v) count (callParentCount v)
             (lastMatchUnderShortestRestToken v) (cursorPrevNodes v)).

Definition onVisiterNextNode (v : ParseVars) : Res ParseVars :=
  let count := (callParentCount v + 1)%N in
  if (MAX_VISITER_CALL <? count)%N then Throw "call parent more then10000000"
  else Ok (mkVars (success v) (ast v) (callVisiterCount v) count
             (lastMatchUnderShortestRestToken v) (cursorPrevNodes v)).

(** [success = true], then the root's reducer gives [ast]. *)
Definition onSuccess (p : Parser) (v : ParseVars) : Res ParseVars :=
  match rootChainNode p ≫= (fun r => getNode r p) with
  | Some (NChain c) =>
      Ok (mkVars true (cn_solveAst c (cn_astResults c)) (callVisiterCount v)
            (callParentCount v) (lastMatchUnderShortestRestToken v) (cursorPrevNodes v))
  | Some _ =>
      Ok (mkVars true AstUndefined (callVisiterCount v) (callParentCount v)
            (lastMatchUnderShortestRestToken v) (cursorPrevNodes v))
  | None => Throw "TypeError: Cannot read properties of null (reading 'solveAst')"
  end.

Definition onFail (v : ParseVars) : ParseVars :=
  mkVars false (ast v) (callVisiterCount v) (callParentCount v)
    (lastMatchUnderShortestRestToken v) (cursorPrevNodes v).

Definition onMatchNode (cursorPrevToken : option IToken) (matchNode : NodeRef)
    (m : MatchNode) (st : VisiterStore) (v : ParseVars) : Config ParseVars :=
  let '(matchResult, sc) := mn_matchFunction m (scanner st) true in
  let st1 := withScanner sc st in
  if negb (matched matchResult) then mkConfig (TryChances matchNode) st1 v
  else
    let rest := Scan.getRestTokenCount sc in
    let last := updateLastMatch matchNode m matchResult rest
                  (lastMatchUnderShortestRestToken v) in
    let prevNodes := if isCursorPrev cursorPrevToken matchResult
                     then push matchNode (cursorPrevNodes v)
                     else cursorPrevNodes v in
    mkConfig (VisiterNextNode matchNode (tokenAst (token matchResult))) st1
      (mkVars (success v) (ast v) (callVisiterCount v) (callParentCount v) last prevNodes).

(** The object literal passed to [newVisiter], after [defaults] has filled
    in [generateAst] and [enableFirstSet]. *)
Definition option_ (cursorPrevToken : option IToken) : VisiterOption ParseVars :=
  mkOption ParseVars (Some onCallVisiter) (Some onVisiterNextNode) (Some onSuccess)
    (Some onFail) true (onMatchNode cursorPrevToken) true.

End ParseOption.

(** ** The option object of [findNextMatchNodes] *)

Module ProbeOption.

(** The closed-over variable is the array [nextMatchNodes]. *)
Definition onMatchNode (matchNode : NodeRef) (m : MatchNode) (st : VisiterStore)
    (nextMatchNodes : list NodeRef) : Config (list NodeRef) :=
  if bool_decide (m_type (mn_matching m) = TLoose)
     && bool_decide (m_value (mn_matching m) = VBool true)
  then mkConfig (VisiterNextNode matchNode AstNull) st nextMatchNodes
  else mkConfig (TryChances matchNode) st (push matchNode nextMatchNodes).

Definition option_ : VisiterOption (list NodeRef) :=
  mkOption (list NodeRef) None None None None false onMatchNode false.

End ProbeOption.

(** ** The next-match probe and the parse entry *)

(** Effects of the top level: the parser state is threaded, a call may throw,
    and [None] says the given number of steps was not enough. *)
Definition Eff (A : Type) : Type := Parser -> option (Res (A * Parser)).

Definition eret {A} (a : A) : Eff A := fun p => Some (Ok (a, p)).

Definition ebind {A B} (m : Eff A) (k : A -> Eff B) : Eff B :=
  fun p => match m p with
           | Some (Ok (a, p')) => k a p'
           | Some (Throw msg) => Some (Throw msg)
           | None => None
           end.

Notation "x <~ m ;; k" := (ebind m (fun x => k))
  (at level 90, m at level 89, right associativity).

(** lodash [uniq] and [uniqBy]: the first element of each key is kept. *)
Fixpoint uniqByFrom {A K} `{EqDecision K} (key : A -> K) (seen : list K) (l : list A)
    : list A :=
  match l with
  | [] => []
  | x :: l' =>
      if bool_decide (key x ∈ seen) then uniqByFrom key seen l'
      else x :: uniqByFrom key (key x :: seen) l'
  end.

Definition uniqBy {A K} `{EqDecision K} (key : A -> K) (l : list A) : list A :=
  uniqByFrom key [] l.

Definition uniq {A} `{EqDecision A} (l : list A) : list A := uniqBy id l.

(** [each.type + each.value], string concatenation. *)
Definition matchingKey (m : IMatching) : string :=
  (match m_type m with
   | TString => "string"
   | TLoose => "loose"
   | TSpecial => "special"
   end) +:+
  (match m_value m with
   | VString s => s
   | VBool true => "true"
   | VBool false => "false"
   end).

(** [each.matching] of a recorded match node. *)
Definition matchingOf (p : Parser) (r : NodeRef) : option IMatching :=
  match getNode r p with
  | Some (NMatch m) => Some (mn_matching m)
  | _ => None
  end.

(** The nodes of a list, each with its [matching].  Match nodes are never
    assigned to ([matchStable] below), so reading [matching] here or at a
    later use of the node gives the same. *)
Definition matchingsOf (rs : list NodeRef) : Eff (list (NodeRef * IMatching)) :=
  fun p =>
    match mapM (fun r => m ← matchingOf p r; Some (r, m)) rs with
    | Some l => Some (Ok (l, p))
    | None => Some (Throw "TypeError: Cannot read properties of undefined (reading 'type')")
    end.

Inductive Reason := wrong | incomplete.

Record ParseError := mkError {
  e_suggestions : list IMatching;
  e_token : option IToken;
  e_reason : Reason
}.

(** The object [createParser] returns, without [costs]: the two elapsed times
    are wall-clock readings. *)
Record ParseResult := mkResult {
  r_success : bool;
  r_ast : IAst;
  r_callVisiterCount : N;
  r_nextMatchings : list IMatching;
  r_error : option ParseError;
  r_tokens : list IToken
}.

(** The error object built when [!success].  [errorToken] is
    [last && scanner.getNextFromToken(last.token)]; a record without token
    has no following token. *)
Definition makeError (sc : Scanner) (last : option LastMatch) (suggestions : list IMatching)
    : ParseError :=
  let errorToken := last ≫= (fun l => lm_token l ≫= (fun t => Scan.getNextFromToken t sc)) in
  match errorToken with
  | Some t => mkError suggestions (Some t) wrong
  | None => mkError suggestions (last ≫= lm_token) incomplete
  end.

Section Entry.

Variable g : Grammar.

(** The state in which [findNextMatchNodes] starts its traversal: a new
    version, the loop over the ancestors of [node], then [newVisiter] on the
    parent (or, without one, on the node itself) with a fresh store over an
    empty scanner. *)
Definition probeConfig (node : NodeRef) (parent : option NodeRef) (p : Parser)
    : Config (list NodeRef) :=
  let '(newVersion, p1) := getNewVersion p in
  loopStart newVersion (default node parent) node
    (mkStore [] (Scan.new []) newVersion p1) [].

Definition probe (fuel : nat) (node : NodeRef) (parent : option NodeRef)
    : Eff (list NodeRef) :=
  fun p =>
    match run g ProbeOption.option_ fuel (probeConfig node parent p) with
    | None => None
    | Some cfg' =>
        match control cfg' with
        | Thrown msg => Some (Throw msg)
        | _ => Some (Ok (closure cfg', s_parser (store cfg')))
        end
    end.

(** [findNextMatchNodes]: climb over tree parents, then probe. *)
Fixpoint findNextMatchNodes (fuel : nat) (node : NodeRef) : Eff (list NodeRef) :=
  fun p =>
    match getNode node p with
    | None =>
        Some (Throw "TypeError: Cannot read properties of undefined (reading 'parentNode')")
    | Some n =>
        match parentNode n with
        | Some parent =>
            match getNode parent p with
            | Some (NTree _) =>
                match fuel with
                | 0 => None
                | S fuel' => findNextMatchNodes fuel' parent p
                end
            | _ => probe fuel node (Some parent) p
            end
        | None => probe fuel node None p
        end
    end.

(** [cursorPrevNodes.reduce((all, n) => all.concat(findNextMatchNodes(n)), [])] *)
Fixpoint concatNextMatchNodes (fuel : nat) (cursorPrevNodes : list NodeRef)
    (all : list NodeRef) : Eff (list NodeRef) :=
  match cursorPrevNodes with
  | [] => eret all
  | n :: rest =>
      found <~ findNextMatchNodes fuel n ;;
      concatNextMatchNodes fuel rest (all ++ found)
  end.

(** [found.some(nn => nn.matching.value === cursorNextToken.value)] *)
Fixpoint someValueIs (value : string) (found : list NodeRef) : Eff bool :=
  match found with
  | [] => eret false
  | r :: rest =>
      fun p =>
        match matchingOf p r with
        | Some m =>
            if bool_decide (m_value m = VString value) then Some (Ok (true, p))
            else someValueIs value rest p
        | None =>
            Some (Throw "TypeError: Cannot read properties of undefined (reading 'value')")
        end
  end.

(** The [filter] applied when a token follows the cursor. *)
Fixpoint filterByNextToken (fuel : nat) (value : string)
    (nextMatchNodes : list (NodeRef * IMatching)) : Eff (list (NodeRef * IMatching)) :=
  match nextMatchNodes with
  | [] => eret []
  | (r, m) :: rest =>
      found <~ findNextMatchNodes fuel r ;;
      keep <~ someValueIs value found ;;
      kept <~ filterByNextToken fuel value rest ;;
      eret (if keep : bool then (r, m) :: kept else kept)
  end.

(** [root()(null, null, 0, parser)] on a new parser, when [parserMap] has
    none for this root. *)
Definition buildParser (root : string) : Res Parser :=
  let '(elements, solveAst) := g root in
  match chainNodeFactory elements solveAst None None 0 newParser with
  | Ok (r, p) => Ok (setRootChainNode (Some r) p)
  | Throw msg => Throw msg
  end.

Definition initialVars (cursorPrevToken : option IToken) (root : NodeRef) : ParseVars :=
  mkVars false AstNull 0 0 None (if cursorPrevToken is None then [root] else []).

(** The state in which [createParser] calls [newVisiter]. *)
Definition initialConfig (tokens : list IToken) (cursorIndex : nat) (parser : Parser)
    (root : NodeRef) : Config ParseVars :=
  let scanner := Scan.new tokens in
  let cursorPrevToken := Scan.getPrevTokenFromCharacterIndex cursorIndex scanner in
  let '(newVersion, p1) := getNewVersion parser in
  mkConfig (Visiter root) (mkStore [] scanner newVersion p1)
    (initialVars cursorPrevToken root).

Definition parseOption (tokens : list IToken) (cursorIndex : nat)
    : VisiterOption ParseVars :=
  ParseOption.option_
    (Scan.getPrevTokenFromCharacterIndex cursorIndex (Scan.new tokens)).

(** The first part of the parse function, through [newVisiter]: the final
    configuration of the traversal. *)
Definition mainVisit (fuel : nat) (tokens : list IToken) (cursorIndex : nat)
    (parser : Parser) (root : NodeRef) : option (Config ParseVars) :=
  run g (parseOption tokens cursorIndex) fuel
    (initialConfig tokens cursorIndex parser root).

(** [if (cursorNextToken) { nextMatchNodes = nextMatchNodes.filter(..) }] *)
Definition narrowByNextToken (fuel : nat) (cursorNextToken : option IToken)
    (nextMatchNodes : list (NodeRef * IMatching)) : Eff (list (NodeRef * IMatching)) :=
  match cursorNextToken with
  | Some t => filterByNextToken fuel (tok_value t) nextMatchNodes
  | None => eret nextMatchNodes
  end.

(** The next match nodes at the cursor, each with its [matching]. *)
Definition nextMatchNodesAt (fuel : nat) (tokens : list IToken) (cursorIndex : nat)
    (cursorPrevNodes : list NodeRef) : Eff (list (NodeRef * IMatching)) :=
  found <~ concatNextMatchNodes fuel (uniq cursorPrevNodes) [] ;;
  withMatchings <~ matchingsOf found ;;
  narrowByNextToken fuel
    (Scan.getNextTokenFromCharacterIndex cursorIndex (Scan.new tokens))
    (uniqBy (fun each => matchingKey each.2) withMatchings).

(** The [error] of the result: absent on success. *)
Definition errorOf (fuel : nat) (tokens : list IToken) (root : NodeRef) (v : ParseVars)
    : Eff (option ParseError) :=
  if success v then eret None
  else
    let last := lastMatchUnderShortestRestToken v in
    found <~ findNextMatchNodes fuel
               (match last with Some l => lm_matchNode l | None => root end) ;;
    suggested <~ matchingsOf found ;;
    eret (Some (makeError (Scan.new tokens) last (uniqBy matchingKey (snd <$> suggested)))).

(** The second part of the parse function: next matchings, error, result. *)
Definition finish (fuel : nat) (tokens : list IToken) (cursorIndex : nat) (root : NodeRef)
    (v : ParseVars) : Eff ParseResult :=
  nextMatchNodes <~ nextMatchNodesAt fuel tokens cursorIndex (cursorPrevNodes v) ;;
  error <~ errorOf fuel tokens root v ;;
  eret (mkResult (success v) (ast v) (callVisiterCount v) (snd <$> reverse nextMatchNodes)
          error tokens).

(** [parserMap.has(root)]: the memoized parser, or a new one built from the
    root. *)
Definition obtainParser (root : string) (parserMap : gmap string Parser) : Res Parser :=
  match parserMap !! root with
  | Some parser => Ok parser
  | None => buildParser root
  end.

(** [createParser(root, lexer)(text, cursorIndex)].  [parserMap] is the
    module-level map from root functions to parsers; the parser object it
    holds is the one the parse mutates. *)
Definition createParser (root : string) (lexer : string -> list IToken)
    (parserMap : gmap string Parser) (text : string) (cursorIndex : nat) (fuel : nat)
    : option (Res (ParseResult * gmap string Parser)) :=
  let tokens := lexer text in
  match obtainParser root parserMap with
  | Throw msg => Some (Throw msg)
  | Ok parser =>
      match rootChainNode parser with
      | None => Some (Throw "TypeError: Cannot read properties of null")
      | Some rootNode =>
          match mainVisit fuel tokens cursorIndex parser rootNode with
          | None => None
          | Some cfg =>
              match control cfg with
              | Thrown msg => Some (Throw msg)
              | _ =>
                  match finish fuel tokens cursorIndex rootNode (closure cfg)
                          (s_parser (store cfg)) with
                  | Some (Ok (result, p)) => Some (Ok (result, <[root := p]> parserMap))
                  | Some (Throw msg) => Some (Throw msg)
                  | None => None
                  end
              end
          end
      end
  end.

End Entry.

(** ** Example grammars and a lexer *)

Module Demo.

(** A lexer that splits on blanks, with spans [start, end). *)
Fixpoint lexFrom (s : string) (pos : nat) (cur : string) (start : nat) : list IToken :=
  let flush := if bool_decide (cur = "") then [] else [mkToken cur start pos] in
  match s with
  | EmptyString => flush
  | String c s' =>
      if bool_decide (String c "" = " ") then flush ++ lexFrom s' (S pos) "" (S pos)
      else lexFrom s' (S pos) (cur +:+ String c "")
             (if bool_decide (cur = "") then pos else start)
  end.

Definition lexer (text : string) : list IToken := lexFrom text 0 "" 0.

(** The default reducer [args => args]. *)
Definition identity : ISolveAst := AstArray.

Definition rules (table : list (string * list Element)) : Grammar :=
  fun name =>
    match list_find (fun rule => rule.1 = name) table with
    | Some (_, (_, elements)) => (elements, identity)
    | None => ([], identity)
    end.

(** [root = chain(term, ['+', '-'], term)()], [term = chain(['a', 'b'])()] *)
Definition arith : Grammar :=
  rules [("root", [EChainFunction "term"; EArray [EString "+"; EString "-"];
                   EChainFunction "term"]);
         ("term", [EArray [EString "a"; EString "b"]])].

(** [root = chain(['a', false])()] *)
Definition optional : Grammar :=
  rules [("root", [EArray [EString "a"; EBoolean false]])].

(** [root = chain(A)()], [A = chain(B, 'y')()], [B = chain('x')()] *)
Definition nested : Grammar :=
  rules [("root", [EChainFunction "A"]);
         ("A", [EChainFunction "B"; EString "y"]);
         ("B", [EString "x"])].


(** The parser that the first parse with a root builds. *)
Definition parserFor (g : Grammar) (root : string) : Parser :=
  match buildParser g root with
  | Ok p => p
  | Throw _ => newParser
  end.

(** The main traversal of [text] (cursor at 0) after [k] steps. *)
Definition traversal (g : Grammar) (text : string) (k : nat) : Config ParseVars :=
  steps g (parseOption (lexer text) 0) k
    (initialConfig (lexer text) 0 (parserFor g "root") 0).

End Demo.

(** ** Notions used in the statements *)

Definition isParentNode (n : Node) : bool :=
  match n with
  | NChain _ | NTree _ => true
  | _ => false
  end.

(** The [i]-th ancestor of a node: [parentNode] followed [i] times. *)
Fixpoint ancestorAt (p : Parser) (i : nat) (node : NodeRef) : option NodeRef :=
  match i with
  | 0 => Some node
  | S i' => n ← getNode node p; parent ← parentNode n; ancestorAt p i' parent
  end.

(** The machine is inside the loop of [resetParentsHeadIndexAndVersion]. *)
Definition inResetLoop {V} (cfg : Config V) : bool :=
  match control cfg with
  | ResetParents _ _ _ => true
  | _ => false
  end.

(** The pending call is [visiter] on an existing node, the entries that reach
    [onCallVisiter]; and the pending call is [visiterNextNode]. *)
Definition entersVisiter {V} (cfg : Config V) : bool :=
  match control cfg with
  | Visiter node => bool_decide (is_Some (getNode node (s_parser (store cfg))))
  | _ => false
  end.

Definition entersVisiterNextNode {V} (cfg : Config V) : bool :=
  match control cfg with
  | VisiterNextNode _ _ => true
  | _ => false
  end.

(** How many of the first [k] configurations of a run satisfy [test]. *)
Fixpoint countSteps {V} (next : Config V -> Config V) (test : Config V -> bool) (k : nat)
    (cfg : Config V) : nat :=
  match k with
  | 0 => 0
  | S k' => (if test cfg then 1 else 0) + countSteps next test k' (next cfg)
  end.

(** [visiterNextNode] is pending on a node without parent while the scanner is
    at its end. *)
Definition rootAscentAtEnd {V} (cfg : Config V) : Prop :=
  exists node astValue n,
    control cfg = VisiterNextNode node astValue /\
    getNode node (s_parser (store cfg)) = Some n /\
    parentNode n = None /\
    Scan.isEnd (scanner (store cfg)) = true.

(** The main traversal is about to run a non-loose terminal that matches:
    [visiter] is pending on match node [r], the call budget lets it in, and
    the matcher, consuming, answers [res] and leaves the scanner [sc]. *)
Definition matchesAt (cfg : Config ParseVars) (r : NodeRef) (m : MatchNode) (res : IMatch)
    (sc : Scanner) : Prop :=
  control cfg = Visiter r /\
  getNode r (s_parser (store cfg)) = Some (NMatch m) /\
  (callVisiterCount (closure cfg) + 1 <= MAX_VISITER_CALL)%N /\
  mn_matchFunction m (scanner (store cfg)) true = (res, sc) /\
  matched res = true /\
  m_type (mn_matching m) <> TLoose.

(** Match nodes are never assigned to: what is a match node stays that match
    node. *)
Definition matchStable (p p' : Parser) : Prop :=
  forall r m, getNode r p = Some (NMatch m) -> getNode r p' = Some (NMatch m).

Definition looseTrue : IMatching := mkMatching TLoose (VBool true).

Definition looseFalse : IMatching := mkMatching TLoose (VBool false).

(** The two messages of the call-budget guard. *)
Definition budgetError (msg : string) : Prop :=
  msg = "call visiter more then 10000000" \/ msg = "call parent more then10000000".

Definition isThrown {V} (cfg : Config V) : bool :=
  match control cfg with
  | Thrown _ => true
  | _ => false
  end.

(** The result and the memoized parser of a parse that returned. *)
Definition resultOf (out : option (Res (ParseResult * gmap string Parser)))
    : option ParseResult :=
  match out with
  | Some (Ok (result, _)) => Some result
  | _ => None
  end.

Definition parserOf (root : string) (out : option (Res (ParseResult * gmap string Parser)))
    : option Parser :=
  match out with
  | Some (Ok (_, parserMap)) => parserMap !! root
  | _ => None
  end.

(** What every graph-building action guarantees: match nodes stay as they
    are and a throw is never one of the guard's. *)
Definition buildOk {A} (m : Build A) : Prop :=
  forall p, match m p with
            | Ok (_, p') => matchStable p p'
            | Throw msg => ~ budgetError msg
            end.

(** Every node in [found] is a match node other than [loose(true)]. *)
Definition recorded (p : Parser) (found : list NodeRef) : Prop :=
  Forall (fun r => exists m, getNode r p = Some (NMatch m) /\ mn_matching m <> looseTrue)
    found.

(** ** Notions used in the further properties *)

(** The element is of a kind [createNodeByElement] has a case for, and so is
    every element nested in it. *)
Fixpoint knownElement (e : Element) : bool :=
  let all := fix all (es : list Element) : bool :=
               match es with
               | [] => true
               | e' :: es' => knownElement e' && all es'
               end in
  match e with
  | EArray es => all es
  | EChainNodeFactory es _ _ => all es
  | EOther => false
  | _ => true
  end.

(** The class of a node object. *)
Inductive Kind := KMatch | KFunction | KTree | KChain.

Definition kindOf (n : Node) : Kind :=
  match n with
  | NMatch _ => KMatch
  | NFunction _ => KFunction
  | NTree _ => KTree
  | NChain _ => KChain
  end.

(** Every child that node [n], stored at [q], lists at position [i] was
    created after [n] and names [q] as its parent and [i] as its position. *)
Definition childrenLinked (p : Parser) (q : NodeRef) (n : Node) : Prop :=
  forall i c, childs n !! i = Some (Some c) ->
    q < c /\
    exists cn, getNode c p = Some cn /\ parentNode cn = Some q /\ parentIndex cn = i.

(** The parent a node names is a tree or chain node of the store; only a
    chain node may have none. *)
Definition rooted (p : Parser) (n : Node) : Prop :=
  match parentNode n with
  | Some parent => exists pn, getNode parent p = Some pn /\ isParentNode pn = true
  | None => kindOf n = KChain
  end.

(** A node as the constructors leave it. *)
Definition freshNode (n : Node) : Prop :=
  version n = None /\ (headIndex n = None \/ headIndex n = Some 0) /\ astResults n = [].

(** The version stamp of a node was handed out by the parser, and its head
    index is at most the number of its children. *)
Definition valuesOk (p : Parser) (n : Node) : Prop :=
  (forall v, version n = Some v -> (v <= p_version p)%N) /\
  (forall h, headIndex n = Some h -> h <= length (childs n)).

Definition nodeOk (p : Parser) (q : NodeRef) (n : Node) : Prop :=
  childrenLinked p q n /\ rooted p n /\ valuesOk p n.

(** The graph invariant. *)
Definition graphOk (p : Parser) : Prop :=
  forall q n, getNode q p = Some n -> nodeOk p q n.

(** From one parser state to a later one every node is still there, of the
    same class, with the same parent and position. *)
Definition linksStable (p p' : Parser) : Prop :=
  forall r n, getNode r p = Some n ->
    exists n', getNode r p' = Some n' /\ kindOf n' = kindOf n /\
               parentNode n' = parentNode n /\ parentIndex n' = parentIndex n.

(** [n'] differs from [n] at most in the fields a traversal assigns: head
    index, version, results and plus counter. *)
Definition sameShape (n n' : Node) : Prop :=
  kindOf n' = kindOf n /\ parentNode n' = parentNode n /\
  parentIndex n' = parentIndex n /\ childs n' = childs n.

(** What [createNodeByElement] returns for an element of known shape: the
    position the store had free, the store extended by new nodes and nothing
    else changed; the first new node has the given parent and position, the
    new nodes are fresh and linked among themselves. *)
Definition built (parent : option NodeRef) (idx : nat) (p : Parser)
    (res : Res (NodeRef * Parser)) : Prop :=
  exists new n,
    res = Ok (length (nodes p), setNodes (nodes p ++ new) p) /\
    new !! 0 = Some n /\ parentNode n = parent /\ parentIndex n = idx /\
    (forall q n', new !! q = Some n' ->
       freshNode n' /\
       childrenLinked (setNodes (nodes p ++ new) p) (length (nodes p) + q) n') /\
    (forall q n', new !! S q = Some n' -> rooted (setNodes (nodes p ++ new) p) n').

(** The same for the elements of an array or chain, created one after the
    other for the owner at [owner]. *)
Definition elementsBuilt (es : list Element) (owner : NodeRef) (i : nat) (p : Parser)
    (res : Res (list NodeRef * Parser)) : Prop :=
  if forallb knownElement es then
    exists new cs,
      res = Ok (cs, setNodes (nodes p ++ new) p) /\
      length cs = length es /\
      (forall k c, cs !! k = Some c ->
         length (nodes p) <= c /\
         exists cn, (nodes p ++ new) !! c = Some cn /\
                    parentNode cn = Some owner /\ parentIndex cn = i + k) /\
      (forall q n', new !! q = Some n' ->
         freshNode n' /\
         childrenLinked (setNodes (nodes p ++ new) p) (length (nodes p) + q) n') /\
      (forall q n', new !! q = Some n' ->
         parentNode n' = Some owner \/ rooted (setNodes (nodes p ++ new) p) n')
  else res = Throw "unknow element in chain".

Definition linked (p : Parser) : Prop :=
  forall q n, getNode q p = Some n -> childrenLinked p q n.

Definition isMatchRef (p : Parser) (r : NodeRef) : Prop :=
  exists m, getNode r p = Some (NMatch m).

(** Every published FIRST set holds match nodes of the store. *)
Definition firstSetsOk (p : Parser) : Prop :=
  forall name rs r, firstSet p !! name = Some rs -> r ∈ rs -> isMatchRef p r.

(** The parser invariant. *)
Definition wf (p : Parser) : Prop := graphOk p /\ firstSetsOk p.

(** The two errors a rule body can cause when it is expanded. *)
Definition buildError (msg : string) : Prop :=
  msg = "unknow element in chain" \/
  msg = "TypeError: Cannot read properties of undefined (reading 'reduce')".

(** Only the table of related names may differ. *)
Definition onlyRelated (p p' : Parser) : Prop :=
  nodes p' = nodes p /\ p_version p' = p_version p /\
  rootChainNode p' = rootChainNode p /\ firstSet p' = firstSet p /\
  firstOrFunctionSet p' = firstOrFunctionSet p.

(** Only the three FIRST-set tables may differ, and no published FIRST set
    is changed or removed. *)
Definition onlyTables (p p' : Parser) : Prop :=
  nodes p' = nodes p /\ p_version p' = p_version p /\
  rootChainNode p' = rootChainNode p /\
  forall name rs, firstSet p !! name = Some rs -> firstSet p' !! name = Some rs.

(** The store has grown at its end and nothing else of the graph changed:
    version and root are the same and no published FIRST set is changed or
    removed. *)
Definition extended (p p' : Parser) : Prop :=
  (exists new, nodes p' = nodes p ++ new) /\ p_version p' = p_version p /\
  rootChainNode p' = rootChainNode p /\
  forall name rs, firstSet p !! name = Some rs -> firstSet p' !! name = Some rs.

(** The parent handed to a factory is a tree or chain node of the store. *)
Definition parentOk (p : Parser) (parent : option NodeRef) : Prop :=
  match parent with
  | Some par => exists pn, getNode par p = Some pn /\ isParentNode pn = true
  | None => True
  end.

(** From one parser state to a later one nothing is lost: the root is the
    same, the version did not go back, every node is still there, of the same
    class and with at least as many child slots, and every published FIRST
    set is still published, unchanged. *)
Definition grows (p p' : Parser) : Prop :=
  rootChainNode p' = rootChainNode p /\ (p_version p <= p_version p')%N /\
  (forall r n, getNode r p = Some n ->
     exists n', getNode r p' = Some n' /\ kindOf n' = kindOf n /\
                length (childs n) <= length (childs n')) /\
  forall name rs, firstSet p !! name = Some rs -> firstSet p' !! name = Some rs.

(** The root the parser names is a node of the store. *)
Definition rootOk (p : Parser) : Prop :=
  exists r n, rootChainNode p = Some r /\ getNode r p = Some n.

(** A pending chance names a tree or chain node of the store and a head
    index within its children. *)
Definition chanceOk (p : Parser) (ch : IChance) : Prop :=
  exists n, getNode (ch_node ch) p = Some n /\ isParentNode n = true /\
            ch_headIndex ch <= length (childs n).

(** The store of a traversal: the parser satisfies its invariant and has a
    root, the store's version is the parser's, the pending chances are
    sound. *)
Definition storeOk (st : VisiterStore) : Prop :=
  wf (s_parser st) /\ rootOk (s_parser st) /\
  s_version st = p_version (s_parser st) /\
  Forall (chanceOk (s_parser st)) (restChances st).

(** The node a pending [visiter], [visiterNextNode] or ancestor loop stands
    at exists, so does the node [visiter] runs on after the loop, and the
    version of the loop is not ahead of the parser. *)
Definition controlOk (p : Parser) (c : Control) : Prop :=
  match c with
  | Visiter node => is_Some (getNode node p)
  | VisiterNextNode node _ => is_Some (getNode node p)
  | ResetParents node v next =>
      is_Some (getNode node p) /\ (v <= p_version p)%N /\ is_Some (getNode next p)
  | _ => True
  end.

Definition configOk {V} (cfg : Config V) : Prop :=
  storeOk (store cfg) /\ controlOk (s_parser (store cfg)) (control cfg).

(** What one call of the machine guarantees from a sound store: the next
    configuration is sound, the parser has only grown, and a throw is a build
    error or one the callbacks are allowed. *)
Definition stepOk {V} (allowed : string -> Prop) (st : VisiterStore) (cfg' : Config V)
    : Prop :=
  configOk cfg' /\ grows (s_parser st) (s_parser (store cfg')) /\
  forall msg, control cfg' = Thrown msg -> buildError msg \/ allowed msg.

(** What a top-level action guarantees from a sound parser: when it returns,
    the parser is sound again and has only grown, and the value satisfies
    [Q]; when it throws, the error is a build error. *)
Definition effOk {A} (p : Parser) (res : option (Res (A * Parser)))
    (Q : A -> Parser -> Prop) : Prop :=
  match res with
  | Some (Ok (a, p')) => wf p' /\ rootOk p' /\ grows p p' /\ matchStable p p' /\ Q a p'
  | Some (Throw msg) => buildError msg
  | None => True
  end.

(** The nodes the callbacks of [createParser] have recorded are nodes of the
    store. *)
Definition varsOk (p : Parser) (v : ParseVars) : Prop :=
  (forall r, r ∈ cursorPrevNodes v -> is_Some (getNode r p)) /\
  (forall l, lastMatchUnderShortestRestToken v = Some l ->
             is_Some (getNode (lm_matchNode l) p)).

(** Every memoized parser is sound and has a root. *)
Definition mapOk (parserMap : gmap string Parser) : Prop :=
  forall root p, parserMap !! root = Some p -> wf p /\ rootOk p.


(** * Properties *)

(** ** The object store *)

Lemma getNode_putNode_eq r n n' p :
  getNode r p = Some n -> getNode r (putNode r n' p) = Some n'.
Proof.
  unfold getNode, putNode. simpl. intros H.
  apply list_lookup_insert_eq. by eapply lookup_lt_Some.
Qed.

Lemma getNode_putNode_ne r r' n' p :
  r <> r' -> getNode r' (putNode r n' p) = getNode r' p.
Proof.
  unfold getNode, putNode. simpl. intros H. by apply list_lookup_insert_ne.
Qed.


(** ** C7: the left-recursion rewrite *)


(** ** C4: lazy reset by version *)





Section LazyReset.

Context {V : Type} (g : Grammar) (o : VisiterOption V).


End LazyReset.


(** ** C5: propagation of a published FIRST set *)

(** [solveFirstSet] touches the tables of the rule it is called for and of no
    other rule. *)
Lemma solveFirstSet_other_rules functionName other p p' :
  solveFirstSet functionName p = Ok (tt, p') ->
  other <> functionName ->
  firstSet p' !! other = firstSet p !! other /\
  firstOrFunctionSet p' !! other = firstOrFunctionSet p !! other.
Proof.
  unfold solveFirstSet. intros H Hne.
  assert (Hfold : forall (l : list string) (q : Parser),
             foldl (fun (q0 : Parser) (_ : string) => q0) q l = q).
  { induction l; simpl; auto. }
  case_bool_decide; [by inversion H|].
  destruct (firstOrFunctionSet p !! functionName) as [[l|]|]; try discriminate.
  destruct (forallb _ _).
  - destruct (relatedSet _ !! functionName) as [names|];
      inversion H; subst; clear H; rewrite ?Hfold; simpl;
      by rewrite !lookup_insert_ne.
  - inversion H; subst; simpl. by rewrite lookup_insert_ne.
Qed.

(** C5.  Publishing a FIRST set does not re-resolve the rules related to it.
    Rule [A] begins with a reference to rule [B].  Parsing [x y] expands [A] first, which records [A] as
    related to [B] and leaves the placeholder [B] in the candidates of [A];
    then [B] is expanded and its FIRST set, the terminal [x], is published.
    The loop over the names related to [B] calls nothing: after the parse the
    candidates of [A] still hold the placeholder and [A] has no FIRST set. *)
Theorem related_rules_not_resolved :
  let out := createParser Demo.nested "root" Demo.lexer ∅ "x y" 0 100 in
  exists result p,
    resultOf out = Some result /\
    parserOf "root" out = Some p /\
    r_success result = true /\
    firstSet p !! "B" = Some [6] /\
    matchingOf p 6 = Some (mkMatching TString (VString "x")) /\
    relatedSet p !! "B" = Some ["A"] /\
    firstOrFunctionSet p !! "A" = Some (Some [FName "B"]) /\
    firstSet p !! "A" = None.
Proof.
  intros out. eexists _, _.
  split; [vm_compute; reflexivity|].
  split; [vm_compute; reflexivity|].
  repeat split; vm_compute; reflexivity.
Qed.

(** ** The loop over the ancestors *)

Lemma ancestorAt_add p i j r :
  ancestorAt p (i + j) r = ancestorAt p i r ≫= ancestorAt p j.
Proof.
  revert r. induction i as [|i IH]; intros r; simpl; [done|].
  destruct (getNode r p) as [n|]; simpl; [|done].
  destruct (parentNode n) as [parent|]; simpl; [|done]. apply IH.
Qed.

Lemma ancestorAt_putNode a an an' p i r :
  getNode a p = Some an -> parentNode an' = parentNode an ->
  ancestorAt (putNode a an' p) i r = ancestorAt p i r.
Proof.
  intros Ha Hp. revert r. induction i as [|i IH]; intros r; simpl; [done|].
  destruct (decide (a = r)) as [->|Hne].
  - rewrite (getNode_putNode_eq _ _ _ _ Ha), Ha. simpl. rewrite Hp.
    destruct (parentNode an); simpl; [apply IH|done].
  - rewrite (getNode_putNode_ne _ _ _ _ Hne).
    destruct (getNode r p) as [n|]; simpl; [|done].
    destruct (parentNode n); simpl; [apply IH|done].
Qed.

(** A chain of parents that ends in a node without parent passes through no
    node twice. *)
Lemma ancestorAt_acyclic p m x root rn :
  ancestorAt p m x = Some root -> getNode root p = Some rn -> parentNode rn = None ->
  forall i, 1 <= i -> ancestorAt p i x <> Some x.
Proof.
  intros Hm Hroot Hnone i Hi Hcycle.
  pose proof (ancestorAt_add p i m x) as H1. rewrite Hcycle in H1. simpl in H1.
  pose proof (ancestorAt_add p m i x) as H2. rewrite Hm in H2. simpl in H2.
  rewrite Nat.add_comm, H1, Hm in H2.
  destruct i as [|i]; [lia|]. simpl in H2. rewrite Hroot in H2. simpl in H2.
  rewrite Hnone in H2. discriminate.
Qed.

Lemma withVersion_withHeadIndex_parentNode h v n :
  parentNode (withVersion v (withHeadIndex h n)) = parentNode n.
Proof. by destruct n. Qed.

Lemma withVersion_withHeadIndex_parentIndex h v n :
  parentIndex (withVersion v (withHeadIndex h n)) = parentIndex n.
Proof. by destruct n. Qed.

Section Loop.

Context {V : Type} (g : Grammar) (o : VisiterOption V).
Variables (v : N) (next : NodeRef).

(** The three ways one turn of the loop can go. *)
Lemma resetParents_turn node st (vars : V) :
  let p := s_parser st in
  let cfg' := resetParentsHeadIndexAndVersion node v next st vars in
  (exists n, getNode node p = Some n /\ parentNode n = None /\
             cfg' = mkConfig (Visiter next) st vars) \/
  (exists n parent pn,
      getNode node p = Some n /\ parentNode n = Some parent /\
      getNode parent p = Some pn /\ isParentNode pn = true /\
      cfg' = mkConfig (ResetParents parent v next)
               (withParser
                  (putNode parent
                     (withVersion v
                        (withHeadIndex (Nat.min (parentIndex n + 1) (length (childs pn)))
                           pn)) p) st) vars) \/
  (exists msg, control cfg' = Thrown msg).
Proof.
  cbv zeta. unfold resetParentsHeadIndexAndVersion.
  destruct (getNode node (s_parser st)) as [n|] eqn:Hn; [|right; right; eauto].
  destruct (parentNode n) as [parent|] eqn:Hp; [|left; eauto].
  destruct (getNode parent (s_parser st)) as [[m|f|t|c]|] eqn:Hpn;
    try (right; right; eauto; fail);
    right; left; eexists _, _, _; repeat split; eauto.
Qed.

(** What the loop has done when it hands over to [visiter(next)] after [k]
    turns: the chain of parents ended in a root; only the parser changed;
    nodes that are no ancestor are untouched; every ancestor is its former
    self with a new [headIndex] and [version]. *)
Lemma resetParents_loop k : forall node st (vars : V),
  (forall j, j < k -> inResetLoop (steps g o j (loopStart v next node st vars)) = true) ->
  control (steps g o k (loopStart v next node st vars)) = Visiter next ->
  let p := s_parser st in
  let cfg' := steps g o k (loopStart v next node st vars) in
  (exists root rn, 1 <= k /\ ancestorAt p (k - 1) node = Some root /\
                   getNode root p = Some rn /\ parentNode rn = None) /\
  (restChances (store cfg') = restChances st /\ scanner (store cfg') = scanner st /\
   s_version (store cfg') = s_version st /\ closure cfg' = vars) /\
  (forall r, (forall i, 1 <= i -> ancestorAt p i node <> Some r) ->
             getNode r (s_parser (store cfg')) = getNode r p) /\
  (forall i child parent cn pn,
      ancestorAt p i node = Some child ->
      getNode child p = Some cn -> parentNode cn = Some parent ->
      getNode parent p = Some pn ->
      isParentNode pn = true /\
      getNode parent (s_parser (store cfg')) =
        Some (withVersion v
                (withHeadIndex (Nat.min (parentIndex cn + 1) (length (childs pn))) pn))).
Proof.
  induction k as [|k IH]; intros node st vars Hloop Hend; cbv zeta.
  { simpl in Hend. discriminate. }
  assert (Hs : forall j, steps g o (S j) (loopStart v next node st vars) =
                         steps g o j (resetParentsHeadIndexAndVersion node v next st vars))
    by reflexivity.
  rewrite Hs in Hend. rewrite !Hs.
  destruct (resetParents_turn node st vars) as
    [(n & Hn & Hnone & Hcfg)|[(n & parent & pn & Hn & Hpar & Hpn & Hkind & Hcfg)|(msg & Hmsg)]].
  - (* the node has no parent: the loop ends here *)
    rewrite Hcfg in Hend |- *.
    destruct k as [|k].
    2: { specialize (Hloop 1 ltac:(lia)). rewrite Hs, Hcfg in Hloop. discriminate. }
    simpl. split; [|split; [|split]].
    + exists node, n. simpl. auto.
    + auto.
    + auto.
    + intros i child parent cn pn Hi Hc Hp _.
      destruct i as [|i]; simpl in Hi.
      * injection Hi as <-. congruence.
      * rewrite Hn in Hi. simpl in Hi. rewrite Hnone in Hi. discriminate.
  - (* one ancestor stamped, the loop goes on from it *)
    rewrite Hcfg in Hend |- *.
    set (pn' := withVersion v
                  (withHeadIndex (Nat.min (parentIndex n + 1) (length (childs pn))) pn))
      in *.
    set (st1 := withParser (putNode parent pn' (s_parser st)) st) in *.
    assert (Hlinks : parentNode pn' = parentNode pn)
      by apply withVersion_withHeadIndex_parentNode.
    assert (Hanc : forall i r, ancestorAt (s_parser st1) i r = ancestorAt (s_parser st) i r).
    { intros. simpl. by eapply ancestorAt_putNode. }
    assert (Hloop1 : forall j, j < k ->
              inResetLoop (steps g o j (loopStart v next parent st1 vars)) = true).
    { intros j Hj. specialize (Hloop (S j) ltac:(lia)). by rewrite Hs, Hcfg in Hloop. }
    destruct (IH parent st1 vars Hloop1 Hend) as (HT & HF & H1 & H2).
    destruct HT as (root & rn1 & Hk & Hroot & Hrn1 & Hrnone).
    rewrite Hanc in Hroot.
    assert (Hrootp : exists rn, getNode root (s_parser st) = Some rn /\ parentNode rn = None).
    { simpl in Hrn1. destruct (decide (parent = root)) as [<-|Hne].
      - rewrite (getNode_putNode_eq _ _ _ _ Hpn) in Hrn1. injection Hrn1 as <-.
        exists pn. split; [done|]. by rewrite <- Hlinks.
      - rewrite (getNode_putNode_ne _ _ _ _ Hne) in Hrn1. eauto. }
    destruct Hrootp as (rn & Hrn & Hrnone').
    assert (Hacyc : forall i, 1 <= i -> ancestorAt (s_parser st) i parent <> Some parent).
    { eapply ancestorAt_acyclic; eauto. }
    assert (Hup : forall i, ancestorAt (s_parser st) (S i) node
                            = ancestorAt (s_parser st) i parent).
    { intros i. simpl. rewrite Hn. simpl. by rewrite Hpar. }
    split; [|split; [|split]].
    + exists root, rn. split; [lia|]. split; [|done].
      replace (S k - 1) with (S (k - 1)) by lia. by rewrite Hup.
    + done.
    + intros r Hr. rewrite H1.
      * simpl. apply getNode_putNode_ne. intros ->.
        apply (Hr 1 ltac:(lia)). by rewrite Hup.
      * intros i Hi. rewrite Hanc, <- Hup. apply Hr. lia.
    + intros i child a cn an Hi Hc Hp Ha.
      destruct i as [|i].
      * simpl in Hi. injection Hi as <-.
        rewrite Hn in Hc. injection Hc as <-. rewrite Hpar in Hp. injection Hp as <-.
        rewrite Hpn in Ha. injection Ha as <-.
        split; [done|]. rewrite H1.
        -- simpl. by apply getNode_putNode_eq with (n := pn).
        -- intros i Hi. rewrite Hanc. by apply Hacyc.
      * rewrite Hup in Hi.
        assert (Hane : parent <> a).
        { intros <-. apply (Hacyc (S i) ltac:(lia)).
          replace (S i) with (i + 1) by lia. rewrite ancestorAt_add, Hi. simpl.
          rewrite Hc. simpl. by rewrite Hp. }
        assert (Hc1 : exists cn1, getNode child (s_parser st1) = Some cn1 /\
                                  parentNode cn1 = Some a /\
                                  parentIndex cn1 = parentIndex cn).
        { simpl. destruct (decide (parent = child)) as [<-|Hne].
          - rewrite (getNode_putNode_eq _ _ _ _ Hpn). exists pn'.
            rewrite Hpn in Hc. injection Hc as <-.
            split; [done|]. split; [by rewrite Hlinks|].
            apply withVersion_withHeadIndex_parentIndex.
          - rewrite (getNode_putNode_ne _ _ _ _ Hne). eauto. }
        destruct Hc1 as (cn1 & Hcn1 & Hp1 & Hidx).
        rewrite <- Hidx. apply (H2 i child a cn1 an).
        -- by rewrite Hanc.
        -- done.
        -- done.
        -- simpl. by rewrite (getNode_putNode_ne _ _ _ _ Hane).
  - (* a throw ends the run: [visiter(next)] is never reached *)
    exfalso.
    assert (Hstuck : forall j c, isThrown c = true -> steps g o j c = c).
    { induction j as [|j IHj]; intros c Hc; simpl; [done|].
      assert (step g o c = c) as ->; [|by apply IHj].
      unfold step. unfold isThrown in Hc. by destruct (control c). }
    rewrite Hstuck in Hend.
    + rewrite Hmsg in Hend. discriminate.
    + unfold isThrown. by rewrite Hmsg.
Qed.

End Loop.

(** ** C9: what the loop does to the ancestors *)



(** ** C3: popping a chance *)

Lemma pop_push {A} (x : A) (l : list A) : pop (push x l) = Some (x, l).
Proof. unfold pop, push. by rewrite reverse_snoc, reverse_involutive. Qed.

(** C3.  When [tryChances] finds the chance stack non-empty it pops the
    chance pushed last, and right after its assignments the scanner index is
    the chance's [tokenIndex], the chance's node has the chance's [headIndex]
    (and the new version), and the rest of the stack is what was below.  The
    loop over the ancestors changes none of this: it still holds when
    [visiter] is entered on the chance's node. *)
Theorem tryChances_restores_latest_chance {V : Type} (g : Grammar) (o : VisiterOption V)
    (node : NodeRef) (st : VisiterStore) (vars : V) (rest : list IChance) (c : IChance)
    (n : Node) :
  restChances st = push c rest ->
  getNode (ch_node c) (s_parser st) = Some n ->
  isParentNode n = true ->
  let v := (p_version (s_parser st) + 1)%N in
  let cfg := tryChances o node st vars in
  let restored (cfg' : Config V) :=
    restChances (store cfg') = rest /\
    Scan.getIndex (scanner (store cfg')) = ch_tokenIndex c /\
    exists n', getNode (ch_node c) (s_parser (store cfg')) = Some n' /\
               headIndex n' = Some (ch_headIndex c) /\ version n' = Some v in
  cfg = loopStart v (ch_node c) (ch_node c) (store cfg) vars /\
  s_version (store cfg) = v /\
  restored cfg /\
  forall k, (forall j, j < k -> inResetLoop (steps g o j cfg) = true) ->
            control (steps g o k cfg) = Visiter (ch_node c) ->
            restored (steps g o k cfg).
Proof.
  intros Hstack Hn Hkind v cfg restored.
  assert (Hcfg : cfg = loopStart v (ch_node c) (ch_node c)
                         (withParser
                            (putNode (ch_node c)
                               (withVersion v (withHeadIndex (ch_headIndex c) n))
                               (snd (getNewVersion (s_parser st))))
                            (withScanner (Scan.setIndex (ch_tokenIndex c) (scanner st))
                               (withRestChances rest
                                  (withStoreVersion v
                                     (withParser (snd (getNewVersion (s_parser st))) st)))))
                         vars).
  { subst cfg. unfold tryChances. simpl. rewrite Hstack, pop_push.
    unfold getNode in *. simpl. rewrite Hn. unfold modifyNode, getNode. simpl.
    by rewrite Hn. }
  assert (Hnow : restored cfg).
  { rewrite Hcfg. unfold restored. simpl. split; [done|]. split; [done|].
    eexists. split.
    - apply getNode_putNode_eq with (n := n). exact Hn.
    - destruct n; simpl in Hkind; try discriminate; auto. }
  split; [by rewrite Hcfg|]. split; [by rewrite Hcfg|]. split; [exact Hnow|].
  intros k Hloop Hend. rewrite Hcfg in Hloop, Hend |- *.
  destruct (resetParents_loop g o v (ch_node c) k _ _ _ Hloop Hend)
    as ((root & rn & Hk & Hroot & Hrn & Hnone) & (HF1 & HF2 & _ & _) & H1 & _).
  rewrite Hcfg in Hnow. destruct Hnow as (Hr & Hs & n' & Hn' & Hh & Hv).
  unfold restored. rewrite HF1, HF2. split; [exact Hr|]. split; [exact Hs|].
  exists n'. split; [|done]. rewrite H1; [exact Hn'|].
  eapply ancestorAt_acyclic; eauto.
Qed.

(** The first backtrack of the example grammar on [a & b]: two chances are on
    the stack, the one of the operator choice was pushed last. *)
Lemma tryChances_restores_latest_chance_witness :
  let g := Demo.arith in
  let o := parseOption (Demo.lexer "a & b") 0 in
  let st := store (Demo.traversal g "a & b" 12) in
  let vars := closure (Demo.traversal g "a & b" 12) in
  let c := mkChance 2 1 1 in
  let rest := [mkChance 7 1 0] in
  let cfg := tryChances o 3 st vars in
  let restored (cfg' : Config ParseVars) :=
    restChances (store cfg') = rest /\
    Scan.getIndex (scanner (store cfg')) = 1 /\
    exists n', getNode 2 (s_parser (store cfg')) = Some n' /\
               headIndex n' = Some 1 /\ version n' = Some 2%N in
  cfg = loopStart 2%N 2 2 (store cfg) vars /\
  s_version (store cfg) = 2%N /\
  restored cfg /\
  forall k, (forall j, j < k -> inResetLoop (steps g o j cfg) = true) ->
            control (steps g o k cfg) = Visiter 2 ->
            restored (steps g o k cfg).
Proof.
  intros g o st vars c rest cfg restored.
  apply (tryChances_restores_latest_chance g o 3 st vars rest c
           (NTree (mkTreeNode (Some 0) [Some 3; Some 4] 1 (Some 1%N) 1))).
  - vm_compute; reflexivity.
  - vm_compute; reflexivity.
  - reflexivity.
Defined.

(** ** Match nodes are immutable *)

Lemma matchStable_refl p : matchStable p p.
Proof. by intros r m. Qed.

Lemma matchStable_trans p1 p2 p3 :
  matchStable p1 p2 -> matchStable p2 p3 -> matchStable p1 p3.
Proof. intros H1 H2 r m Hr. by apply H2, H1. Qed.

Lemma matchStable_nodes p p' : nodes p' = nodes p -> matchStable p p'.
Proof. intros H r m. unfold getNode. by rewrite H. Qed.

Lemma putNode_stable r n n' p :
  getNode r p = Some n -> (forall m, n <> NMatch m) -> matchStable p (putNode r n' p).
Proof.
  intros Hn Hk r' m Hr'. destruct (decide (r = r')) as [<-|Hne].
  - rewrite Hn in Hr'. injection Hr' as ->. by destruct (Hk m).
  - by rewrite getNode_putNode_ne.
Qed.

Lemma modifyNode_stable r f p :
  (forall m, f (NMatch m) = NMatch m) -> matchStable p (modifyNode r f p).
Proof.
  intros Hf r' m Hr'. unfold modifyNode.
  destruct (getNode r p) as [n|] eqn:Hn; [|done].
  destruct (decide (r = r')) as [<-|Hne].
  - rewrite Hn in Hr'. injection Hr' as ->. rewrite Hf.
    by apply getNode_putNode_eq with (n := NMatch m).
  - by rewrite getNode_putNode_ne.
Qed.

Lemma not_budget_literal msg :
  msg <> "call visiter more then 10000000" -> msg <> "call parent more then10000000" ->
  ~ budgetError msg.
Proof. intros H1 H2 [H|H]; contradiction. Qed.

Ltac not_budget := simplify_eq; apply not_budget_literal; discriminate.

Lemma buildOk_ret {A} (a : A) : buildOk (ret a).
Proof. intros p. apply matchStable_refl. Qed.

Lemma buildOk_bind {A B} (m : Build A) (k : A -> Build B) :
  buildOk m -> (forall a, buildOk (k a)) -> buildOk (bind m k).
Proof.
  intros Hm Hk p. unfold bind. specialize (Hm p).
  destruct (m p) as [[a p1]|msg]; [|done].
  specialize (Hk a p1). destruct (k a p1) as [[b p2]|msg]; [|done].
  by eapply matchStable_trans.
Qed.

Lemma buildOk_alloc n : buildOk (alloc n).
Proof.
  intros p r m Hr. unfold getNode in *. simpl.
  rewrite lookup_app_l; [done|]. by eapply lookup_lt_Some.
Qed.

Lemma buildOk_setChilds r cs : buildOk (setChilds r cs).
Proof. intros p. by apply modifyNode_stable. Qed.

Lemma buildOk_setIsPlus r : buildOk (setIsPlus r).
Proof. intros p. by apply modifyNode_stable. Qed.

Lemma buildOk_createNodeByElement : forall element parent parentIdx,
  buildOk (createNodeByElement element parent parentIdx).
Proof.
  fix IH 1. intros element parent parentIdx.
  assert (Hmap : forall es owner i,
             (fix all (l : list Element) : Prop :=
                match l with
                | [] => True
                | e :: l' => (forall parent idx, buildOk (createNodeByElement e parent idx))
                             /\ all l'
                end) es ->
             buildOk
               ((fix mapElements (es : list Element) (owner : NodeRef) (i : nat)
                   : Build (list NodeRef) :=
                   match es with
                   | [] => ret []
                   | e :: es' =>
                       c <- createNodeByElement e (Some owner) i ;;
                       cs <- mapElements es' owner (S i) ;;
                       ret (c :: cs)
                   end) es owner i)).
  { induction es as [|e es IHes]; intros owner i Hall.
    - apply buildOk_ret.
    - destruct Hall as [He Hes]. apply buildOk_bind; [apply He|]. intros c.
      apply buildOk_bind; [by apply IHes|]. intros cs. apply buildOk_ret. }
  destruct element as [s|b|name displayName fn|es solveAst isPlus|name|es|].
  - apply buildOk_alloc.
  - destruct b; apply buildOk_alloc.
  - apply buildOk_alloc.
  - simpl. apply buildOk_bind; [apply buildOk_alloc|]. intros chainNode.
    apply buildOk_bind.
    + apply Hmap. unfold solveDirectLeftRecursion.
      revert es. fix IHl 1. intros [|e es]; [exact I|]. split; [apply IH|apply IHl].
    + intros cs. apply buildOk_bind; [apply buildOk_setChilds|]. intros _.
      apply buildOk_bind; [destruct isPlus; [apply buildOk_setIsPlus|apply buildOk_ret]|].
      intros _. apply buildOk_ret.
  - apply buildOk_alloc.
  - simpl. apply buildOk_bind; [apply buildOk_alloc|]. intros treeNode.
    apply buildOk_bind.
    + apply Hmap.
      revert es. fix IHl 1. intros [|e es]; [exact I|]. split; [apply IH|apply IHl].
    + intros cs. apply buildOk_bind; [apply buildOk_setChilds|]. intros _.
      apply buildOk_ret.
  - intros p. simpl. not_budget.
Qed.

Lemma buildOk_getFirstOrFunctionSet depth : forall node functionName,
  buildOk (getFirstOrFunctionSet depth node functionName).
Proof.
  induction depth as [|depth IH]; intros node functionName p; simpl; [not_budget|].
  destruct (getNode node p) as [[m|f|t|c]|]; try apply matchStable_refl; try not_budget.
  - by apply matchStable_nodes.
  - generalize (@nil FirstOrFunctionSet). revert p.
    induction (tn_childs t) as [|[child|] cs IHcs]; intros p all.
    + apply matchStable_refl.
    + apply (buildOk_bind (getFirstOrFunctionSet depth child functionName)); [apply IH|].
      intros r q. apply IHcs.
    + apply IHcs.
  - destruct (mjoin (cn_childs c !! 0)); [apply IH|apply matchStable_refl].
Qed.

Lemma buildOk_solveFirstSet functionName : buildOk (solveFirstSet functionName).
Proof.
  intros p. unfold solveFirstSet.
  assert (Hfold : forall (l : list string) (q : Parser),
             foldl (fun (q0 : Parser) (_ : string) => q0) q l = q).
  { induction l; simpl; auto. }
  repeat case_match; simplify_eq; try not_budget; rewrite ?Hfold;
    by apply matchStable_nodes.
Qed.

Lemma buildOk_generateFirstSet node functionName :
  buildOk (generateFirstSet node functionName).
Proof.
  intros p. unfold generateFirstSet. case_bool_decide; [apply matchStable_refl|].
  apply (buildOk_bind (getFirstOrFunctionSet _ _ _)); [apply buildOk_getFirstOrFunctionSet|].
  intros r. apply (buildOk_bind (fun q => Ok (tt, setFirstOrFunctionSet _ q))).
  - intros q. by apply matchStable_nodes.
  - intros _. apply buildOk_solveFirstSet.
Qed.

Lemma buildOk_chainNodeFactory elements solveAst parent functionName parentIdx :
  buildOk (chainNodeFactory elements solveAst parent functionName parentIdx).
Proof.
  unfold chainNodeFactory. apply buildOk_bind; [apply buildOk_alloc|]. intros chainNode.
  apply buildOk_bind.
  - generalize 0. induction (solveDirectLeftRecursion elements functionName) as [|e es IHes];
      intros i.
    + apply buildOk_ret.
    + apply buildOk_bind; [apply buildOk_createNodeByElement|]. intros c.
      apply buildOk_bind; [apply IHes|]. intros cs. apply buildOk_ret.
  - intros cs. apply buildOk_bind; [apply buildOk_setChilds|]. intros _.
    apply buildOk_bind.
    + destruct (truthyName functionName); [apply buildOk_generateFirstSet|apply buildOk_ret].
    + intros _. apply buildOk_ret.
Qed.

Lemma buildOk_runFunctionNode g f : buildOk (runFunctionNode g f).
Proof.
  unfold runFunctionNode. destruct (g (fn_chainFunction f)) as [elements solveAst].
  apply buildOk_chainNodeFactory.
Qed.

Lemma someFirstMatch_throw l p sc msg :
  someFirstMatch l p sc = Throw msg -> ~ budgetError msg.
Proof.
  revert sc. induction l as [|r l IH]; intros sc; simpl; [discriminate|].
  destruct (getNode r p) as [[m|f|t|c]|]; try (intros [= <-]; not_budget).
  destruct (mn_matchFunction m sc false) as [res sc'].
  destruct (matched res); [discriminate|apply IH].
Qed.

(** ** One step of the machine: match nodes and throws *)

Section StepStable.

Context {V : Type} (g : Grammar) (o : VisiterOption V).

(** The callbacks are assumed to leave the graph alone and to throw, if at
    all, something else than the guard's errors, unless they are the guard. *)
Hypothesis onMatchNode_parser : forall r m st vars,
  s_parser (store (onMatchNode o r m st vars)) = s_parser st.

Lemma stable_tryChances node st (vars : V) :
  matchStable (s_parser st) (s_parser (store (tryChances o node st vars))).
Proof.
  unfold tryChances. simpl.
  destruct (pop (restChances st)) as [[c rest]|]; simpl; [|by apply matchStable_nodes].
  destruct (nodes (s_parser st) !! ch_node c) eqn:Hn.
  - unfold getNode. simpl. rewrite Hn. simpl.
    eapply matchStable_trans; [|apply modifyNode_stable; by intros m].
    by apply matchStable_nodes.
  - unfold getNode. simpl. rewrite Hn. simpl. by apply matchStable_nodes.
Qed.

Lemma stable_resetParents node v next st (vars : V) :
  matchStable (s_parser st)
    (s_parser (store (resetParentsHeadIndexAndVersion node v next st vars))).
Proof.
  unfold resetParentsHeadIndexAndVersion.
  destruct (getNode node (s_parser st)) as [n|]; [|apply matchStable_refl].
  destruct (parentNode n) as [parent|]; [|apply matchStable_refl].
  destruct (getNode parent (s_parser st)) as [[m|f|t|c]|] eqn:Hp;
    try apply matchStable_refl; simpl; by eapply putNode_stable.
Qed.

Lemma stable_visiterNextNode node a st (vars : V) :
  matchStable (s_parser st) (s_parser (store (visiterNextNode o node a st vars))).
Proof.
  unfold visiterNextNode.
  destruct (callIfPresent _ _); [|apply matchStable_refl].
  destruct (getNode node (s_parser st)) as [n|]; [|apply matchStable_refl].
  destruct (parentNode n) as [parent|].
  - destruct (getNode parent (s_parser st)) as [[m|f|t|c]|] eqn:Hp;
      try apply matchStable_refl.
    destruct (_ && _); simpl; by eapply putNode_stable.
  - repeat case_match; apply matchStable_refl.
Qed.

Lemma stable_visiterChain node c0 c st (vars : V) :
  getNode node (s_parser st) = Some (NChain c0) ->
  matchStable (s_parser st) (s_parser (store (visiterChain o node c st vars))).
Proof.
  intros Hn. unfold visiterChain.
  repeat case_match; simpl; try apply matchStable_refl; by eapply putNode_stable.
Qed.

Lemma stable_visiterTree node t0 t i st (vars : V) :
  getNode node (s_parser st) = Some (NTree t0) ->
  matchStable (s_parser st) (s_parser (store (visiterTree node t i st vars))).
Proof.
  intros Hn. unfold visiterTree.
  repeat case_match; simpl; try apply matchStable_refl; by eapply putNode_stable.
Qed.

Lemma stable_visiterFunction f st (vars : V) :
  matchStable (s_parser st) (s_parser (store (visiterFunction g f st vars))).
Proof.
  unfold visiterFunction. pose proof (buildOk_runFunctionNode g f (s_parser st)) as Hb.
  destruct (runFunctionNode g f (s_parser st)) as [[replaced p]|]; [|apply matchStable_refl].
  destruct (fn_parentNode f) as [parent|]; simpl; [|done].
  destruct (getNode parent p) as [[m|f'|t|c]|] eqn:Hp; simpl; try done;
    (eapply matchStable_trans; [exact Hb|by eapply putNode_stable]).
Qed.

Lemma stable_visiter node st (vars : V) :
  matchStable (s_parser st) (s_parser (store (visiter g o node st vars))).
Proof.
  unfold visiter.
  destruct (getNode node (s_parser st)) as [n|] eqn:Hn; [|apply matchStable_refl].
  destruct (callIfPresent _ _) as [vars1|]; [|apply matchStable_refl].
  destruct n as [m|f|t|c].
  - rewrite onMatchNode_parser. apply matchStable_refl.
  - apply stable_visiterFunction.
  - destruct (resetHeadByVersion (NTree t) (s_version st)) as [| |t'|];
      try apply matchStable_refl.
    eapply matchStable_trans; [by eapply (putNode_stable node (NTree t) (NTree t'))|].
    apply (stable_visiterTree node t' t' _
             (withParser (putNode node (NTree t') (s_parser st)) st)).
    simpl. by eapply getNode_putNode_eq.
  - destruct (resetHeadByVersion (NChain c) (s_version st)) as [| | |c'];
      try apply matchStable_refl.
    eapply matchStable_trans; [by eapply (putNode_stable node (NChain c) (NChain c'))|].
    apply (stable_visiterChain node c' c'
             (withParser (putNode node (NChain c') (s_parser st)) st)).
    simpl. by eapply getNode_putNode_eq.
Qed.

Lemma stable_step (cfg : Config V) :
  matchStable (s_parser (store cfg)) (s_parser (store (step g o cfg))).
Proof.
  unfold step. destruct (control cfg); try apply matchStable_refl.
  - apply stable_visiter.
  - apply stable_visiterNextNode.
  - apply stable_tryChances.
  - apply stable_resetParents.
Qed.

Lemma stable_steps k (cfg : Config V) :
  matchStable (s_parser (store cfg)) (s_parser (store (steps g o k cfg))).
Proof.
  revert cfg. induction k as [|k IH]; intros cfg; [apply matchStable_refl|].
  simpl. eapply matchStable_trans; [apply stable_step|apply IH].
Qed.

End StepStable.

(** ** The callbacks of the main traversal *)

Lemma onCallVisiter_ok v v1 :
  ParseOption.onCallVisiter v = Ok v1 ->
  v1 = mkVars (success v) (ast v) (callVisiterCount v + 1) (callParentCount v)
         (lastMatchUnderShortestRestToken v) (cursorPrevNodes v) /\
  (callVisiterCount v + 1 <= MAX_VISITER_CALL)%N.
Proof.
  unfold ParseOption.onCallVisiter.
  destruct (MAX_VISITER_CALL <? callVisiterCount v + 1)%N eqn:E; [discriminate|].
  intros [= <-]. split; [done|]. by apply N.ltb_ge.
Qed.

Lemma onCallVisiter_throw v msg :
  ParseOption.onCallVisiter v = Throw msg ->
  msg = "call visiter more then 10000000" /\
  (MAX_VISITER_CALL < callVisiterCount v + 1)%N.
Proof.
  unfold ParseOption.onCallVisiter.
  destruct (MAX_VISITER_CALL <? callVisiterCount v + 1)%N eqn:E; [|discriminate].
  intros [= <-]. split; [done|]. by apply N.ltb_lt.
Qed.

Lemma onVisiterNextNode_ok v v1 :
  ParseOption.onVisiterNextNode v = Ok v1 ->
  v1 = mkVars (success v) (ast v) (callVisiterCount v) (callParentCount v + 1)
         (lastMatchUnderShortestRestToken v) (cursorPrevNodes v) /\
  (callParentCount v + 1 <= MAX_VISITER_CALL)%N.
Proof.
  unfold ParseOption.onVisiterNextNode.
  destruct (MAX_VISITER_CALL <? callParentCount v + 1)%N eqn:E; [discriminate|].
  intros [= <-]. split; [done|]. by apply N.ltb_ge.
Qed.

Lemma onVisiterNextNode_throw v msg :
  ParseOption.onVisiterNextNode v = Throw msg ->
  msg = "call parent more then10000000" /\
  (MAX_VISITER_CALL < callParentCount v + 1)%N.
Proof.
  unfold ParseOption.onVisiterNextNode.
  destruct (MAX_VISITER_CALL <? callParentCount v + 1)%N eqn:E; [|discriminate].
  intros [= <-]. split; [done|]. by apply N.ltb_lt.
Qed.

Lemma onSuccess_ok p v v1 :
  ParseOption.onSuccess p v = Ok v1 ->
  success v1 = true /\ callVisiterCount v1 = callVisiterCount v /\
  callParentCount v1 = callParentCount v /\
  lastMatchUnderShortestRestToken v1 = lastMatchUnderShortestRestToken v /\
  cursorPrevNodes v1 = cursorPrevNodes v.
Proof.
  unfold ParseOption.onSuccess. repeat case_match; intros [= <-]; auto.
Qed.

Section ParseClosure.
Variables (g : Grammar) (t : option IToken).
Let o := ParseOption.option_ t.

Lemma closure_visiterChain {V} (o' : VisiterOption V) node c st (vars : V) :
  closure (visiterChain o' node c st vars) = vars.
Proof.
  unfold visiterChain. repeat case_match; reflexivity.
Qed.

Lemma closure_visiterTree {V} node tr i st (vars : V) :
  closure (visiterTree node tr i st vars) = vars.
Proof.
  unfold visiterTree. repeat case_match; reflexivity.
Qed.

Lemma closure_visiterFunction {V} f st (vars : V) :
  closure (visiterFunction g f st vars) = vars.
Proof.
  unfold visiterFunction. repeat case_match; reflexivity.
Qed.

Lemma closure_resetParents {V} node v next st (vars : V) :
  closure (resetParentsHeadIndexAndVersion node v next st vars) = vars.
Proof.
  unfold resetParentsHeadIndexAndVersion. repeat case_match; reflexivity.
Qed.

Lemma step_success cfg :
  success (closure cfg) = false ->
  success (closure (step g o cfg)) = true ->
  rootAscentAtEnd cfg /\ control (step g o cfg) = Returned /\
  scanner (store (step g o cfg)) = scanner (store cfg).
Proof.
  destruct cfg as [ctl st vars]. simpl. intros Hf.
  unfold step. simpl. destruct ctl as [node|node a|node|node v next| |msg]; simpl.
  - unfold visiter. destruct (getNode node (s_parser st)) as [n|]; simpl; [|congruence].
    unfold callIfPresent, o. simpl.
    destruct (ParseOption.onCallVisiter vars) as [vars1|msg] eqn:Hc; simpl; [|congruence].
    apply onCallVisiter_ok in Hc as [-> _].
    destruct n as [m|f|tr|c].
    + unfold ParseOption.onMatchNode. simpl. repeat case_match; simpl; congruence.
    + rewrite closure_visiterFunction. simpl. congruence.
    + case_match; simpl; try congruence. rewrite closure_visiterTree. simpl. congruence.
    + case_match; simpl; try congruence. rewrite closure_visiterChain. simpl. congruence.
  - unfold visiterNextNode, callIfPresent, o. simpl.
    destruct (ParseOption.onVisiterNextNode vars) as [vars1|msg] eqn:Hc; simpl;
      [|congruence].
    apply onVisiterNextNode_ok in Hc as [-> _].
    destruct (getNode node (s_parser st)) as [n|] eqn:Hn; simpl; [|congruence].
    destruct (parentNode n) as [parent|] eqn:Hp.
    + repeat case_match; simpl; congruence.
    + destruct (Scan.isEnd (scanner st)) eqn:He; simpl; [|congruence].
      destruct (ParseOption.onSuccess _ _) eqn:Hs; simpl; [|congruence].
      intros _. split; [|done]. exists node, a, n. simpl. auto.
  - unfold tryChances. simpl. repeat case_match; simpl; try congruence.
  - rewrite closure_resetParents. congruence.
  - congruence.
  - congruence.
Qed.
End ParseClosure.

Section Runs.
Context {V : Type} (g : Grammar) (o : VisiterOption V).

Lemma step_halted (cfg : Config V) : halted cfg = true -> step g o cfg = cfg.
Proof. unfold halted, step. by destruct (control cfg). Qed.

Lemma steps_halted k (cfg : Config V) : halted cfg = true -> steps g o k cfg = cfg.
Proof.
  induction k as [|k IH]; simpl; [done|]. intros H. rewrite step_halted by done. by apply IH.
Qed.

Lemma steps_S k (cfg : Config V) : steps g o (S k) cfg = step g o (steps g o k cfg).
Proof. revert cfg. induction k as [|k IH]; intros cfg; [done|]. simpl. by rewrite <- IH. Qed.

Lemma halted_steps_mono j k (cfg : Config V) :
  j <= k -> halted (steps g o j cfg) = true -> steps g o k cfg = steps g o j cfg.
Proof.
  intros Hle Hh. replace k with (j + (k - j)) by lia.
  generalize (k - j). intros d. induction d as [|d IH].
  - by rewrite Nat.add_0_r.
  - rewrite Nat.add_succ_r, steps_S, IH. by apply step_halted.
Qed.

(** A run that returns a configuration took some number of steps, none of
    them from a halted configuration. *)
Lemma run_steps fuel : forall (cfg cfg' : Config V),
  run g o fuel cfg = Some cfg' ->
  exists k, steps g o k cfg = cfg' /\ halted cfg' = true /\
            forall j, j < k -> halted (steps g o j cfg) = false.
Proof.
  induction fuel as [|fuel IH]; intros cfg cfg'; simpl.
  - destruct (halted cfg) eqn:Hh; [|discriminate]. intros [= <-].
    exists 0. split; [done|]. split; [done|]. intros j Hj; lia.
  - destruct (halted cfg) eqn:Hh.
    + intros [= <-]. exists 0. split; [done|]. split; [done|]. intros j Hj; lia.
    + intros Hrun. destruct (IH _ _ Hrun) as (k & Hk & Hh' & Hbefore).
      exists (S k). split; [done|]. split; [done|].
      intros [|j] Hj; simpl; [done|]. apply Hbefore; lia.
Qed.

(** Enough fuel gives the configuration after the first halting step. *)
Lemma steps_run k : forall (cfg : Config V),
  halted (steps g o k cfg) = true -> run g o k cfg = Some (steps g o k cfg).
Proof.
  induction k as [|k IH]; intros cfg Hh; simpl in *.
  - by rewrite Hh.
  - destruct (halted cfg) eqn:Hc.
    + by rewrite step_halted, steps_halted.
    + by apply IH.
Qed.
End Runs.

Lemma finish_result g fuel tokens cursorIndex root v p r p' :
  finish g fuel tokens cursorIndex root v p = Some (Ok (r, p')) ->
  r_success r = success v /\ r_ast r = ast v /\
  r_callVisiterCount r = callVisiterCount v /\ r_tokens r = tokens /\
  (success v = true -> r_error r = None) /\
  (success v = false ->
     exists suggestions,
       r_error r = Some (makeError (Scan.new tokens) (lastMatchUnderShortestRestToken v)
                           suggestions)) /\
  exists nextMatchNodes p1,
    nextMatchNodesAt g fuel tokens cursorIndex (cursorPrevNodes v) p
      = Some (Ok (nextMatchNodes, p1)) /\
    r_nextMatchings r = snd <$> reverse nextMatchNodes.
Proof.
  unfold finish, ebind.
  destruct (nextMatchNodesAt _ _ _ _ _ _) as [[[nextMatchNodes p1]|]|]; try discriminate.
  unfold errorOf, ebind, eret.
  intros H. repeat case_match; try discriminate; simplify_eq; simpl;
    (repeat split; try done; try (intros; congruence); eauto).
Qed.

Lemma resultOf_returns out r :
  resultOf out = Some r -> exists parserMap', out = Some (Ok (r, parserMap')).
Proof.
  destruct out as [[[r0 pm]|]|]; simpl; try discriminate. intros [= <-]. eauto.
Qed.

(** A parse that returns a result: its parser, its main traversal, its
    second part. *)
Lemma createParser_returns g root lexer parserMap text cursorIndex fuel r parserMap' :
  createParser g root lexer parserMap text cursorIndex fuel = Some (Ok (r, parserMap')) ->
  exists parser rootNode cfg p',
    obtainParser g root parserMap = Ok parser /\
    rootChainNode parser = Some rootNode /\
    mainVisit g fuel (lexer text) cursorIndex parser rootNode = Some cfg /\
    control cfg = Returned /\
    finish g fuel (lexer text) cursorIndex rootNode (closure cfg) (s_parser (store cfg))
      = Some (Ok (r, p')) /\
    parserMap' = <[root := p']> parserMap.
Proof.
  unfold createParser. intros H.
  destruct (obtainParser g root parserMap) as [parser|] eqn:Hp; [|discriminate].
  destruct (rootChainNode parser) as [rootNode|] eqn:Hr; [|discriminate].
  destruct (mainVisit g fuel (lexer text) cursorIndex parser rootNode) as [cfg|] eqn:Hm;
    [|discriminate].
  assert (Hh : halted cfg = true).
  { unfold mainVisit in Hm. by destruct (run_steps _ _ _ _ _ Hm) as (k & _ & Hh & _). }
  unfold halted in Hh.
  destruct (control cfg) eqn:Hc; simpl in Hh; try discriminate.
  destruct (finish _ _ _ _ _ _ _) as [[[r0 p']|]|] eqn:Hf; try discriminate.
  injection H as <- <-. exists parser, rootNode, cfg, p'. by repeat split.
Qed.

Section Success.

Variables (g : Grammar) (t : option IToken).
Let o := ParseOption.option_ t.

Lemma success_false_while_running cfg k :
  success (closure cfg) = false ->
  halted (steps g o k cfg) = false ->
  success (closure (steps g o k cfg)) = false.
Proof.
  intros H0. induction k as [|k IH]; [done|].
  rewrite steps_S. intros Hh.
  destruct (halted (steps g o k cfg)) eqn:Hk.
  { rewrite step_halted in Hh by done. congruence. }
  specialize (IH eq_refl).
  destruct (success (closure (step g o (steps g o k cfg)))) eqn:Hs; [|done].
  destruct (step_success g t _ IH Hs) as (_ & Hret & _).
  unfold halted in Hh. fold o in Hret. rewrite Hret in Hh. discriminate.
Qed.



End Success.

(** ** C1: when a parse succeeds *)


(** ** C2: the error of a failed parse *)

Section BestProgress.

Variables (g : Grammar) (t : option IToken).
Let o := ParseOption.option_ t.

(** One step either keeps the best-progress record or replaces it by the
    match it has just made, which then leaves strictly fewer tokens. *)
Lemma step_last (cfg : Config ParseVars) :
  lastMatchUnderShortestRestToken (closure (step g o cfg))
    = lastMatchUnderShortestRestToken (closure cfg) \/
  exists r m res sc,
    matchesAt cfg r m res sc /\
    lastMatchUnderShortestRestToken (closure (step g o cfg))
      = Some (mkLastMatch (Scan.getRestTokenCount sc) r (token res)) /\
    forall l, lastMatchUnderShortestRestToken (closure cfg) = Some l ->
              (Scan.getRestTokenCount sc < restTokenCount l)%Z.
Proof.
  destruct cfg as [ctl st vars]. unfold step. simpl.
  destruct ctl as [node|node a|node|node v next| |msg]; simpl; auto.
  - unfold visiter. destruct (getNode node (s_parser st)) as [n|] eqn:Hn; simpl; [|auto].
    unfold callIfPresent, o. simpl.
    destruct (ParseOption.onCallVisiter vars) as [vars1|msg] eqn:Hc; simpl; [|auto].
    apply onCallVisiter_ok in Hc as [-> Hle].
    destruct n as [m|f|tr|c].
    + unfold ParseOption.onMatchNode. simpl.
      destruct (mn_matchFunction m (scanner st) true) as [res sc] eqn:Hm.
      destruct (matched res) eqn:Hres; simpl; [|auto].
      unfold updateLastMatch. case_bool_decide as Hloose; [|auto].
      destruct (lastMatchUnderShortestRestToken vars) as [l|] eqn:Hl.
      * destruct (Scan.getRestTokenCount sc <? restTokenCount l)%Z eqn:Hlt; [|auto].
        right. exists node, m, res, sc. split; [by repeat split|]. split; [done|].
        intros l' [= <-]. by apply Z.ltb_lt.
      * right. exists node, m, res, sc. split; [by repeat split|]. split; [done|].
        intros l' [=].
    + rewrite closure_visiterFunction. auto.
    + case_match; simpl; auto. rewrite closure_visiterTree. auto.
    + case_match; simpl; auto. rewrite closure_visiterChain. auto.
  - unfold visiterNextNode, callIfPresent, o. simpl.
    destruct (ParseOption.onVisiterNextNode vars) as [vars1|msg] eqn:Hc; simpl; [|auto].
    apply onVisiterNextNode_ok in Hc as [-> _].
    destruct (getNode node (s_parser st)) as [n|] eqn:Hn; simpl; [|auto].
    destruct (parentNode n) as [parent|] eqn:Hp.
    + left. repeat case_match; reflexivity.
    + destruct (Scan.isEnd (scanner st)); simpl; [|auto].
      destruct (ParseOption.onSuccess _ _) eqn:Hs; simpl; [|auto].
      apply onSuccess_ok in Hs as (_ & _ & _ & -> & _). auto.
  - left. unfold tryChances. simpl. repeat case_match; reflexivity.
  - rewrite closure_resetParents. auto.
Qed.

(** A matching non-loose terminal leaves a record at least as good as
    itself. *)
Lemma step_last_match (cfg : Config ParseVars) r m res sc :
  matchesAt cfg r m res sc ->
  exists l, lastMatchUnderShortestRestToken (closure (step g o cfg)) = Some l /\
            (restTokenCount l <= Scan.getRestTokenCount sc)%Z.
Proof.
  intros (Hc & Hn & Hle & Hm & Hres & Hloose).
  destruct cfg as [ctl st vars]. simpl in *. subst ctl. unfold step. simpl.
  unfold visiter. rewrite Hn. unfold callIfPresent, o. simpl.
  destruct (ParseOption.onCallVisiter vars) as [vars1|msg] eqn:Hv.
  2: { apply onCallVisiter_throw in Hv as [_ Hlt]. lia. }
  apply onCallVisiter_ok in Hv as [-> _].
  unfold ParseOption.onMatchNode. simpl. rewrite Hm, Hres. simpl.
  unfold updateLastMatch. rewrite bool_decide_eq_true_2 by done.
  destruct (lastMatchUnderShortestRestToken vars) as [l|]; [|eexists; split; [done|simpl; lia]].
  destruct (Scan.getRestTokenCount sc <? restTokenCount l)%Z eqn:Hlt.
  - eexists; split; [done|simpl; lia].
  - exists l. split; [done|]. by apply Z.ltb_ge.
Qed.

(** The record only improves. *)
Lemma last_improves (cfg : Config ParseVars) j k l :
  j <= k -> lastMatchUnderShortestRestToken (closure (steps g o j cfg)) = Some l ->
  exists l', lastMatchUnderShortestRestToken (closure (steps g o k cfg)) = Some l' /\
             (restTokenCount l' <= restTokenCount l)%Z.
Proof.
  intros Hle Hl. replace k with (j + (k - j)) by lia. generalize (k - j). intros d.
  induction d as [|d (l' & Hl' & Hrest)].
  - rewrite Nat.add_0_r. exists l. split; [done|lia].
  - rewrite Nat.add_succ_r, steps_S.
    destruct (step_last (steps g o (j + d) cfg)) as [Hsame|(r & m & res & sc & _ & Hnew & Hlt)].
    + exists l'. split; [by rewrite Hsame|done].
    + eexists. split; [exact Hnew|]. simpl. specialize (Hlt l' Hl'). lia.
Qed.

Lemma best_progress_minimal (cfg : Config ParseVars) j k r m res sc :
  j < k -> matchesAt (steps g o j cfg) r m res sc ->
  exists l, lastMatchUnderShortestRestToken (closure (steps g o k cfg)) = Some l /\
            (restTokenCount l <= Scan.getRestTokenCount sc)%Z.
Proof.
  intros Hlt Hm. destruct (step_last_match _ _ _ _ _ Hm) as (l & Hl & Hrest).
  rewrite <- steps_S in Hl.
  destruct (last_improves cfg (S j) k l ltac:(lia) Hl) as (l' & Hl' & Hrest').
  exists l'. split; [done|lia].
Qed.

Lemma best_progress_is_a_match (cfg : Config ParseVars) k l :
  lastMatchUnderShortestRestToken (closure cfg) = None ->
  lastMatchUnderShortestRestToken (closure (steps g o k cfg)) = Some l ->
  exists j r m res sc,
    j < k /\ matchesAt (steps g o j cfg) r m res sc /\
    l = mkLastMatch (Scan.getRestTokenCount sc) r (token res).
Proof.
  intros H0. induction k as [|k IH]; [simpl; congruence|].
  rewrite steps_S. intros Hl.
  destruct (step_last (steps g o k cfg)) as [Hsame|(r & m & res & sc & Hm & Hnew & _)].
  - rewrite Hsame in Hl. destruct (IH Hl) as (j & r & m & res & sc & Hj & Hm & ->).
    exists j, r, m, res, sc. split; [lia|done].
  - exists k, r, m, res, sc. split; [lia|]. split; [done|]. congruence.
Qed.

End BestProgress.

(** C2.  A parse that returns with [success = false] carries an error, and
    the error follows the best-progress record of the main traversal: the
    record is a non-loose terminal match of the traversal, no other such
    match left fewer tokens, and there is none only if no non-loose terminal
    ever matched.  If a token follows the record's token, the error names
    that following token with reason [wrong]; if none follows, it names the
    record's token with reason [incomplete]; without a record's token the
    error token is absent and the reason [incomplete]. *)
Theorem failure_reports_best_progress (g : Grammar) (root : string)
    (lexer : string -> list IToken) (parserMap : gmap string Parser)
    (text : string) (cursorIndex fuel : nat) (result : ParseResult) :
  resultOf (createParser g root lexer parserMap text cursorIndex fuel) = Some result ->
  r_success result = false ->
  exists parser rootNode cfg e,
    obtainParser g root parserMap = Ok parser /\
    rootChainNode parser = Some rootNode /\
    mainVisit g fuel (lexer text) cursorIndex parser rootNode = Some cfg /\
    r_error result = Some e /\
    let o := parseOption (lexer text) cursorIndex in
    let init := initialConfig (lexer text) cursorIndex parser rootNode in
    let best := lastMatchUnderShortestRestToken (closure cfg) in
    let following tok := Scan.getNextFromToken tok (Scan.new (lexer text)) in
    (forall l, best = Some l ->
       exists k r m res sc,
         matchesAt (steps g o k init) r m res sc /\
         l = mkLastMatch (Scan.getRestTokenCount sc) r (token res)) /\
    (forall k r m res sc,
       matchesAt (steps g o k init) r m res sc ->
       exists l, best = Some l /\ (restTokenCount l <= Scan.getRestTokenCount sc)%Z) /\
    (forall tok tok', best ≫= lm_token = Some tok -> following tok = Some tok' ->
       e_token e = Some tok' /\ e_reason e = wrong) /\
    (forall tok, best ≫= lm_token = Some tok -> following tok = None ->
       e_token e = Some tok /\ e_reason e = incomplete) /\
    (best ≫= lm_token = None -> e_token e = None /\ e_reason e = incomplete).
Proof.
  intros Hres Hfail.
  destruct (resultOf_returns _ _ Hres) as (parserMap' & Hparse).
  destruct (createParser_returns _ _ _ _ _ _ _ _ _ Hparse)
    as (parser & rootNode & cfg & p' & Hp & Hr & Hm & Hret & Hf & _).
  destruct (finish_result _ _ _ _ _ _ _ _ _ Hf) as (Hs & _ & _ & _ & _ & Herr & _).
  rewrite Hs in Hfail. destruct (Herr Hfail) as (suggestions & He).
  exists parser, rootNode, cfg. eexists.
  split; [done|]. split; [done|]. split; [done|]. split; [exact He|].
  cbv zeta.
  set (o := parseOption (lexer text) cursorIndex).
  set (init := initialConfig (lexer text) cursorIndex parser rootNode).
  unfold mainVisit in Hm. fold o init in Hm.
  destruct (run_steps _ _ _ _ _ Hm) as (K & HK & Hh & Hbefore).
  assert (Hinit : lastMatchUnderShortestRestToken (closure init) = None).
  { unfold init, initialConfig. by destruct (getNewVersion parser). }
  split; [|split; [|split; [|split]]].
  - intros l Hl. rewrite <- HK in Hl.
    destruct (best_progress_is_a_match g _ init K l Hinit Hl)
      as (j & r & m & res & sc & _ & Hmatch & ->).
    by exists j, r, m, res, sc.
  - intros k r m res sc Hmatch.
    assert (Hk : k < K).
    { destruct (decide (k < K)) as [|Hge]; [done|]. exfalso.
      assert (Heq : steps g o k init = cfg).
      { rewrite <- HK. apply halted_steps_mono; [lia|]. by rewrite HK. }
      destruct Hmatch as (Hc & _). rewrite Heq, Hret in Hc. discriminate. }
    rewrite <- HK. by eapply (best_progress_minimal g _ init k K).
  - intros tok tok' Hb Hn. unfold makeError.
    destruct (lastMatchUnderShortestRestToken (closure cfg)) as [l|]; simpl in *;
      [|discriminate].
    rewrite Hb. simpl. by rewrite Hn.
  - intros tok Hb Hn. unfold makeError.
    destruct (lastMatchUnderShortestRestToken (closure cfg)) as [l|]; simpl in *;
      [|discriminate].
    rewrite Hb. simpl. by rewrite Hn.
  - intros Hb. unfold makeError.
    destruct (lastMatchUnderShortestRestToken (closure cfg)) as [l|]; simpl in *; [|done].
    by rewrite Hb.
Qed.


(** ** C6: the call-budget guard *)

Section Throws.

Context {V : Type} (g : Grammar) (o : VisiterOption V).

Lemma throw_visiterChain node c st (vars : V) msg :
  control (visiterChain o node c st vars) = Thrown msg -> ~ budgetError msg.
Proof.
  unfold visiterChain.
  destruct (_ && _); [|repeat case_match; discriminate].
  destruct (firstSet _ !! _) as [l|]; [|repeat case_match; discriminate].
  destruct (someFirstMatch l (s_parser st) (scanner st)) as [[[|] sc]|msg'] eqn:Hs;
    simpl; try (repeat case_match; discriminate).
  intros [= <-]. by eapply someFirstMatch_throw.
Qed.

Lemma throw_visiterTree node t i st (vars : V) msg :
  control (visiterTree node t i st vars) = Thrown msg -> ~ budgetError msg.
Proof. unfold visiterTree. repeat case_match; discriminate. Qed.

Lemma throw_visiterFunction f st (vars : V) msg :
  control (visiterFunction g f st vars) = Thrown msg -> ~ budgetError msg.
Proof.
  unfold visiterFunction. pose proof (buildOk_runFunctionNode g f (s_parser st)) as Hb.
  destruct (runFunctionNode g f (s_parser st)) as [[replaced p]|msg'].
  - repeat case_match; simpl; try discriminate; intros [= <-]; not_budget.
  - simpl. by intros [= <-].
Qed.

Lemma throw_tryChances node st (vars : V) msg :
  control (tryChances o node st vars) = Thrown msg -> ~ budgetError msg.
Proof.
  unfold tryChances. simpl. repeat case_match; simpl; try discriminate.
  intros [= <-]. not_budget.
Qed.

Lemma throw_resetParents node v next st (vars : V) msg :
  control (resetParentsHeadIndexAndVersion node v next st vars) = Thrown msg ->
  ~ budgetError msg.
Proof.
  unfold resetParentsHeadIndexAndVersion.
  repeat case_match; simpl; try discriminate; intros [= <-]; not_budget.
Qed.

End Throws.

Section Guard.

Variables (g : Grammar) (t : option IToken).
Let o := ParseOption.option_ t.

Lemma onMatchNode_counters r m st v :
  callVisiterCount (closure (ParseOption.onMatchNode t r m st v)) = callVisiterCount v /\
  callParentCount (closure (ParseOption.onMatchNode t r m st v)) = callParentCount v /\
  isThrown (ParseOption.onMatchNode t r m st v) = false.
Proof.
  unfold ParseOption.onMatchNode. destruct (mn_matchFunction m (scanner st) true).
  by destruct (negb _).
Qed.

(** A step that does not throw adds one to the first counter exactly when
    it enters [visiter], and one to the second exactly when it enters
    [visiterNextNode]. *)
Lemma step_counters (cfg : Config ParseVars) :
  isThrown (step g o cfg) = false ->
  callVisiterCount (closure (step g o cfg)) =
    (callVisiterCount (closure cfg) + (if entersVisiter cfg then 1 else 0))%N /\
  callParentCount (closure (step g o cfg)) =
    (callParentCount (closure cfg) + (if entersVisiterNextNode cfg then 1 else 0))%N.
Proof.
  destruct cfg as [ctl st vars]. unfold step, entersVisiter, entersVisiterNextNode. simpl.
  destruct ctl as [node|node a|node|node v next| |msg]; simpl.
  - unfold visiter. destruct (getNode node (s_parser st)) as [n|] eqn:Hn; simpl.
    2: { intros _. lia. }
    unfold callIfPresent, o. simpl.
    destruct (ParseOption.onCallVisiter vars) as [vars1|msg] eqn:Hc; simpl; [|discriminate].
    apply onCallVisiter_ok in Hc as [-> _]. intros _.
    destruct n as [m|f|tr|c].
    + destruct (onMatchNode_counters node m st
                  (mkVars (success vars) (ast vars) (callVisiterCount vars + 1)
                     (callParentCount vars) (lastMatchUnderShortestRestToken vars)
                     (cursorPrevNodes vars))) as (-> & -> & _). simpl. lia.
    + rewrite closure_visiterFunction. simpl. lia.
    + case_match; simpl; try lia. rewrite closure_visiterTree. simpl. lia.
    + case_match; simpl; try lia. rewrite closure_visiterChain. simpl. lia.
  - unfold visiterNextNode, callIfPresent, o. simpl.
    destruct (ParseOption.onVisiterNextNode vars) as [vars1|msg] eqn:Hc; simpl;
      [|discriminate].
    apply onVisiterNextNode_ok in Hc as [-> _]. intros _.
    destruct (getNode node (s_parser st)) as [n|] eqn:Hn; simpl; [|lia].
    destruct (parentNode n) as [parent|] eqn:Hp.
    + repeat case_match; simpl; lia.
    + destruct (Scan.isEnd (scanner st)); simpl; [|lia].
      destruct (ParseOption.onSuccess _ _) eqn:Hs; simpl; [|lia].
      apply onSuccess_ok in Hs as (_ & -> & -> & _). simpl. lia.
  - intros _. unfold tryChances. simpl. repeat case_match; simpl; lia.
  - intros _. rewrite closure_resetParents. lia.
  - intros _. lia.
  - discriminate.
Qed.

(** The guard throws exactly when the counter it has just incremented
    exceeds the maximum; nothing else throws one of its two errors. *)
Lemma step_guard (cfg : Config ParseVars) :
  isThrown cfg = false ->
  (exists msg, control (step g o cfg) = Thrown msg /\ budgetError msg) <->
  (entersVisiter cfg = true /\
     (MAX_VISITER_CALL < callVisiterCount (closure cfg) + 1)%N) \/
  (entersVisiterNextNode cfg = true /\
     (MAX_VISITER_CALL < callParentCount (closure cfg) + 1)%N).
Proof.
  destruct cfg as [ctl st vars]. unfold step, entersVisiter, entersVisiterNextNode, isThrown.
  simpl. intros Hnot.
  destruct ctl as [node|node a|node|node v next| |msg0]; simpl; try discriminate.
  - unfold visiter. destruct (getNode node (s_parser st)) as [n|] eqn:Hn; simpl.
    2: { split; [intros (msg & [=] & _)|intros [[[=] _]|[[=] _]]]. }
    unfold callIfPresent, o. simpl.
    destruct (ParseOption.onCallVisiter vars) as [vars1|msg] eqn:Hc; simpl.
    + apply onCallVisiter_ok in Hc as [-> Hle]. split.
      * intros (msg & Hthrown & Hbudget). exfalso. revert Hbudget.
        destruct n as [m|f|tr|c].
        -- destruct (onMatchNode_counters node m st
                       (mkVars (success vars) (ast vars) (callVisiterCount vars + 1)
                          (callParentCount vars) (lastMatchUnderShortestRestToken vars)
                          (cursorPrevNodes vars))) as (_ & _ & Hno).
           unfold isThrown in Hno. simpl in Hthrown. rewrite Hthrown in Hno. discriminate.
        -- by eapply throw_visiterFunction.
        -- revert Hthrown. case_match; try discriminate. by eapply throw_visiterTree.
        -- revert Hthrown. case_match; try discriminate. by eapply throw_visiterChain.
      * intros [[_ Hlt]|[[=] _]]. lia.
    + apply onCallVisiter_throw in Hc as [-> Hlt]. split.
      * intros _. left. by split.
      * intros _. eexists. split; [done|]. by left.
  - unfold visiterNextNode, callIfPresent, o. simpl.
    destruct (ParseOption.onVisiterNextNode vars) as [vars1|msg] eqn:Hc; simpl.
    + apply onVisiterNextNode_ok in Hc as [-> Hle]. split.
      * intros (msg & Hthrown & Hbudget). exfalso. revert Hthrown Hbudget.
        unfold ParseOption.onSuccess.
        repeat case_match; simpl; try discriminate; intros [= <-]; not_budget.
      * intros [[[=] _]|[_ Hlt]]. lia.
    + apply onVisiterNextNode_throw in Hc as [-> Hlt]. split.
      * intros _. right. by split.
      * intros _. eexists. split; [done|]. by right.
  - split; [|by intros [[[=] _]|[[=] _]]].
    intros (msg & Hthrown & Hbudget). exfalso. by eapply throw_tryChances.
  - split; [|by intros [[[=] _]|[[=] _]]].
    intros (msg & Hthrown & Hbudget). exfalso. by eapply throw_resetParents.
  - split; [intros (msg & [=] & _)|by intros [[[=] _]|[[=] _]]].
Qed.

End Guard.

Lemma countSteps_S {V} (next : Config V -> Config V) test k : forall cfg,
  countSteps next test (S k) cfg =
    countSteps next test k cfg + (if test (Nat.iter k next cfg) then 1 else 0).
Proof.
  induction k as [|k IH]; intros cfg.
  - simpl. lia.
  - change (countSteps next test (S (S k)) cfg)
      with ((if test cfg then 1 else 0) + countSteps next test (S k) (next cfg)).
    rewrite IH. simpl countSteps.
    replace (Nat.iter (S k) next cfg) with (Nat.iter k next (next cfg)); [lia|].
    clear. induction k as [|k IH]; [done|]. simpl. by rewrite IH.
Qed.

Lemma steps_iter {V} (g : Grammar) (o : VisiterOption V) k (cfg : Config V) :
  steps g o k cfg = Nat.iter k (step g o) cfg.
Proof.
  induction k as [|k IH]; [done|]. rewrite steps_S, IH. done.
Qed.

Lemma thrown_stays {V} (g : Grammar) (o : VisiterOption V) (cfg : Config V) :
  isThrown cfg = true -> isThrown (step g o cfg) = true.
Proof.
  intros H. rewrite step_halted; [done|].
  unfold isThrown, halted in *. by destruct (control cfg).
Qed.

(** C6, the main traversal.  The two counters belong to the main traversal
    of a parse.  As long as it has not thrown, the first counter is the
    number of [visiter] entries so far and the second the number of
    [visiterNextNode] calls, both within the maximum of 10,000,000; and the
    next step throws one of the guard's two errors exactly when it is such an
    entry and the counter it increments passes the maximum. *)
Theorem guard_counts_main_traversal (g : Grammar) (tokens : list IToken)
    (cursorIndex : nat) (parser : Parser) (root : NodeRef) (k : nat) :
  let o := parseOption tokens cursorIndex in
  let init := initialConfig tokens cursorIndex parser root in
  let cfg := steps g o k init in
  let entries := N.of_nat (countSteps (step g o) entersVisiter k init) in
  let ascents := N.of_nat (countSteps (step g o) entersVisiterNextNode k init) in
  MAX_VISITER_CALL = 10000000%N /\
  (isThrown cfg = false ->
     callVisiterCount (closure cfg) = entries /\ callParentCount (closure cfg) = ascents /\
     (entries <= MAX_VISITER_CALL)%N /\ (ascents <= MAX_VISITER_CALL)%N) /\
  (isThrown cfg = false ->
     ((exists msg, control (step g o cfg) = Thrown msg /\ budgetError msg) <->
      (entersVisiter cfg = true /\ (MAX_VISITER_CALL < entries + 1)%N) \/
      (entersVisiterNextNode cfg = true /\ (MAX_VISITER_CALL < ascents + 1)%N))).
Proof.
  cbv zeta. split; [reflexivity|]. unfold parseOption.
  set (t := Scan.getPrevTokenFromCharacterIndex cursorIndex (Scan.new tokens)).
  set (o := ParseOption.option_ t).
  set (init := initialConfig tokens cursorIndex parser root).
  assert (Hcount : forall k,
             isThrown (steps g o k init) = false ->
             callVisiterCount (closure (steps g o k init))
               = N.of_nat (countSteps (step g o) entersVisiter k init) /\
             callParentCount (closure (steps g o k init))
               = N.of_nat (countSteps (step g o) entersVisiterNextNode k init) /\
             (callVisiterCount (closure (steps g o k init)) <= MAX_VISITER_CALL)%N /\
             (callParentCount (closure (steps g o k init)) <= MAX_VISITER_CALL)%N).
  { clear k. induction k as [|k IH].
    - intros _. simpl. unfold init, initialConfig. destruct (getNewVersion parser). simpl.
      unfold MAX_VISITER_CALL. lia.
    - rewrite steps_S. intros Hnot.
      assert (Hk : isThrown (steps g o k init) = false).
      { destruct (isThrown (steps g o k init)) eqn:E; [|done].
        apply (thrown_stays g o) in E. congruence. }
      destruct (IH Hk) as (Hv & Hp & Hvle & Hple).
      destruct (step_counters g t _ Hnot) as [Hv' Hp'].
      pose proof (step_guard g t _ Hk) as Hguard.
      assert (Hnobudget : ~ exists msg,
                 control (step g o (steps g o k init)) = Thrown msg /\ budgetError msg).
      { intros (msg & Hm & _). unfold isThrown in Hnot. by rewrite Hm in Hnot. }
      rewrite !countSteps_S, <- !steps_iter.
      fold o in Hv', Hp'. rewrite Hv', Hp', Hv, Hp.
      split; [|split; [|split]].
      + destruct (entersVisiter _); lia.
      + destruct (entersVisiterNextNode _); lia.
      + destruct (entersVisiter (steps g o k init)) eqn:E; [|lia].
        destruct (decide (MAX_VISITER_CALL < callVisiterCount (closure (steps g o k init)) + 1)%N)
          as [Hlt|]; [|lia].
        exfalso. apply Hnobudget, Hguard. left. by split.
      + destruct (entersVisiterNextNode (steps g o k init)) eqn:E; [|lia].
        destruct (decide (MAX_VISITER_CALL < callParentCount (closure (steps g o k init)) + 1)%N)
          as [Hlt|]; [|lia].
        exfalso. apply Hnobudget, Hguard. right. by split. }
  split.
  - intros Hnot. destruct (Hcount k Hnot) as (Hv & Hp & Hvle & Hple).
    rewrite <- Hv, <- Hp. auto.
  - intros Hnot. destruct (Hcount k Hnot) as (Hv & Hp & _).
    rewrite <- Hv, <- Hp.
    apply (step_guard g t). exact Hnot.
Qed.

(** C6, the probes.  Not every [visiter] entry of a parse is counted.
    Parsing the empty text with the example grammar runs the main traversal, which enters [visiter] three times, and
    then the probe from the root, which enters [visiter] six more times with
    an option object that has no [onCallVisiter]: the counter of the parse is
    3, not the number of [visiter] entries. *)
Lemma probe_entries_are_not_counted :
  let g := Demo.arith in
  let main := Demo.traversal g "" 50 in
  let probeStart := probeConfig 0 None (s_parser (store main)) in
  let mainEntries :=
    countSteps (step g (parseOption [] 0)) entersVisiter 50
      (initialConfig [] 0 (Demo.parserFor g "root") 0) in
  let probeEntries := countSteps (step g ProbeOption.option_) entersVisiter 50 probeStart in
  exists result,
    resultOf (createParser g "root" Demo.lexer ∅ "" 0 50) = Some result /\
    halted main = true /\
    halted (steps g ProbeOption.option_ 50 probeStart) = true /\
    mainEntries = 3 /\ probeEntries = 6 /\
    onCallVisiter ProbeOption.option_ = None /\
    r_callVisiterCount result = 3%N /\
    r_callVisiterCount result <> N.of_nat (mainEntries + probeEntries).
Proof.
  cbv zeta. eexists. split; [vm_compute; reflexivity|].
  repeat split; try (vm_compute; reflexivity).
  vm_compute. discriminate.
Qed.


(** ** C8 and C10: what the probe records *)

Lemma recorded_stable p p' found :
  matchStable p p' -> recorded p found -> recorded p' found.
Proof.
  intros Hs Hrec. unfold recorded in *. eapply Forall_impl; [exact Hrec|].
  intros r (m & Hm & Hne). eauto.
Qed.

Lemma recorded_app p found found' :
  recorded p found -> recorded p found' -> recorded p (found ++ found').
Proof. unfold recorded. apply Forall_app_2. Qed.

Lemma not_looseTrue m :
  bool_decide (m_type (mn_matching m) = TLoose)
  && bool_decide (m_value (mn_matching m) = VBool true) = false ->
  mn_matching m <> looseTrue.
Proof.
  intros H Heq. rewrite Heq in H. discriminate.
Qed.

Lemma is_looseTrue m :
  mn_matching m = looseTrue ->
  bool_decide (m_type (mn_matching m) = TLoose)
  && bool_decide (m_value (mn_matching m) = VBool true) = true.
Proof. by intros ->. Qed.

Section Probe.

Variable g : Grammar.
Let o := ProbeOption.option_.

Lemma probe_onMatchNode_parser r m st found :
  s_parser (store (onMatchNode o r m st found)) = s_parser st.
Proof. simpl. unfold ProbeOption.onMatchNode. by destruct (_ && _). Qed.

Lemma step_recorded (cfg : Config (list NodeRef)) :
  recorded (s_parser (store cfg)) (closure cfg) ->
  recorded (s_parser (store (step g o cfg))) (closure (step g o cfg)).
Proof.
  intros Hrec.
  pose proof (stable_step g o probe_onMatchNode_parser cfg) as Hstable.
  apply (recorded_stable _ _ _ Hstable) in Hrec. revert Hrec. clear Hstable.
  destruct cfg as [ctl st found]. unfold step. simpl.
  destruct ctl as [node|node a|node|node v next| |msg]; simpl; auto.
  - unfold visiter. destruct (getNode node (s_parser st)) as [n|] eqn:Hn; simpl; [|auto].
    destruct n as [m|f|tr|c].
    + unfold ProbeOption.onMatchNode.
      destruct (_ && _) eqn:Hloose; simpl; [auto|].
      intros Hrec. apply recorded_app; [done|].
      constructor; [|constructor]. exists m. split; [done|]. by apply not_looseTrue.
    + by rewrite closure_visiterFunction.
    + case_match; simpl; auto. by rewrite closure_visiterTree.
    + case_match; simpl; auto. by rewrite closure_visiterChain.
  - unfold visiterNextNode. simpl. repeat case_match; simpl; auto.
  - unfold tryChances. simpl. repeat case_match; simpl; auto.
  - by rewrite closure_resetParents.
Qed.

Lemma steps_recorded k (cfg : Config (list NodeRef)) :
  recorded (s_parser (store cfg)) (closure cfg) ->
  recorded (s_parser (store (steps g o k cfg))) (closure (steps g o k cfg)).
Proof.
  revert cfg. induction k as [|k IH]; intros cfg H; [done|]. simpl.
  by apply IH, step_recorded.
Qed.

Lemma probe_sound fuel node parent p found p' :
  probe g fuel node parent p = Some (Ok (found, p')) ->
  recorded p' found /\ matchStable p p'.
Proof.
  unfold probe. fold o.
  destruct (run g o fuel (probeConfig node parent p)) as [cfg|] eqn:Hrun; [|discriminate].
  intros H.
  assert (Hres : found = closure cfg /\ p' = s_parser (store cfg)).
  { destruct (control cfg); by simplify_eq. }
  destruct Hres as [-> ->]. clear H.
  destruct (run_steps _ _ _ _ _ Hrun) as (k & <- & _ & _).
  unfold probeConfig. destruct (getNewVersion p) as [v p1] eqn:Hv.
  assert (Hp1 : matchStable p p1).
  { apply matchStable_nodes. unfold getNewVersion in Hv. by injection Hv as _ <-. }
  split.
  - apply steps_recorded. constructor.
  - eapply matchStable_trans; [exact Hp1|].
    apply (stable_steps g o probe_onMatchNode_parser k
             (loopStart v (default node parent) node (mkStore [] (Scan.new []) v p1) [])).
Qed.

Lemma findNextMatchNodes_sound fuel : forall node p found p',
  findNextMatchNodes g fuel node p = Some (Ok (found, p')) ->
  recorded p' found /\ matchStable p p'.
Proof.
  induction fuel as [|fuel IH]; intros node p found p'; simpl;
    destruct (getNode node p) as [n|]; try discriminate;
    destruct (parentNode n) as [parent|]; try apply probe_sound;
    destruct (getNode parent p) as [[m|f|t|c]|]; try apply probe_sound;
    [discriminate|apply IH].
Qed.

Lemma concatNextMatchNodes_sound fuel prev : forall all p found p',
  concatNextMatchNodes g fuel prev all p = Some (Ok (found, p')) ->
  recorded p all -> recorded p' found /\ matchStable p p'.
Proof.
  induction prev as [|n prev IH]; intros all p found p'; simpl.
  - unfold eret. intros [= <- <-] Hall. split; [done|apply matchStable_refl].
  - unfold ebind.
    destruct (findNextMatchNodes g fuel n p) as [[[new p1]|]|] eqn:Hf; try discriminate.
    destruct (findNextMatchNodes_sound _ _ _ _ _ Hf) as [Hnew Hs1].
    intros Hrest Hall.
    destruct (IH _ _ _ _ Hrest) as [Hfound Hs2].
    + apply recorded_app; [by eapply recorded_stable|done].
    + split; [done|]. by eapply matchStable_trans.
Qed.

End Probe.

Lemma matchingsOf_spec rs p l p' :
  matchingsOf rs p = Some (Ok (l, p')) ->
  p' = p /\ forall r m, (r, m) ∈ l -> r ∈ rs /\ matchingOf p r = Some m.
Proof.
  unfold matchingsOf.
  destruct (mapM _ rs) as [l0|] eqn:Hm; [|discriminate]. intros [= <- <-].
  split; [done|]. revert l0 Hm. induction rs as [|r0 rs IH]; intros l0; simpl.
  - intros [= <-] r m Hin. by apply elem_of_nil in Hin.
  - destruct (matchingOf p r0) as [m0|] eqn:Hm0; simpl; [|discriminate].
    destruct (mapM _ rs) as [l1|] eqn:Hl1; simpl; [|discriminate].
    intros [= <-] r m Hin. apply elem_of_cons in Hin as [[= -> ->]|Hin].
    + split; [left|done].
    + destruct (IH l1 eq_refl r m Hin). split; [by right|done].
Qed.

Lemma uniqByFrom_subset {A K} `{EqDecision K} (key : A -> K) l : forall seen x,
  x ∈ uniqByFrom key seen l -> x ∈ l.
Proof.
  induction l as [|y l IH]; intros seen x; simpl; [done|].
  case_bool_decide.
  - intros Hx. right. by eapply IH.
  - intros Hx. apply elem_of_cons in Hx as [->|Hx]; [left|right; by eapply IH].
Qed.

Lemma filterByNextToken_subset g fuel value l : forall p kept p',
  filterByNextToken g fuel value l p = Some (Ok (kept, p')) ->
  forall x, x ∈ kept -> x ∈ l.
Proof.
  induction l as [|[r m] l IH]; intros p kept p'; simpl.
  - unfold eret. intros [= <- <-] x Hx. done.
  - unfold ebind, eret.
    destruct (findNextMatchNodes g fuel r p) as [[[found p1]|]|]; try discriminate.
    destruct (someValueIs value found p1) as [[[keep p2]|]|]; try discriminate.
    destruct (filterByNextToken g fuel value l p2) as [[[kept0 p3]|]|] eqn:Hrest;
      try discriminate.
    intros [= <- <-] x Hx. specialize (IH _ _ _ Hrest).
    destruct keep.
    + apply elem_of_cons in Hx as [->|Hx]; [left|right; by apply IH].
    + right. by apply IH.
Qed.

Lemma nextMatchNodesAt_sound g fuel tokens cursorIndex prev p l p' :
  nextMatchNodesAt g fuel tokens cursorIndex prev p = Some (Ok (l, p')) ->
  forall r m, (r, m) ∈ l -> m <> looseTrue.
Proof.
  unfold nextMatchNodesAt, ebind.
  destruct (concatNextMatchNodes _ _ _ _ _) as [[[found p1]|]|] eqn:Hc; try discriminate.
  destruct (concatNextMatchNodes_sound _ _ _ _ _ _ _ Hc) as [Hrec _]; [constructor|].
  destruct (matchingsOf found p1) as [[[withMatchings p2]|]|] eqn:Hm; try discriminate.
  destruct (matchingsOf_spec _ _ _ _ Hm) as [-> Hpairs].
  intros Hnarrow r m Hin.
  assert (Hin' : (r, m) ∈ withMatchings).
  { apply (uniqByFrom_subset (fun each : NodeRef * IMatching => matchingKey each.2) _ []).
    revert Hnarrow. unfold narrowByNextToken.
    destruct (Scan.getNextTokenFromCharacterIndex _ _).
    - intros Hfilter. by eapply filterByNextToken_subset.
    - unfold eret. by intros [= <- <-]. }
  apply Hpairs in Hin' as [Hfound Hmatching].
  unfold recorded in Hrec. rewrite Forall_forall in Hrec.
  destruct (Hrec r Hfound) as (m0 & Hget & Hne).
  unfold matchingOf in Hmatching. rewrite Hget in Hmatching. by injection Hmatching as <-.
Qed.

(** C8.  In the probe a [loose(true)] terminal is passed over by
    [visiterNextNode] and the list of recorded nodes stays as it is; and no
    parse returns [loose(true)] among its [nextMatchings]. *)
Theorem loose_true_never_suggested (g : Grammar) (root : string)
    (lexer : string -> list IToken) (parserMap : gmap string Parser)
    (text : string) (cursorIndex fuel : nat) (result : ParseResult) :
  resultOf (createParser g root lexer parserMap text cursorIndex fuel) = Some result ->
  (looseTrue ∉ r_nextMatchings result) /\
  (forall node m st found,
      getNode node (s_parser st) = Some (NMatch m) ->
      mn_matching m = looseTrue ->
      visiter g ProbeOption.option_ node st found
        = mkConfig (VisiterNextNode node AstNull) st found).
Proof.
  intros Hres. split.
  - destruct (resultOf_returns _ _ Hres) as (parserMap' & Hparse).
    destruct (createParser_returns _ _ _ _ _ _ _ _ _ Hparse)
      as (parser & rootNode & cfg & p' & _ & _ & _ & _ & Hf & _).
    destruct (finish_result _ _ _ _ _ _ _ _ _ Hf)
      as (_ & _ & _ & _ & _ & _ & nextMatchNodes & p1 & Hnext & ->).
    intros Hin.
    apply list_elem_of_fmap in Hin as ([r m] & Hm' & Hin). simpl in Hm'. subst m.
    rewrite elem_of_reverse in Hin.
    exact (nextMatchNodesAt_sound _ _ _ _ _ _ _ _ Hnext r _ Hin eq_refl).
  - intros node m st found Hn Hm. unfold visiter. rewrite Hn. simpl.
    unfold ProbeOption.onMatchNode. by rewrite is_looseTrue.
Qed.

(** C10.  In the probe every terminal other than [loose(true)] is pushed on
    the list of recorded nodes, and [tryChances] is what runs next; a
    [loose(false)] terminal is such a terminal, and a parse of the example
    grammar with an optional part returns it among [nextMatchings] and among
    the suggestions of its error. *)
Theorem probe_records_every_other_terminal :
  (forall (g : Grammar) node m st found,
      getNode node (s_parser st) = Some (NMatch m) ->
      mn_matching m <> looseTrue ->
      visiter g ProbeOption.option_ node st found
        = mkConfig (TryChances node) st (push node found)) /\
  (forall (g : Grammar) node m st found,
      getNode node (s_parser st) = Some (NMatch m) ->
      mn_matching m = looseFalse ->
      visiter g ProbeOption.option_ node st found
        = mkConfig (TryChances node) st (push node found)) /\
  (exists result e,
      resultOf (createParser Demo.optional "root" Demo.lexer ∅ "" 0 50) = Some result /\
      (looseFalse ∈ r_nextMatchings result) /\
      r_error result = Some e /\
      looseFalse ∈ e_suggestions e).
Proof.
  assert (Hrecord : forall (g : Grammar) node m st found,
             getNode node (s_parser st) = Some (NMatch m) ->
             mn_matching m <> looseTrue ->
             visiter g ProbeOption.option_ node st found
               = mkConfig (TryChances node) st (push node found)).
  { intros g node m st found Hn Hm. unfold visiter. rewrite Hn. simpl.
    unfold ProbeOption.onMatchNode.
    destruct (_ && _) eqn:Hloose; [|done].
    exfalso. apply Hm. apply andb_true_iff in Hloose as [Ht Hv].
    apply bool_decide_eq_true in Ht, Hv. destruct (mn_matching m). simpl in *. by subst. }
  split; [exact Hrecord|]. split.
  - intros g node m st found Hn Hm. apply (Hrecord g node m); [done|]. by rewrite Hm.
  - eexists _, _. split; [vm_compute; reflexivity|].
    split; [vm_compute; left|].
    split; [reflexivity|]. simpl. right. left.
Qed.

(** ** The theorems at concrete parses *)


(** [a & b] is rejected: the best progress is the [a], and [&] follows it. *)
Lemma failure_reports_best_progress_witness :
  let g := Demo.arith in
  let text := "a & b" in
  let result :=
    mkResult false AstNull 13 []
      (Some (mkError [mkMatching TString (VString "+"); mkMatching TString (VString "-")]
               (Some (mkToken "&" 2 3)) wrong))
      [mkToken "a" 0 1; mkToken "&" 2 3; mkToken "b" 4 5] in
  exists parser rootNode cfg e,
    obtainParser g "root" ∅ = Ok parser /\
    rootChainNode parser = Some rootNode /\
    mainVisit g 100 (Demo.lexer text) 5 parser rootNode = Some cfg /\
    r_error result = Some e /\
    let o := parseOption (Demo.lexer text) 5 in
    let init := initialConfig (Demo.lexer text) 5 parser rootNode in
    let best := lastMatchUnderShortestRestToken (closure cfg) in
    let following tok := Scan.getNextFromToken tok (Scan.new (Demo.lexer text)) in
    (forall l, best = Some l ->
       exists k r m res sc,
         matchesAt (steps g o k init) r m res sc /\
         l = mkLastMatch (Scan.getRestTokenCount sc) r (token res)) /\
    (forall k r m res sc,
       matchesAt (steps g o k init) r m res sc ->
       exists l, best = Some l /\ (restTokenCount l <= Scan.getRestTokenCount sc)%Z) /\
    (forall tok tok', best ≫= lm_token = Some tok -> following tok = Some tok' ->
       e_token e = Some tok' /\ e_reason e = wrong) /\
    (forall tok, best ≫= lm_token = Some tok -> following tok = None ->
       e_token e = Some tok /\ e_reason e = incomplete) /\
    (best ≫= lm_token = None -> e_token e = None /\ e_reason e = incomplete).
Proof.
  intros g text result.
  apply (failure_reports_best_progress g "root" Demo.lexer ∅ text 5 100 result).
  - vm_compute; reflexivity.
  - reflexivity.
Defined.

(** The empty text with the optional grammar: the probe from the root offers
    [a] and [loose(false)]. *)
Lemma loose_true_never_suggested_witness :
  let g := Demo.optional in
  let a := mkMatching TString (VString "a") in
  let result :=
    mkResult false AstNull 5 [looseFalse; a]
      (Some (mkError [a; looseFalse] None incomplete)) [] in
  (looseTrue ∉ r_nextMatchings result) /\
  (forall node m st found,
      getNode node (s_parser st) = Some (NMatch m) ->
      mn_matching m = looseTrue ->
      visiter g ProbeOption.option_ node st found
        = mkConfig (VisiterNextNode node AstNull) st found).
Proof.
  intros g a result.
  apply (loose_true_never_suggested g "root" Demo.lexer ∅ "" 0 50 result).
  vm_compute; reflexivity.
Defined.

(** The main traversal of [a & b] after five steps: three [visiter] entries,
    none of [visiterNextNode] yet, and the next step is not the guard's. *)
Lemma guard_counts_main_traversal_witness :
  let g := Demo.arith in
  let tokens := Demo.lexer "a & b" in
  let o := parseOption tokens 0 in
  let init := initialConfig tokens 0 (Demo.parserFor g "root") 0 in
  let cfg := steps g o 5 init in
  let entries := N.of_nat (countSteps (step g o) entersVisiter 5 init) in
  let ascents := N.of_nat (countSteps (step g o) entersVisiterNextNode 5 init) in
  callVisiterCount (closure cfg) = entries /\ callParentCount (closure cfg) = ascents /\
  (entries <= MAX_VISITER_CALL)%N /\ (ascents <= MAX_VISITER_CALL)%N.
Proof.
  intros g tokens o init cfg entries ascents.
  destruct (guard_counts_main_traversal g tokens 0 (Demo.parserFor g "root") 0 5)
    as (_ & Hcount & _).
  apply Hcount. vm_compute; reflexivity.
Defined.

(** * The graph, its builder and the invariant of a traversal *)

(** ** The store under appends and field updates *)

Lemma getNode_setNodes q ns p : getNode q (setNodes ns p) = ns !! q.
Proof. reflexivity. Qed.

Lemma setNodes_id p : setNodes (nodes p) p = p.
Proof. by destruct p. Qed.

Lemma modifyNode_setNodes r f ns n p :
  ns !! r = Some n -> modifyNode r f (setNodes ns p) = setNodes (<[r := f n]> ns) p.
Proof. intros H. unfold modifyNode. by rewrite getNode_setNodes, H. Qed.

Lemma isParentNode_kind n n' : kindOf n' = kindOf n -> isParentNode n' = isParentNode n.
Proof. by destruct n, n'. Qed.

Lemma linksStable_refl p : linksStable p p.
Proof. intros r n Hn. by exists n. Qed.

Lemma linksStable_trans p1 p2 p3 :
  linksStable p1 p2 -> linksStable p2 p3 -> linksStable p1 p3.
Proof.
  intros H1 H2 r n Hn. destruct (H1 r n Hn) as (n2 & Hn2 & Hk & Hp & Hi).
  destruct (H2 r n2 Hn2) as (n3 & Hn3 & Hk3 & Hp3 & Hi3).
  exists n3. repeat split; congruence.
Qed.

Lemma linksStable_nodes p p' : nodes p' = nodes p -> linksStable p p'.
Proof. intros H r n Hn. exists n. unfold getNode in *. by rewrite H. Qed.

Lemma linksStable_app ns new p p' :
  nodes p = ns -> linksStable p (setNodes (ns ++ new) p').
Proof.
  intros <- r n Hn. exists n. rewrite getNode_setNodes. split; [|done].
  by apply lookup_app_l_Some.
Qed.

Lemma linksStable_putNode r n n' p :
  getNode r p = Some n -> kindOf n' = kindOf n -> parentNode n' = parentNode n ->
  parentIndex n' = parentIndex n -> linksStable p (putNode r n' p).
Proof.
  intros Hn Hk Hp Hi r' m Hm. destruct (decide (r = r')) as [<-|Hne].
  - exists n'. rewrite (getNode_putNode_eq r n n' p Hn). by simplify_eq.
  - exists m. by rewrite getNode_putNode_ne.
Qed.

Lemma childrenLinked_stable p p' q n :
  childrenLinked p q n -> linksStable p p' -> childrenLinked p' q n.
Proof.
  intros H Hs i c Hc. destruct (H i c Hc) as (Hlt & cn & Hcn & Hp & Hi).
  destruct (Hs c cn Hcn) as (cn' & Hcn' & _ & Hp' & Hi').
  split; [done|]. exists cn'. split; [done|]. split; congruence.
Qed.

Lemma rooted_stable p p' n : rooted p n -> linksStable p p' -> rooted p' n.
Proof.
  unfold rooted. intros H Hs. destruct (parentNode n) as [parent|]; [|done].
  destruct H as (pn & Hpn & Hk). destruct (Hs parent pn Hpn) as (pn' & Hpn' & Hk' & _).
  exists pn'. split; [done|]. by rewrite (isParentNode_kind pn pn').
Qed.

Lemma freshNode_valuesOk p n : freshNode n -> valuesOk p n.
Proof.
  intros (Hv & Hh & _). split.
  - intros v. by rewrite Hv.
  - intros h Hh'. destruct Hh as [Hh|Hh]; rewrite Hh in Hh'; [done|].
    injection Hh' as <-. lia.
Qed.

(** ** The builder *)

Lemma knownElement_all es :
  (fix all (es : list Element) : bool :=
     match es with
     | [] => true
     | e' :: es' => knownElement e' && all es'
     end) es = forallb knownElement es.
Proof. induction es as [|e es IH]; [done|]. simpl. by rewrite IH. Qed.

Lemma built_leaf parent idx p n :
  parentNode n = parent -> parentIndex n = idx -> freshNode n -> childs n = [] ->
  built parent idx p (alloc n p).
Proof.
  intros Hp Hi Hf Hc. exists [n], n. split; [done|]. split; [done|].
  split; [done|]. split; [done|]. split.
  - intros [|q] n' Hq; [|done]. injection Hq as <-. split; [done|].
    intros i c Hic. rewrite Hc in Hic. by rewrite lookup_nil in Hic.
  - by intros q n' Hq.
Qed.

Lemma elementsBuilt_nil owner i p : elementsBuilt [] owner i p (Ok ([], p)).
Proof.
  exists [], []. rewrite app_nil_r, setNodes_id. split; [done|]. split; [done|].
  split; [by intros k c Hk|]. split; by intros q n Hq.
Qed.

Lemma elementsBuilt_cons e es owner i p res1 (rest : Parser -> Res (list NodeRef * Parser)) :
  (if knownElement e then built (Some owner) i p res1
   else res1 = Throw "unknow element in chain") ->
  (forall p1, elementsBuilt es owner (S i) p1 (rest p1)) ->
  elementsBuilt (e :: es) owner i p
    (match res1 with
     | Ok (c, p1) =>
         match rest p1 with
         | Ok (cs, p2) => Ok (c :: cs, p2)
         | Throw msg => Throw msg
         end
     | Throw msg => Throw msg
     end).
Proof.
  unfold elementsBuilt. simpl. intros He Hes.
  destruct (knownElement e); simpl; [|by rewrite He].
  destruct He as (new1 & n & -> & Hn & Hp & Hi & Hfresh1 & Hroot1).
  specialize (Hes (setNodes (nodes p ++ new1) p)).
  destruct (forallb knownElement es); [|by rewrite Hes].
  destruct Hes as (new2 & cs & -> & Hlen & Hcs & Hfresh2 & Hroot2). simpl in *.
  set (ns := nodes p) in *.
  change (setNodes ((ns ++ new1) ++ new2) (setNodes (ns ++ new1) p))
    with (setNodes ((ns ++ new1) ++ new2) p) in *.
  assert (Hst : linksStable (setNodes (ns ++ new1) p) (setNodes ((ns ++ new1) ++ new2) p)).
  { by apply linksStable_app. }
  exists (new1 ++ new2), (length ns :: cs). rewrite !app_assoc.
  split; [done|]. split; [simpl; by rewrite Hlen|]. split; [|split].
  - intros [|k] c Hk; simpl in Hk.
    + injection Hk as <-. split; [done|]. exists n. split; [|split; [done|lia]].
      apply lookup_app_l_Some. by rewrite lookup_app_r, Nat.sub_diag.
    + destruct (Hcs k c Hk) as (Hle & cn & Hcn & Hpc & Hic).
      split; [rewrite length_app in Hle; lia|]. exists cn.
      split; [done|]. split; [done|]. lia.
  - intros q n' Hq. destruct (decide (q < length new1)) as [Hlt|Hge].
    + rewrite lookup_app_l in Hq by done. destruct (Hfresh1 q n' Hq) as [Hf Hl].
      split; [done|]. by eapply childrenLinked_stable.
    + rewrite lookup_app_r in Hq by lia. destruct (Hfresh2 _ n' Hq) as [Hf Hl].
      split; [done|]. rewrite length_app in Hl.
      by replace (length ns + q) with (length ns + length new1 + (q - length new1)) by lia.
  - intros q n' Hq. destruct (decide (q < length new1)) as [Hlt|Hge].
    + rewrite lookup_app_l in Hq by done. destruct q as [|q].
      * left. congruence.
      * right. eapply rooted_stable; [by eapply Hroot1|done].
    + rewrite lookup_app_r in Hq by lia. by eapply Hroot2.
Qed.

(** An array or chain node whose children have been created and stored. *)
Lemma built_parent p owner owner' new cs parent idx :
  kindOf owner' = kindOf owner -> isParentNode owner = true ->
  parentNode owner = parent -> parentIndex owner = idx ->
  parentNode owner' = parent -> parentIndex owner' = idx ->
  freshNode owner' -> childs owner' = Some <$> cs ->
  (forall k c, cs !! k = Some c ->
     length (nodes p ++ [owner]) <= c /\
     exists cn, ((nodes p ++ [owner]) ++ new) !! c = Some cn /\
                parentNode cn = Some (length (nodes p)) /\ parentIndex cn = 0 + k) ->
  (forall q n', new !! q = Some n' ->
     freshNode n' /\
     childrenLinked (setNodes ((nodes p ++ [owner]) ++ new) p)
       (length (nodes p ++ [owner]) + q) n') ->
  (forall q n', new !! q = Some n' ->
     parentNode n' = Some (length (nodes p)) \/
     rooted (setNodes ((nodes p ++ [owner]) ++ new) p) n') ->
  built parent idx p (Ok (length (nodes p), setNodes (nodes p ++ owner' :: new) p)).
Proof.
  intros Hk Hkind Hp Hi Hp' Hi' Hf Hc Hcs Hfresh Hroot. unfold built.
  set (ns := nodes p) in *.
  set (p1 := setNodes ((ns ++ [owner]) ++ new) p) in *.
  set (p2 := setNodes (ns ++ owner' :: new) p).
  assert (Hp2 : p2 = putNode (length ns) owner' p1).
  { unfold p2, p1, putNode, setNodes. simpl.
    by rewrite <- app_assoc, insert_app_r_alt, Nat.sub_diag. }
  assert (Hown : getNode (length ns) p1 = Some owner).
  { unfold p1. by rewrite getNode_setNodes, <- app_assoc, lookup_app_r, Nat.sub_diag. }
  assert (Hst : linksStable p1 p2).
  { rewrite Hp2. eapply linksStable_putNode; [done|done|congruence|congruence]. }
  assert (Hown' : getNode (length ns) p2 = Some owner').
  { unfold p2. by rewrite getNode_setNodes, lookup_app_r, Nat.sub_diag. }
  exists (owner' :: new), owner'. split; [done|]. split; [done|].
  split; [done|]. split; [done|]. split.
  - intros [|q] n' Hq; simpl in Hq.
    + injection Hq as <-. split; [done|]. intros i c Hic. rewrite Hc in Hic.
      assert (Hci : cs !! i = Some c).
      { rewrite list_lookup_fmap in Hic. destruct (cs !! i); simpl in Hic; by simplify_eq. }
      destruct (Hcs i c Hci) as (Hle & cn & Hcn & Hpc & Hic').
      rewrite length_app in Hle. simpl in Hle. split; [lia|].
      destruct (Hst c cn) as (cn' & Hcn' & _ & Hp2' & Hi2'); [done|].
      exists cn'. split; [done|]. simpl in Hic'. rewrite Nat.add_0_r.
      split; [by rewrite Hp2'|by rewrite Hi2'].
    + destruct (Hfresh q n' Hq) as [Hfn Hl]. split; [done|].
      rewrite length_app in Hl. simpl in Hl.
      replace (length ns + S q) with (length ns + 1 + q) by lia.
      by eapply childrenLinked_stable.
  - intros q n' Hq. simpl in Hq. destruct (Hroot q n' Hq) as [Hpn|Hr].
    + unfold rooted. rewrite Hpn. exists owner'. split; [done|].
      by rewrite (isParentNode_kind owner owner').
    + by eapply rooted_stable.
Qed.

(** The builder in full: an element of known shape becomes fresh nodes at the
    end of the store, the first of them the node returned; any other element
    makes the build throw. *)
Lemma createNodeByElement_spec : forall element parent parentIdx p,
  if knownElement element
  then built parent parentIdx p (createNodeByElement element parent parentIdx p)
  else createNodeByElement element parent parentIdx p = Throw "unknow element in chain".
Proof.
  fix IH 1. intros element parent parentIdx p.
  assert (Hmap : forall es,
             (fix all (l : list Element) : Prop :=
                match l with
                | [] => True
                | e :: l' =>
                    (forall parent idx p,
                        if knownElement e
                        then built parent idx p (createNodeByElement e parent idx p)
                        else createNodeByElement e parent idx p
                             = Throw "unknow element in chain")
                    /\ all l'
                end) es ->
             forall owner i p,
               elementsBuilt es owner i p
                 ((fix mapElements (es : list Element) (owner : NodeRef) (i : nat)
                     : Build (list NodeRef) :=
                     match es with
                     | [] => ret []
                     | e :: es' =>
                         c <- createNodeByElement e (Some owner) i ;;
                         cs <- mapElements es' owner (S i) ;;
                         ret (c :: cs)
                     end) es owner i p)).
  { clear. induction es as [|e es IHes]; intros Hall owner i p.
    - apply elementsBuilt_nil.
    - destruct Hall as [He Hes].
      pose proof (elementsBuilt_cons e es owner i p
                    (createNodeByElement e (Some owner) i p) _
                    (He (Some owner) i p) (fun p1 => IHes Hes owner (S i) p1)) as H.
      unfold bind, ret.
      destruct (createNodeByElement e (Some owner) i p) as [[c p1]|]; [|exact H].
      simpl in H |- *. unfold bind, ret in H.
      match goal with
      | |- elementsBuilt _ _ _ _ (match ?X with _ => _ end) =>
          match type of H with
          | elementsBuilt _ _ _ _ (match ?Y with _ => _ end) =>
              change X with Y; destruct Y as [[cs p2]|]; exact H
          end
      end. }
  assert (Hall : forall es,
             (fix all (l : list Element) : Prop :=
                match l with
                | [] => True
                | e :: l' =>
                    (forall parent idx p,
                        if knownElement e
                        then built parent idx p (createNodeByElement e parent idx p)
                        else createNodeByElement e parent idx p
                             = Throw "unknow element in chain")
                    /\ all l'
                end) es).
  { fix IHl 1. intros [|e es]; [exact I|]. split; [apply IH|apply IHl]. }
  destruct element as [s|b|name displayName fn|es solveAst isPlus|name|es|].
  - by apply built_leaf; [| |repeat split; auto|].
  - destruct b; by apply built_leaf; [| |repeat split; auto|].
  - by apply built_leaf; [| |repeat split; auto|].
  - (* a chain made in place *)
    pose proof (Hmap es (Hall es) (length (nodes p)) 0
                  (setNodes (nodes p ++ [freshChainNode parent None solveAst parentIdx]) p))
      as Hes.
    clear Hmap Hall.
    simpl. rewrite knownElement_all. unfold bind, alloc, solveDirectLeftRecursion.
    unfold elementsBuilt, bind in Hes. simpl in Hes.
    destruct (forallb knownElement es); [|by rewrite Hes].
    destruct Hes as (new & cs & -> & Hlen & Hcs & Hfresh & Hroot). simpl.
    set (owner := freshChainNode parent None solveAst parentIdx) in *.
    set (ns := nodes p) in *.
    change (setNodes ((ns ++ [owner]) ++ new) (setNodes (ns ++ [owner]) p))
      with (setNodes ((ns ++ [owner]) ++ new) p) in *.
    assert (Hget : forall o', (ns ++ [o'] ++ new) !! length ns = Some o').
    { intros o'. by rewrite lookup_app_r, Nat.sub_diag. }
    assert (Hput : forall o o', <[length ns := o']> (ns ++ [o] ++ new) = ns ++ [o'] ++ new).
    { intros o o'. by rewrite insert_app_r_alt, Nat.sub_diag. }
    rewrite <- app_assoc.
    rewrite (modifyNode_setNodes _ _ _ owner), Hput by apply Hget.
    destruct isPlus; unfold ret.
    + unfold setIsPlus. rewrite (modifyNode_setNodes _ _ _ _ _ (Hget _)), Hput.
      eapply (built_parent p owner); try done. by repeat split; auto.
    + eapply (built_parent p owner); try done. by repeat split; auto.
  - by apply built_leaf; [| |repeat split; auto|].
  - (* an array *)
    pose proof (Hmap es (Hall es) (length (nodes p)) 0
                  (setNodes (nodes p ++ [NTree (mkTreeNode parent [] 0 None parentIdx)]) p))
      as Hes.
    clear Hmap Hall.
    simpl. rewrite knownElement_all. unfold bind, alloc.
    unfold elementsBuilt, bind in Hes. simpl in Hes.
    destruct (forallb knownElement es); [|by rewrite Hes].
    destruct Hes as (new & cs & -> & Hlen & Hcs & Hfresh & Hroot). simpl.
    set (owner := NTree (mkTreeNode parent [] 0 None parentIdx)) in *.
    set (ns := nodes p) in *.
    change (setNodes ((ns ++ [owner]) ++ new) (setNodes (ns ++ [owner]) p))
      with (setNodes ((ns ++ [owner]) ++ new) p) in *.
    assert (Hget : forall o', (ns ++ [o'] ++ new) !! length ns = Some o').
    { intros o'. by rewrite lookup_app_r, Nat.sub_diag. }
    assert (Hput : forall o o', <[length ns := o']> (ns ++ [o] ++ new) = ns ++ [o'] ++ new).
    { intros o o'. by rewrite insert_app_r_alt, Nat.sub_diag. }
    rewrite <- app_assoc.
    rewrite (modifyNode_setNodes _ _ _ owner), Hput by apply Hget.
    unfold ret. eapply (built_parent p owner); try done. by repeat split; auto.
  - reflexivity.
Qed.

(** ** The graph invariant and the builder *)

Lemma graphOk_linked p : graphOk p -> linked p.
Proof. intros H q n Hn. by destruct (H q n Hn). Qed.

Lemma valuesOk_frame p p' n : p_version p' = p_version p -> valuesOk p n -> valuesOk p' n.
Proof. intros Hv [H1 H2]. split; [|done]. intros v. rewrite Hv. apply H1. Qed.

Lemma graphOk_frame p p' :
  nodes p' = nodes p -> p_version p' = p_version p -> graphOk p -> graphOk p'.
Proof.
  intros Hn Hv H q n Hq.
  assert (Hs : linksStable p p') by by apply linksStable_nodes.
  unfold getNode in Hq. rewrite Hn in Hq. destruct (H q n Hq) as (Hl & Hr & Hvals).
  split; [by eapply childrenLinked_stable|].
  split; [by eapply rooted_stable|by eapply valuesOk_frame].
Qed.

Lemma isMatchRef_frame p p' r : nodes p' = nodes p -> isMatchRef p r -> isMatchRef p' r.
Proof. intros Hn [m Hm]. exists m. unfold getNode in *. by rewrite Hn. Qed.

Lemma isMatchRef_stable p p' r : matchStable p p' -> isMatchRef p r -> isMatchRef p' r.
Proof. intros Hs [m Hm]. exists m. by apply Hs. Qed.

Lemma firstSetsOk_stable p p' :
  firstSet p' = firstSet p -> matchStable p p' -> firstSetsOk p -> firstSetsOk p'.
Proof.
  intros Hf Hs H name rs r Hrs Hr. rewrite Hf in Hrs.
  eapply isMatchRef_stable; [done|]. by eapply H.
Qed.

(** A graph that satisfies the invariant still does after an element has
    been built into it, provided the first new node is rooted. *)
Lemma graphOk_built parent idx p r p' :
  graphOk p -> built parent idx p (Ok (r, p')) ->
  (forall n, getNode (length (nodes p)) p' = Some n -> rooted p' n) ->
  graphOk p'.
Proof.
  intros Hg (new & n & Heq & Hn & Hp & Hi & Hfresh & Hroot) Hfirst.
  injection Heq as -> ->.
  assert (Hs : linksStable p (setNodes (nodes p ++ new) p)) by by apply linksStable_app.
  intros q nq Hq. rewrite getNode_setNodes in Hq.
  destruct (decide (q < length (nodes p))) as [Hlt|Hge].
  - rewrite lookup_app_l in Hq by done. destruct (Hg q nq Hq) as (Hl & Hr & Hv).
    split; [by eapply childrenLinked_stable|]. split; [by eapply rooted_stable|done].
  - assert (Hq' : new !! (q - length (nodes p)) = Some nq).
    { by rewrite lookup_app_r in Hq by lia. }
    destruct (Hfresh _ _ Hq') as [Hf Hl].
    replace (length (nodes p) + (q - length (nodes p))) with q in Hl by lia.
    split; [done|]. split; [|by apply freshNode_valuesOk].
    destruct (q - length (nodes p)) as [|d] eqn:E.
    + apply Hfirst. assert (q = length (nodes p)) as -> by lia.
      by rewrite getNode_setNodes, lookup_app_r, Nat.sub_diag.
    + by eapply Hroot.
Qed.

(** ** FIRST sets *)

Lemma linked_frame p p' : nodes p' = nodes p -> linked p -> linked p'.
Proof.
  intros Hn H q n Hq. unfold getNode in Hq. rewrite Hn in Hq.
  eapply childrenLinked_stable; [by apply H|by apply linksStable_nodes].
Qed.

Lemma onlyRelated_refl p : onlyRelated p p.
Proof. by repeat split. Qed.

Lemma onlyRelated_trans p1 p2 p3 :
  onlyRelated p1 p2 -> onlyRelated p2 p3 -> onlyRelated p1 p3.
Proof.
  intros (H1 & H2 & H3 & H4 & H5) (K1 & K2 & K3 & K4 & K5).
  repeat split; congruence.
Qed.

(** Collecting the FIRST candidates of a node of a linked graph returns, with
    one level of descent per stored node; it touches nothing but the table of
    related names, and the nodes it returns are match nodes. *)
Lemma getFirstOrFunctionSet_spec depth : forall node functionName p,
  linked p -> is_Some (getNode node p) -> length (nodes p) < depth + node ->
  exists r p',
    getFirstOrFunctionSet depth node functionName p = Ok (r, p') /\
    onlyRelated p p' /\
    forall l x, r = Some l -> FMatch x ∈ l -> isMatchRef p x.
Proof.
  induction depth as [|depth IH]; intros node functionName p Hl [n Hn] Hd.
  { apply lookup_lt_Some in Hn. simpl in Hd. lia. }
  assert (Hred : forall cs all p0,
             linked p0 -> length (nodes p0) < S depth + node ->
             (forall c, Some c ∈ cs -> node < c /\ is_Some (getNode c p0)) ->
             (forall x, FMatch x ∈ all -> isMatchRef p0 x) ->
             exists r p',
               (fix reduce (cs : list (option NodeRef)) (all : list FirstOrFunctionSet)
                  : Build (option (list FirstOrFunctionSet)) :=
                  match cs with
                  | [] => ret (Some all)
                  | None :: cs' => reduce cs' all
                  | Some child :: cs' =>
                      r <- getFirstOrFunctionSet depth child functionName ;;
                      reduce cs' (concatResult all r)
                  end) cs all p0 = Ok (r, p') /\
               onlyRelated p0 p' /\
               forall l x, r = Some l -> FMatch x ∈ l -> isMatchRef p0 x).
  { clear p Hl Hn Hd n.
    induction cs as [|[child|] cs IHcs]; intros all p0 Hl Hd Hcs Hall.
    - eexists _, _. split; [done|]. split; [apply onlyRelated_refl|].
      intros l x [= <-]. apply Hall.
    - destruct (Hcs child) as [Hlt Hex]; [left|].
      destruct (IH child functionName p0 Hl Hex) as (r & p1 & Hr & Hrel & Hent); [lia|].
      unfold bind. rewrite Hr.
      destruct Hrel as (Hn1 & Hrest).
      destruct (IHcs (concatResult all r) p1) as (r2 & p2 & Hr2 & Hrel2 & Hent2).
      + by eapply linked_frame.
      + by rewrite Hn1.
      + intros c Hc. destruct (Hcs c) as [Hlt' [cn Hcn]]; [by right|].
        split; [done|]. exists cn. unfold getNode in *. by rewrite Hn1.
      + intros x Hx. eapply isMatchRef_frame; [done|].
        destruct r as [l|]; simpl in Hx; apply elem_of_app in Hx as [Hx|Hx]; eauto.
        by apply list_elem_of_singleton in Hx.
      + exists r2, p2. split; [done|]. split.
        * eapply onlyRelated_trans; [|done]. by split.
        * intros l x Hl2 Hx. eapply isMatchRef_frame; [symmetry; exact Hn1|]. eauto.
    - apply IHcs; try done. intros c Hc. apply Hcs. by right. }
  simpl. rewrite Hn. destruct n as [m|f|t|c].
  - eexists _, _. split; [done|]. split; [apply onlyRelated_refl|].
    intros l x [= <-] Hx. apply list_elem_of_singleton in Hx. injection Hx as ->.
    by exists m.
  - eexists _, _. split; [done|]. split; [by repeat split|].
    intros l x [= <-] Hx. by apply list_elem_of_singleton in Hx.
  - apply Hred; [done|done| |].
    + intros c Hc. apply list_elem_of_lookup in Hc as [i Hi].
      destruct (Hl node (NTree t) Hn i c Hi) as (Hlt & cn & Hcn & _). eauto.
    + intros x Hx. by apply elem_of_nil in Hx.
  - destruct (cn_childs c !! 0) as [[child|]|] eqn:Hc; simpl.
    + destruct (Hl node (NChain c) Hn 0 child Hc) as (Hlt & cn & Hcn & _).
      apply IH; [done|by exists cn|lia].
    + eexists _, _. split; [done|]. split; [apply onlyRelated_refl|]. by intros l x.
    + eexists _, _. split; [done|]. split; [apply onlyRelated_refl|]. by intros l x.
Qed.

Lemma replaceSolved_entries fs l : forall acc x,
  FMatch x ∈ foldl (replaceSolved fs) acc l ->
  FMatch x ∈ acc \/ FMatch x ∈ l \/ exists name solved, fs !! name = Some solved /\ x ∈ solved.
Proof.
  induction l as [|e l IH]; intros acc x Hx; simpl in Hx; [by left|].
  destruct (IH _ _ Hx) as [Hacc|[Hl|Hfs]]; [|right; left; by right|by right; right].
  unfold replaceSolved in Hacc. destruct e as [r|name|].
  - apply elem_of_app in Hacc as [H|H]; [by left|]. right. left.
    apply list_elem_of_singleton in H. rewrite H. by left.
  - destruct (fs !! name) as [solved|] eqn:Hs.
    + apply elem_of_app in Hacc as [H|H]; [by left|]. right. right.
      apply list_elem_of_fmap in H as (y & [= ->] & Hy). eauto.
    + apply elem_of_app in Hacc as [H|H]; [by left|].
      by apply list_elem_of_singleton in H.
  - apply elem_of_app in Hacc as [H|H]; [by left|].
    by apply list_elem_of_singleton in H.
Qed.

Lemma matchEntries_elem x l : x ∈ matchEntries l -> FMatch x ∈ l.
Proof.
  unfold matchEntries. intros H. apply list_elem_of_omap in H as (e & He & Hx).
  destruct e; simplify_eq. done.
Qed.

Lemma onlyTables_refl p : onlyTables p p.
Proof. by repeat split. Qed.

Lemma onlyTables_trans p1 p2 p3 : onlyTables p1 p2 -> onlyTables p2 p3 -> onlyTables p1 p3.
Proof.
  intros (H1 & H2 & H3 & H4) (K1 & K2 & K3 & K4).
  split; [congruence|]. split; [congruence|]. split; [congruence|]. auto.
Qed.

Lemma onlyRelated_onlyTables p p' : onlyRelated p p' -> onlyTables p p'.
Proof.
  intros (H1 & H2 & H3 & H4 & H5). split; [done|]. split; [done|]. split; [done|].
  intros name rs. by rewrite H4.
Qed.

(** Resolving a rule: the graph is left alone, no published FIRST set is
    changed, and what is published are match nodes.  It throws exactly on a
    rule without published set whose candidates are missing. *)
Lemma solveFirstSet_spec functionName p :
  firstSetsOk p ->
  (forall l x, firstOrFunctionSet p !! functionName = Some (Some l) ->
               FMatch x ∈ l -> isMatchRef p x) ->
  match solveFirstSet functionName p with
  | Ok (_, p') => onlyTables p p' /\ firstSetsOk p'
  | Throw msg =>
      msg = "TypeError: Cannot read properties of undefined (reading 'reduce')" /\
      firstSet p !! functionName = None /\
      (firstOrFunctionSet p !! functionName = None \/
       firstOrFunctionSet p !! functionName = Some None)
  end.
Proof.
  intros Hfs Htab. unfold solveFirstSet.
  assert (Hfold : forall (l : list string) (q : Parser),
             foldl (fun (q0 : Parser) (_ : string) => q0) q l = q).
  { induction l; simpl; auto. }
  case_bool_decide as Hhas; [split; [apply onlyTables_refl|done]|].
  assert (Hnone : firstSet p !! functionName = None).
  { destruct (firstSet p !! functionName) eqn:E; [|done]. destruct Hhas. eauto. }
  destruct (firstOrFunctionSet p !! functionName) as [[l|]|] eqn:Hl; [|by auto|by auto].
  set (new := foldl (replaceSolved (firstSet p)) [] l).
  destruct (forallb isMatchEntry new) eqn:Hall.
  - match goal with
    | |- match (match ?X with _ => _ end) with _ => _ end =>
        assert (Hres : forall q, (match X with
                                  | Some names => Ok (tt, foldl (fun q0 _ => q0) q names)
                                  | None => Ok (tt, q)
                                  end : Res (unit * Parser)) = Ok (tt, q))
    end.
    { intros q. simpl. destruct (relatedSet p !! functionName); by rewrite ?Hfold. }
    simpl. rewrite Hres. split.
    + split; [done|]. split; [done|]. split; [done|]. simpl.
      intros name rs Hrs. rewrite lookup_insert_ne; [done|]. congruence.
    + intros name rs r. simpl.
      destruct (decide (name = functionName)) as [->|Hne].
      * rewrite lookup_insert_eq. intros [= <-] Hr.
        apply matchEntries_elem in Hr.
        destruct (replaceSolved_entries _ _ _ _ Hr) as [H|[H|(nm & solved & Hs & Hx)]].
        -- by apply elem_of_nil in H.
        -- destruct (Htab l r eq_refl H) as [m Hm]. by exists m.
        -- destruct (Hfs nm solved r Hs Hx) as [m Hm]. by exists m.
      * rewrite lookup_insert_ne by done. intros Hrs Hr.
        destruct (Hfs name rs r Hrs Hr) as [m Hm]. by exists m.
  - split; [by repeat split|].
    intros name rs r Hrs Hr. destruct (Hfs name rs r Hrs Hr) as [m Hm]. by exists m.
Qed.

Lemma firstSetsOk_frame p p' :
  nodes p' = nodes p -> firstSet p' = firstSet p -> firstSetsOk p -> firstSetsOk p'.
Proof.
  intros Hn Hf H name rs r Hrs Hr. rewrite Hf in Hrs.
  eapply isMatchRef_frame; [done|]. by eapply H.
Qed.

(** Generating the FIRST set of a rule whose chain is in a linked graph:
    it can fail only at [reduce], and otherwise leaves the graph and every
    published FIRST set as they are. *)
Lemma generateFirstSet_spec node functionName p :
  linked p -> firstSetsOk p -> is_Some (getNode node p) ->
  match generateFirstSet node functionName p with
  | Ok (_, p') => onlyTables p p' /\ firstSetsOk p'
  | Throw msg =>
      msg = "TypeError: Cannot read properties of undefined (reading 'reduce')"
  end.
Proof.
  intros Hl Hfs Hex. unfold generateFirstSet.
  case_bool_decide as Hhas; [split; [apply onlyTables_refl|done]|].
  destruct (getFirstOrFunctionSet_spec (S (length (nodes p))) node functionName p Hl Hex)
    as (r & p1 & Hr & Hrel & Hent); [lia|].
  unfold bind. rewrite Hr.
  set (p2 := setFirstOrFunctionSet (<[functionName := r]> (firstOrFunctionSet p1)) p1).
  destruct Hrel as (Hn1 & Hv1 & Hroot1 & Hf1 & Ht1).
  assert (Hfs2 : firstSetsOk p2) by by apply (firstSetsOk_frame p).
  pose proof (solveFirstSet_spec functionName p2 Hfs2) as Hsolve.
  destruct (solveFirstSet functionName p2) as [[[] p3]|msg].
  - destruct Hsolve as [Htabs Hfs3].
    + intros l x Hlook Hx. simpl in Hlook. rewrite lookup_insert_eq in Hlook.
      injection Hlook as ->. eapply (isMatchRef_frame p); [done|]. by eapply Hent.
    + split; [|done]. eapply onlyTables_trans; [|exact Htabs].
      split; [done|]. split; [done|]. split; [done|]. intros name rs. simpl. by rewrite Hf1.
  - destruct Hsolve as [Hmsg _]; [|done].
    intros l x Hlook Hx. simpl in Hlook. rewrite lookup_insert_eq in Hlook.
    injection Hlook as ->. eapply (isMatchRef_frame p); [done|]. by eapply Hent.
Qed.

Lemma matchStable_app ns new p p' : nodes p = ns -> matchStable p (setNodes (ns ++ new) p').
Proof.
  intros <- r m Hr. rewrite getNode_setNodes. by apply lookup_app_l_Some.
Qed.

Lemma mapElements_spec chainNode es : forall i p,
  elementsBuilt es chainNode i p
    ((fix mapElements (es : list Element) (i : nat) : Build (list NodeRef) :=
        match es with
        | [] => ret []
        | e :: es' =>
            c <- createNodeByElement e (Some chainNode) i ;;
            cs <- mapElements es' (S i) ;;
            ret (c :: cs)
        end) es i p).
Proof.
  induction es as [|e es IHes]; intros i p.
  - apply elementsBuilt_nil.
  - pose proof (elementsBuilt_cons e es chainNode i p
                  (createNodeByElement e (Some chainNode) i p) _
                  (createNodeByElement_spec e (Some chainNode) i p)
                  (fun p1 => IHes (S i) p1)) as H.
    unfold bind, ret.
    destruct (createNodeByElement e (Some chainNode) i p) as [[c p1]|]; [|exact H].
    simpl in H |- *. unfold bind, ret in H.
    match goal with
    | |- elementsBuilt _ _ _ _ (match ?X with _ => _ end) =>
        match type of H with
        | elementsBuilt _ _ _ _ (match ?Y with _ => _ end) =>
            change X with Y; destruct Y as [[cs p2]|]; exact H
        end
    end.
Qed.

(** The factory made by [chain]: on a parser that satisfies the invariant
    and under an existing parent it either throws one of the two build errors
    or returns a new chain node at the end of the store, with the parent,
    name and position given, in a parser that satisfies the invariant again. *)
Lemma chainNodeFactory_spec elements solveAst parent functionName parentIdx p :
  wf p -> parentOk p parent ->
  match chainNodeFactory elements solveAst parent functionName parentIdx p with
  | Ok (r, p') =>
      r = length (nodes p) /\ wf p' /\ extended p p' /\
      exists c, getNode r p' = Some (NChain c) /\
                cn_parentNode c = parent /\ cn_parentIndex c = parentIdx /\
                cn_functionName c = functionName /\ freshNode (NChain c) /\
                length (cn_childs c) = length elements
  | Throw msg => buildError msg
  end.
Proof.
  intros [Hg Hfs] Hpar. unfold chainNodeFactory.
  unfold bind at 1. unfold alloc at 1. unfold bind at 1.
  set (owner := freshChainNode parent functionName solveAst parentIdx).
  set (ns := nodes p).
  pose proof (mapElements_spec (length ns) elements 0 (setNodes (ns ++ [owner]) p)) as Hes.
  unfold solveDirectLeftRecursion.
  unfold elementsBuilt in Hes.
  destruct (forallb knownElement elements).
  2:{ rewrite Hes. by left. }
  destruct Hes as (new & cs & -> & Hlen & Hcs & Hfresh & Hroot). simpl in Hcs, Hfresh, Hroot.
  change (setNodes ((ns ++ [owner]) ++ new) (setNodes (ns ++ [owner]) p))
    with (setNodes ((ns ++ [owner]) ++ new) p) in *.
  unfold bind at 1. unfold setChilds at 1.
  change (setNodes (nodes (setNodes (ns ++ [owner]) p) ++ new) (setNodes (ns ++ [owner]) p))
    with (setNodes ((ns ++ [owner]) ++ new) p).
  assert (Hget : forall o', (ns ++ [o'] ++ new) !! length ns = Some o').
  { intros o'. by rewrite lookup_app_r, Nat.sub_diag. }
  assert (Hput : forall o o', <[length ns := o']> (ns ++ [o] ++ new) = ns ++ [o'] ++ new).
  { intros o o'. by rewrite insert_app_r_alt, Nat.sub_diag. }
  rewrite <- app_assoc.
  rewrite (modifyNode_setNodes _ _ _ owner), Hput by apply Hget.
  set (owner' := withChilds (Some <$> cs) owner).
  set (p2 := setNodes (ns ++ [owner'] ++ new) p).
  assert (Hbuilt : built parent parentIdx p (Ok (length ns, p2))).
  { eapply (built_parent p owner); try done. by repeat split; auto. }
  assert (Hst : linksStable p p2) by by apply linksStable_app.
  assert (Hown : getNode (length ns) p2 = Some owner') by apply Hget.
  assert (Hg2 : graphOk p2).
  { eapply graphOk_built; [done|done|]. fold ns. rewrite Hown. intros n [= <-].
    unfold rooted. simpl. destruct parent as [par|]; [|done].
    destruct Hpar as (pn & Hpn & Hk). destruct (Hst par pn Hpn) as (pn' & Hpn' & Hk' & _).
    exists pn'. split; [done|]. by rewrite (isParentNode_kind pn pn'). }
  assert (Hfs2 : firstSetsOk p2).
  { apply (firstSetsOk_stable p); [done| |done]. by apply matchStable_app. }
  assert (Hext : extended p p2).
  { split; [by eexists|]. by repeat split. }
  assert (Hnode : exists c, owner' = NChain c /\
                cn_parentNode c = parent /\ cn_parentIndex c = parentIdx /\
                cn_functionName c = functionName /\ freshNode (NChain c) /\
                length (cn_childs c) = length elements).
  { eexists. split; [reflexivity|]. simpl. rewrite length_fmap.
    repeat split; auto. }
  unfold bind. destruct (truthyName functionName).
  - pose proof (generateFirstSet_spec (length ns) (default "" functionName) p2
                  (graphOk_linked _ Hg2) Hfs2 (ltac:(by rewrite Hown))) as Hgen.
    destruct (generateFirstSet _ _ p2) as [[[] p3]|msg]; [|by right].
    destruct Hgen as [(Hn3 & Hv3 & Hr3 & Hf3) Hfs3]. unfold ret.
    split; [done|]. split; [|split].
    + split; [|done]. by eapply graphOk_frame.
    + destruct Hext as ([new' Hnew] & Hv & Hr & Hf).
      split; [exists new'; congruence|]. split; [congruence|]. split; [congruence|].
      intros name rs Hrs. by apply Hf3, Hf.
    + destruct Hnode as (c & Hc & Hrest). exists c. split; [|done].
      unfold getNode in *. rewrite Hn3. by rewrite <- Hc.
  - unfold ret. split; [done|]. split; [done|]. split; [done|].
    destruct Hnode as (c & Hc & Hrest). exists c. split; [|done]. by rewrite <- Hc.
Qed.

Lemma runFunctionNode_spec g f p :
  wf p -> parentOk p (fn_parentNode f) ->
  match runFunctionNode g f p with
  | Ok (r, p') =>
      r = length (nodes p) /\ wf p' /\ extended p p' /\
      exists c, getNode r p' = Some (NChain c) /\
                cn_parentNode c = fn_parentNode f /\ cn_parentIndex c = fn_parentIndex f /\
                cn_functionName c = Some (fn_chainFunction f) /\ freshNode (NChain c) /\
                length (cn_childs c) = length (g (fn_chainFunction f)).1
  | Throw msg => buildError msg
  end.
Proof.
  intros Hwf Hpar. unfold runFunctionNode.
  destruct (g (fn_chainFunction f)) as [elements solveAst].
  by apply chainNodeFactory_spec.
Qed.

(** ** The invariant of a traversal *)

Lemma grows_refl p : grows p p.
Proof.
  split; [done|]. split; [lia|]. split; [|done]. intros r n Hn. exists n. by repeat split.
Qed.

Lemma grows_trans p1 p2 p3 : grows p1 p2 -> grows p2 p3 -> grows p1 p3.
Proof.
  intros (H1 & H2 & H3 & H4) (K1 & K2 & K3 & K4). split; [congruence|]. split; [lia|].
  split; [|by auto].
  intros r n Hn. destruct (H3 r n Hn) as (n2 & Hn2 & Hk & Hl).
  destruct (K3 r n2 Hn2) as (n3 & Hn3 & Hk3 & Hl3).
  exists n3. split; [done|]. split; [congruence|lia].
Qed.

Lemma grows_putNode r n n' p :
  getNode r p = Some n -> kindOf n' = kindOf n -> length (childs n) <= length (childs n') ->
  grows p (putNode r n' p).
Proof.
  intros Hn Hk Hl. split; [done|]. split; [simpl; lia|]. split; [|done].
  intros r' m Hm. destruct (decide (r = r')) as [<-|Hne].
  - exists n'. rewrite (getNode_putNode_eq r n n' p Hn). by simplify_eq.
  - exists m. by rewrite getNode_putNode_ne.
Qed.

Lemma grows_extended p p' : extended p p' -> grows p p'.
Proof.
  intros ([new Hn] & Hv & Hr & Hf). split; [done|]. split; [lia|]. split; [|done].
  intros r n Hr'. exists n. unfold getNode in *. rewrite Hn.
  split; [by apply lookup_app_l_Some|done].
Qed.

Lemma grows_getNewVersion p : grows p (getNewVersion p).2.
Proof.
  split; [done|]. split; [simpl; lia|]. split; [|done]. intros r n Hn. by exists n.
Qed.

Lemma chanceOk_grows p p' ch : grows p p' -> chanceOk p ch -> chanceOk p' ch.
Proof.
  intros (_ & _ & H & _) (n & Hn & Hk & Hh). destruct (H _ _ Hn) as (n' & Hn' & Hk' & Hl).
  exists n'. split; [done|]. rewrite (isParentNode_kind n n') by done. split; [done|lia].
Qed.

Lemma chances_grows p p' l : grows p p' -> Forall (chanceOk p) l -> Forall (chanceOk p') l.
Proof.
  intros Hg H. eapply Forall_impl; [exact H|]. intros ch. by apply chanceOk_grows.
Qed.

Lemma rootOk_grows p p' : grows p p' -> rootOk p -> rootOk p'.
Proof.
  intros (Hr & _ & H & _) (r & n & Hroot & Hn). destruct (H _ _ Hn) as (n' & Hn' & _).
  exists r, n'. split; [congruence|done].
Qed.

Lemma exists_grows p p' r : grows p p' -> is_Some (getNode r p) -> is_Some (getNode r p').
Proof.
  intros (_ & _ & H & _) [n Hn]. destruct (H _ _ Hn) as (n' & Hn' & _). by exists n'.
Qed.

Lemma sameShape_refl n : sameShape n n.
Proof. by repeat split. Qed.

(** Assigning to the traversal fields of a tree or chain node keeps the
    invariant, provided the values assigned are sound. *)
Lemma wf_putNode r n n' p :
  wf p -> getNode r p = Some n -> isParentNode n = true -> sameShape n n' ->
  valuesOk p n' -> wf (putNode r n' p).
Proof.
  intros [Hg Hfs] Hn Hkind (Hk & Hp & Hi & Hc) Hv.
  assert (Hs : linksStable p (putNode r n' p)) by by eapply linksStable_putNode.
  split.
  - intros q nq Hq. destruct (decide (r = q)) as [<-|Hne].
    + rewrite (getNode_putNode_eq r n n' p Hn) in Hq. injection Hq as <-.
      destruct (Hg r n Hn) as (Hl & Hr & _). split; [|split; [|done]].
      * eapply childrenLinked_stable; [|done]. intros i c. rewrite Hc. apply Hl.
      * eapply rooted_stable; [|done]. unfold rooted in *. rewrite Hp. by rewrite Hk.
    + rewrite getNode_putNode_ne in Hq by done. destruct (Hg q nq Hq) as (Hl & Hr & Hv').
      split; [by eapply childrenLinked_stable|]. split; [by eapply rooted_stable|done].
  - apply (firstSetsOk_stable p); [done| |done].
    eapply putNode_stable; [done|]. intros m ->. done.
Qed.

Lemma storeOk_putNode r n n' st :
  storeOk st -> getNode r (s_parser st) = Some n -> isParentNode n = true ->
  sameShape n n' -> valuesOk (s_parser st) n' ->
  storeOk (withParser (putNode r n' (s_parser st)) st).
Proof.
  intros (Hwf & Hroot & Hv & Hch) Hn Hkind Hs Hvals.
  assert (Hg : grows (s_parser st) (putNode r n' (s_parser st))).
  { destruct Hs as (Hk & _ & _ & Hc). eapply grows_putNode; [done|done|]. by rewrite Hc. }
  split; [by eapply wf_putNode|]. split; [by eapply rootOk_grows|].
  split; [done|]. simpl. by eapply chances_grows.
Qed.

Lemma pop_Some {A} (l : list A) x rest : pop l = Some (x, rest) -> l = rest ++ [x].
Proof.
  unfold pop. destruct (reverse l) as [|y r] eqn:E; [done|]. intros [= -> <-].
  rewrite <- (reverse_involutive l), E. by rewrite reverse_cons.
Qed.

Lemma someFirstMatch_ok l p : forall sc,
  (forall r, r ∈ l -> isMatchRef p r) -> exists b sc', someFirstMatch l p sc = Ok (b, sc').
Proof.
  induction l as [|r l IH]; intros sc H; simpl; [by eauto|].
  destruct (H r) as [m Hm]; [by left|]. rewrite Hm.
  destruct (mn_matchFunction m sc false) as [res sc'].
  destruct (matched res); [by eauto|]. apply IH. intros r' Hr'. apply H. by right.
Qed.

Lemma arraySet_lookup {A} (hole : A) i x l j :
  arraySet hole i x l !! j =
    if decide (j = i) then Some x
    else if decide (j < length l) then l !! j
    else if decide (j < i) then Some hole else None.
Proof.
  unfold arraySet. destruct (decide (i < length l)) as [Hi|Hi].
  - destruct (decide (j = i)) as [->|Hne].
    + by rewrite list_lookup_insert_eq.
    + rewrite list_lookup_insert_ne by done.
      destruct (decide (j < length l)); [done|].
      rewrite lookup_ge_None_2 by lia. by destruct (decide (j < i)); [lia|].
  - destruct (decide (j < length l)) as [Hj|Hj].
    + rewrite lookup_app_l by done. by destruct (decide (j = i)); [lia|].
    + rewrite lookup_app_r by lia.
      destruct (decide (j = i)) as [->|Hne].
      * rewrite lookup_app_r by (rewrite length_replicate; lia).
        by rewrite length_replicate, Nat.sub_diag.
      * destruct (decide (j < i)) as [Hlt|Hge].
        -- rewrite lookup_app_l by (rewrite length_replicate; lia).
           apply lookup_replicate_2. lia.
        -- apply lookup_ge_None_2. rewrite length_app, length_replicate. simpl. lia.
Qed.

Lemma arraySet_length {A} (hole : A) i x l :
  length (arraySet hole i x l) = Nat.max (length l) (S i).
Proof.
  unfold arraySet. destruct (decide (i < length l)).
  - rewrite length_insert. lia.
  - rewrite !length_app, length_replicate. simpl. lia.
Qed.

Lemma valuesOk_mono p p' n :
  (p_version p <= p_version p')%N -> valuesOk p n -> valuesOk p' n.
Proof. intros Hv [H1 H2]. split; [|done]. intros v Hn. specialize (H1 v Hn). lia. Qed.

Lemma wf_newVersion p : wf p -> wf (getNewVersion p).2.
Proof.
  intros [Hg Hfs]. split.
  - intros q n Hq. destruct (Hg q n Hq) as (Hl & Hr & Hv).
    split; [|split].
    + eapply childrenLinked_stable; [done|by apply linksStable_nodes].
    + eapply rooted_stable; [done|by apply linksStable_nodes].
    + eapply valuesOk_mono; [|done]. simpl. lia.
  - by apply (firstSetsOk_frame p).
Qed.

Lemma storeOk_newVersion st :
  storeOk st ->
  storeOk (withStoreVersion (getNewVersion (s_parser st)).1
             (withParser (getNewVersion (s_parser st)).2 st)).
Proof.
  intros (Hwf & Hroot & Hv & Hch). split; [by apply wf_newVersion|].
  split; [eapply rootOk_grows; [apply grows_getNewVersion|done]|]. split; [done|].
  simpl. eapply chances_grows; [|done]. apply (grows_getNewVersion (s_parser st)).
Qed.

Section StepOk.

Context {V : Type} (g : Grammar) (o : VisiterOption V).
Variable allowed : string -> Prop.

(** The callbacks: [onMatchNode] leaves the store's parser, version and
    chances alone and ends in [tryChances] or [visiterNextNode] on the node
    it was given; the others throw nothing but allowed errors. *)
Hypothesis onMatchNode_ok : forall r m st vars,
  s_parser (store (onMatchNode o r m st vars)) = s_parser st /\
  s_version (store (onMatchNode o r m st vars)) = s_version st /\
  restChances (store (onMatchNode o r m st vars)) = restChances st /\
  (control (onMatchNode o r m st vars) = TryChances r \/
   exists a, control (onMatchNode o r m st vars) = VisiterNextNode r a).
Hypothesis onCallVisiter_allowed : forall vars msg,
  callIfPresent (onCallVisiter o) vars = Throw msg -> allowed msg.
Hypothesis onVisiterNextNode_allowed : forall vars msg,
  callIfPresent (onVisiterNextNode o) vars = Throw msg -> allowed msg.
Hypothesis onSuccess_allowed : forall f p vars msg,
  onSuccess o = Some f -> rootOk p -> f p vars = Throw msg -> allowed msg.

Lemma stepOk_same c st (vars : V) :
  storeOk st -> controlOk (s_parser st) c -> (forall msg, c <> Thrown msg) ->
  stepOk allowed st (mkConfig c st vars).
Proof.
  intros Hst Hc Hn. split; [by split|]. split; [apply grows_refl|].
  intros msg Hm. simpl in Hm. by destruct (Hn msg).
Qed.

Lemma stepOk_allowed msg st (vars : V) :
  storeOk st -> allowed msg -> stepOk allowed st (mkConfig (Thrown msg) st vars).
Proof.
  intros Hst Ha. split; [by split|]. split; [apply grows_refl|].
  intros msg' [= <-]. by right.
Qed.

Lemma stepOk_putNode c r n n' st st' (vars : V) :
  storeOk st -> getNode r (s_parser st) = Some n -> isParentNode n = true ->
  sameShape n n' -> valuesOk (s_parser st) n' ->
  s_parser st' = putNode r n' (s_parser st) -> s_version st' = s_version st ->
  Forall (chanceOk (s_parser st')) (restChances st') ->
  controlOk (s_parser st') c -> (forall msg, c <> Thrown msg) ->
  stepOk allowed st (mkConfig c st' vars).
Proof.
  intros Hst Hn Hk Hs Hv Hp Hver Hch Hc Hnt.
  destruct (storeOk_putNode r n n' st Hst Hn Hk Hs Hv) as (Hwf & Hroot & Hv' & _).
  simpl in Hwf, Hroot, Hv'.
  split; [|split].
  - split; [|done]. unfold storeOk. simpl. rewrite Hp.
    split; [done|]. split; [done|]. split; [by rewrite Hver|]. by rewrite <- Hp.
  - simpl. rewrite Hp. destruct Hs as (Hk' & _ & _ & Hc').
    eapply grows_putNode; [done|done|]. by rewrite Hc'.
  - intros msg Hm. simpl in Hm. by destruct (Hnt msg).
Qed.

Lemma tryChances_ok node st (vars : V) :
  storeOk st -> stepOk allowed st (tryChances o node st vars).
Proof.
  intros Hst. pose proof (storeOk_newVersion st Hst) as Hst1.
  pose proof (grows_getNewVersion (s_parser st)) as Hg1.
  unfold tryChances.
  change (getNewVersion (s_parser st))
    with ((getNewVersion (s_parser st)).1, (getNewVersion (s_parser st)).2).
  cbv beta iota.
  set (v := (getNewVersion (s_parser st)).1) in *.
  set (p := (getNewVersion (s_parser st)).2) in *.
  set (st1 := withStoreVersion v (withParser p st)) in *.
  destruct (pop (restChances st1)) as [[ch rest]|] eqn:Hpop.
  - apply pop_Some in Hpop. simpl in Hpop.
    destruct Hst1 as (Hwf1 & Hroot1 & Hv1 & Hch1). simpl in Hv1, Hch1.
    rewrite Hpop, Forall_app, Forall_singleton in Hch1.
    destruct Hch1 as [Hrest (n & Hn & Hk & Hh)].
    change (s_parser st1) with p in *. rewrite Hn.
    unfold modifyNode. rewrite Hn.
    set (n' := withVersion v (withHeadIndex (ch_headIndex ch) n)).
    assert (Hs : sameShape n n') by (by destruct n).
    assert (Hvals : valuesOk p n').
    { destruct n; try done; split; simpl; intros ? [= <-]; try done; lia. }
    assert (Hgp : grows p (putNode (ch_node ch) n' p)).
    { destruct Hs as (Hk' & _ & _ & Hc'). eapply grows_putNode; [done|done|].
      by rewrite Hc'. }
    split; [|split].
    + split.
      * split; [by eapply wf_putNode|]. split; [by eapply rootOk_grows|].
        split; [done|]. simpl. by eapply chances_grows.
      * simpl. erewrite getNode_putNode_eq by done. split; [done|]. split; [lia|done].
    + simpl. eapply grows_trans; [exact Hg1|done].
    + intros msg Hm. discriminate.
  - split; [by split|]. split; [done|]. intros msg Hm. discriminate.
Qed.

Lemma resetParents_ok node v next st (vars : V) :
  storeOk st -> controlOk (s_parser st) (ResetParents node v next) ->
  stepOk allowed st (resetParentsHeadIndexAndVersion node v next st vars).
Proof.
  intros Hst ([n Hn] & Hv & Hnext). unfold resetParentsHeadIndexAndVersion. rewrite Hn.
  destruct (parentNode n) as [parent|] eqn:Hp; [|by apply stepOk_same].
  pose proof Hst as (Hwf & _ & _ & Hch). destruct (proj1 Hwf node n Hn) as (_ & Hr & _).
  unfold rooted in Hr. rewrite Hp in Hr. destruct Hr as (pn & Hpn & Hk). rewrite Hpn.
  assert (Hgo : forall pn', pn' = pn ->
            stepOk allowed st
              (mkConfig (ResetParents parent v next)
                 (withParser
                    (putNode parent
                       (withVersion v
                          (withHeadIndex (Nat.min (parentIndex n + 1) (length (childs pn'))) pn'))
                       (s_parser st)) st) vars)).
  { intros pn' ->.
    eapply (stepOk_putNode _ parent pn
              (withVersion v
                 (withHeadIndex (Nat.min (parentIndex n + 1) (length (childs pn))) pn))
              st _ vars Hst Hpn Hk).
    - by destruct pn.
    - destruct pn; try done; split; simpl; intros ? [= <-]; try done; lia.
    - done.
    - done.
    - simpl. eapply chances_grows; [|apply Hch].
      eapply grows_putNode; [done|by destruct pn|by destruct pn].
    - simpl. erewrite getNode_putNode_eq by done. split; [done|]. split; [done|].
      eapply exists_grows; [|done].
      eapply grows_putNode; [done|by destruct pn|by destruct pn].
    - done. }
  destruct pn as [m|f|t|c]; try done; by apply Hgo.
Qed.

Lemma stepOk_grows st st1 (cfg : Config V) :
  grows (s_parser st) (s_parser st1) -> stepOk allowed st1 cfg -> stepOk allowed st cfg.
Proof.
  intros Hg (Hc & Hg1 & Ht). split; [done|]. split; [|done]. by eapply grows_trans.
Qed.

Lemma storeOk_withScanner sc st : storeOk st -> storeOk (withScanner sc st).
Proof. done. Qed.

Lemma valuesOk_node st r n : storeOk st -> getNode r (s_parser st) = Some n ->
  valuesOk (s_parser st) n.
Proof. intros ((Hg & _) & _) Hn. by destruct (Hg r n Hn) as (_ & _ & Hv). Qed.

Lemma visiterNextNode_ok node a st (vars : V) :
  storeOk st -> is_Some (getNode node (s_parser st)) ->
  stepOk allowed st (visiterNextNode o node a st vars).
Proof.
  intros Hst [n Hn]. unfold visiterNextNode.
  destruct (callIfPresent (onVisiterNextNode o) vars) as [vars1|msg] eqn:Hcb.
  2:{ apply stepOk_allowed; [done|]. by eapply onVisiterNextNode_allowed. }
  rewrite Hn. destruct (parentNode n) as [parent|] eqn:Hp.
  - pose proof Hst as (Hwf & _ & _ & Hch). destruct (proj1 Hwf node n Hn) as (_ & Hr & _).
    unfold rooted in Hr. rewrite Hp in Hr. destruct Hr as (pn & Hpn & Hk). rewrite Hpn.
    pose proof (valuesOk_node st parent pn Hst Hpn) as Hvals.
    destruct pn as [m|f|t|c]; try done.
    + apply stepOk_same; [done| |done]. simpl. by rewrite Hpn.
    + destruct (cn_isPlus c && bool_decide (cn_headIndex c = length (cn_childs c))).
      * eapply (stepOk_putNode _ parent (NChain c) _ st _ vars1 Hst Hpn eq_refl);
          only 3: (simpl; reflexivity).
        -- by destruct (generateAst o), (cn_isPlus c).
        -- by destruct (generateAst o), (cn_isPlus c).
        -- done.
        -- simpl. apply Forall_app. split.
           ++ eapply chances_grows; [|done]. eapply grows_putNode; [done| |].
              ** by destruct (generateAst o), (cn_isPlus c).
              ** by destruct (generateAst o), (cn_isPlus c).
           ++ apply Forall_singleton. eexists. split; [by eapply getNode_putNode_eq|].
              simpl. split; [by destruct (generateAst o), (cn_isPlus c)|lia].
        -- simpl. by erewrite getNode_putNode_eq.
        -- done.
      * eapply (stepOk_putNode _ parent (NChain c) _ st _ vars1 Hst Hpn eq_refl);
          only 3: (simpl; reflexivity).
        -- by destruct (generateAst o), (cn_isPlus c).
        -- by destruct (generateAst o), (cn_isPlus c).
        -- done.
        -- simpl. eapply chances_grows; [|done]. eapply grows_putNode; [done| |].
           ++ by destruct (generateAst o), (cn_isPlus c).
           ++ by destruct (generateAst o), (cn_isPlus c).
        -- simpl. by erewrite getNode_putNode_eq.
        -- done.
  - destruct (Scan.isEnd (scanner st)); [|by apply stepOk_same].
    destruct (onSuccess o) as [f|] eqn:Hf; [|by apply stepOk_same].
    destruct (f (s_parser st) vars1) as [vars2|msg] eqn:Hcall; [by apply stepOk_same|].
    apply stepOk_allowed; [done|]. eapply onSuccess_allowed; [done| |done]. apply Hst.
Qed.

Lemma lookup_child cs h (child : NodeRef) :
  mjoin (cs !! h) = Some child -> cs !! h = Some (Some child) /\ h < length cs.
Proof.
  destruct (cs !! h) as [[c|]|] eqn:E; simpl; try done. intros [= ->].
  split; [done|]. by eapply lookup_lt_Some.
Qed.

Lemma child_exists st node n h child n' :
  storeOk st -> getNode node (s_parser st) = Some n ->
  childs n !! h = Some (Some child) ->
  is_Some (getNode child (putNode node n' (s_parser st))).
Proof.
  intros ((Hg & _) & _) Hn Hc. destruct (Hg node n Hn) as (Hl & _).
  destruct (Hl h child Hc) as (Hlt & cn & Hcn & _).
  rewrite getNode_putNode_ne by lia. by exists cn.
Qed.

Lemma visiterChain_ok node c st (vars : V) :
  storeOk st -> getNode node (s_parser st) = Some (NChain c) ->
  stepOk allowed st (visiterChain o node c st vars).
Proof.
  intros Hst Hn. unfold visiterChain.
  pose proof (valuesOk_node st node _ Hst Hn) as [Hver Hhead].
  assert (Hadv : forall sc,
             stepOk allowed st
               (match mjoin (cn_childs c !! cn_headIndex c) with
                | Some nextChild =>
                    mkConfig (Visiter nextChild)
                      (withParser
                         (putNode node (withHeadIndex (cn_headIndex c + 1) (NChain c))
                            (s_parser (withScanner sc st))) (withScanner sc st)) vars
                | None =>
                    mkConfig
                      (VisiterNextNode node
                         (if generateAst o then cn_solveAst c (cn_astResults c) else AstNull))
                      (withScanner sc st) vars
                end)).
  { intros sc. destruct (mjoin (cn_childs c !! cn_headIndex c)) as [child|] eqn:Hc.
    - apply lookup_child in Hc as [Hc Hlt].
      eapply (stepOk_putNode _ node (NChain c) _ st _ vars Hst Hn eq_refl);
        only 3: (simpl; reflexivity); try done.
      + split; [done|]. simpl. intros h [= <-]. lia.
      + simpl. eapply chances_grows; [|apply Hst]. by eapply grows_putNode.
      + simpl. by eapply (child_exists st node (NChain c)).
    - split; [|split; [apply grows_refl|done]]. split; [done|]. simpl. by rewrite Hn. }
  assert (Hsame : forall st0 : VisiterStore, withScanner (scanner st0) st0 = st0).
  { by intros []. }
  destruct (enableFirstSet o && truthyName (cn_functionName c)
            && bool_decide (cn_headIndex c = 0)).
  2:{ specialize (Hadv (scanner st)). by rewrite Hsame in Hadv. }
  destruct (firstSet (s_parser st) !! default "" (cn_functionName c)) as [rs|] eqn:Hrs.
  2:{ specialize (Hadv (scanner st)). by rewrite Hsame in Hadv. }
  destruct (someFirstMatch_ok rs (s_parser st) (scanner st)) as (b & sc & Hsome).
  { intros r Hr. destruct Hst as ((_ & Hfs) & _). by eapply Hfs. }
  rewrite Hsome. destruct b; [apply Hadv|].
  eapply (stepOk_putNode _ node (NChain c) _ st _ vars Hst Hn eq_refl);
    only 3: (simpl; reflexivity); try done.
  - split; [done|]. simpl. intros h [= <-]. lia.
  - simpl. eapply chances_grows; [|apply Hst]. by eapply grows_putNode.
Qed.

Lemma visiterTree_ok node t i st (vars : V) :
  storeOk st -> getNode node (s_parser st) = Some (NTree t) ->
  stepOk allowed st (visiterTree node t i st vars).
Proof.
  intros Hst Hn. unfold visiterTree.
  pose proof (valuesOk_node st node _ Hst Hn) as [Hver Hhead].
  set (st1 := if (Z.of_nat (tn_headIndex t) <? Z.of_nat (length (tn_childs t)) - 1)%Z
              then withRestChances
                     (push (mkChance node (tn_headIndex t + 1) i) (restChances st)) st
              else st).
  assert (Hp1 : s_parser st1 = s_parser st) by (unfold st1; by destruct (_ <? _)%Z).
  assert (Hv1 : s_version st1 = s_version st) by (unfold st1; by destruct (_ <? _)%Z).
  assert (Hch1 : Forall (chanceOk (s_parser st)) (restChances st1)).
  { unfold st1. destruct (_ <? _)%Z eqn:E; [|apply Hst]. simpl.
    apply Forall_app. split; [apply Hst|]. apply Forall_singleton.
    exists (NTree t). split; [done|]. split; [done|]. simpl.
    apply Z.ltb_lt in E. lia. }
  destruct (mjoin (tn_childs t !! tn_headIndex t)) as [child|] eqn:Hc.
  - apply lookup_child in Hc as [Hc Hlt].
    eapply (stepOk_putNode _ node (NTree t) _ st _ vars Hst Hn eq_refl);
      only 3: (simpl; by rewrite Hp1); try done.
    + split; [done|]. simpl. intros h [= <-]. lia.
    + simpl. eapply chances_grows; [|done]. rewrite Hp1. by eapply grows_putNode.
    + simpl. rewrite Hp1. by eapply (child_exists st node (NTree t)).
  - split; [|split].
    + split; [|done]. simpl. destruct Hst as (Hwf & Hroot & Hv & Hch).
      unfold storeOk. rewrite Hp1, Hv1. split; [done|]. split; [done|]. by split.
    + simpl. rewrite Hp1. apply grows_refl.
    + done.
Qed.

(** Splicing an expansion into its parent's child list keeps the invariant. *)
Lemma wf_splice p par pn r rn :
  wf p -> getNode par p = Some pn -> isParentNode pn = true ->
  getNode r p = Some rn -> parentNode rn = Some par -> par < r ->
  wf (putNode par (withChilds (arraySet None (parentIndex rn) (Some r) (childs pn)) pn) p).
Proof.
  intros [Hg Hfs] Hpn Hk Hrn Hp Hlt.
  set (cs := arraySet None (parentIndex rn) (Some r) (childs pn)).
  set (pn' := withChilds cs pn).
  assert (Hshape : kindOf pn' = kindOf pn /\ parentNode pn' = parentNode pn /\
                   parentIndex pn' = parentIndex pn /\ childs pn' = cs /\
                   version pn' = version pn /\ headIndex pn' = headIndex pn).
  { by destruct pn. }
  destruct Hshape as (Hk' & Hp' & Hi' & Hc' & Hv' & Hh').
  assert (Hs : linksStable p (putNode par pn' p)) by by eapply linksStable_putNode.
  split.
  - intros q nq Hq. destruct (decide (par = q)) as [<-|Hne].
    + rewrite (getNode_putNode_eq par pn pn' p Hpn) in Hq. injection Hq as <-.
      destruct (Hg par pn Hpn) as (Hl & Hr & Hvals). split; [|split].
      * intros i c Hic. rewrite Hc' in Hic. unfold cs in Hic.
        rewrite arraySet_lookup in Hic. repeat case_decide; try discriminate.
        -- subst i. injection Hic as <-. split; [done|]. exists rn.
           rewrite getNode_putNode_ne by lia. done.
        -- by eapply (childrenLinked_stable p _ par pn Hl Hs).
      * eapply rooted_stable; [|done]. unfold rooted in *. rewrite Hp'.
        destruct (parentNode pn); [done|]. congruence.
      * destruct Hvals as [H1 H2]. split.
        -- intros v. rewrite Hv'. apply H1.
        -- intros h. rewrite Hh', Hc'. intros Hh. specialize (H2 h Hh).
           unfold cs. rewrite arraySet_length. lia.
    + rewrite getNode_putNode_ne in Hq by done. destruct (Hg q nq Hq) as (Hl & Hr & Hv).
      split; [by eapply childrenLinked_stable|]. split; [by eapply rooted_stable|done].
  - apply (firstSetsOk_stable p); [done| |done].
    eapply putNode_stable; [done|]. intros m ->. done.
Qed.

Lemma visiterFunction_ok node f st (vars : V) :
  storeOk st -> getNode node (s_parser st) = Some (NFunction f) ->
  stepOk allowed st (visiterFunction g f st vars).
Proof.
  intros Hst Hn. pose proof Hst as (Hwf & Hroot & Hv & Hch).
  destruct (proj1 Hwf node _ Hn) as (_ & Hr & _). unfold rooted in Hr. simpl in Hr.
  destruct (fn_parentNode f) as [par|] eqn:Hpar; [|done].
  destruct Hr as (pn & Hpn & Hk).
  pose proof (runFunctionNode_spec g f (s_parser st) Hwf) as Hrun.
  unfold visiterFunction. rewrite Hpar in Hrun |- *.
  specialize (Hrun (ex_intro _ pn (conj Hpn Hk))).
  destruct (runFunctionNode g f (s_parser st)) as [[r p1]|msg].
  2:{ split; [by split|]. split; [apply grows_refl|]. intros msg' [= <-]. by left. }
  destruct Hrun as (-> & Hwf1 & Hext & c & Hc & Hcp & Hci & _).
  pose proof (grows_extended _ _ Hext) as Hg1.
  destruct (proj1 (proj2 (proj2 Hg1)) par pn Hpn) as (pn1 & Hpn1 & Hk1 & _).
  assert (Hkind1 : isParentNode pn1 = true) by by rewrite (isParentNode_kind pn pn1).
  assert (Hlt : par < length (nodes (s_parser st))) by by eapply lookup_lt_Some.
  simpl. rewrite Hpn1. simpl.
  assert (Hgo : stepOk allowed st
            (mkConfig (Visiter (length (nodes (s_parser st))))
               (withParser
                  (putNode par
                     (withChilds
                        (arraySet None (fn_parentIndex f)
                           (Some (length (nodes (s_parser st)))) (childs pn1)) pn1) p1)
                  st) vars)).
  { pose proof (wf_splice p1 par pn1 _ (NChain c) Hwf1 Hpn1 Hkind1 Hc Hcp Hlt) as Hwf2.
    simpl in Hwf2. rewrite Hci in Hwf2.
    assert (Hg2 : grows p1 (putNode par
                     (withChilds
                        (arraySet None (fn_parentIndex f)
                           (Some (length (nodes (s_parser st)))) (childs pn1)) pn1) p1)).
    { eapply grows_putNode; [done|by destruct pn1|].
      destruct pn1; try done; simpl; rewrite arraySet_length; lia. }
    assert (Hg : grows (s_parser st) (putNode par
                     (withChilds
                        (arraySet None (fn_parentIndex f)
                           (Some (length (nodes (s_parser st)))) (childs pn1)) pn1) p1))
      by by eapply grows_trans.
    split; [|split; [done|done]]. split.
    - split; [done|]. split; [by eapply rootOk_grows|]. split.
      + simpl. destruct Hext as (_ & Hve & _). congruence.
      + simpl. by eapply chances_grows.
    - simpl. rewrite getNode_putNode_ne by lia. by rewrite Hc. }
  by destruct pn1.
Qed.

Lemma resetHeadByVersion_shape n sv :
  sameShape n (resetHeadByVersion n sv).
Proof.
  unfold resetHeadByVersion. case_bool_decide; [|apply sameShape_refl]. by destruct n.
Qed.

Lemma resetHeadByVersion_values p n sv :
  (sv <= p_version p)%N -> valuesOk p n -> valuesOk p (resetHeadByVersion n sv).
Proof.
  intros Hsv Hv. unfold resetHeadByVersion. case_bool_decide; [|done].
  destruct n; try done; split; simpl; intros ? [= <-]; lia.
Qed.

Lemma visiter_ok node st (vars : V) :
  storeOk st -> is_Some (getNode node (s_parser st)) ->
  stepOk allowed st (visiter g o node st vars).
Proof.
  intros Hst [n Hn]. unfold visiter. rewrite Hn.
  destruct (callIfPresent (onCallVisiter o) vars) as [vars1|msg] eqn:Hcb.
  2:{ apply stepOk_allowed; [done|]. by eapply onCallVisiter_allowed. }
  pose proof (resetHeadByVersion_shape n (s_version st)) as Hshape.
  pose proof (valuesOk_node st node n Hst Hn) as Hvals.
  assert (Hsv : (s_version st <= p_version (s_parser st))%N).
  { destruct Hst as (_ & _ & -> & _). lia. }
  pose proof (resetHeadByVersion_values _ n _ Hsv Hvals) as Hvals'.
  assert (Hreset : isParentNode n = true ->
            storeOk (withParser (putNode node (resetHeadByVersion n (s_version st))
                                   (s_parser st)) st) /\
            grows (s_parser st)
              (putNode node (resetHeadByVersion n (s_version st)) (s_parser st))).
  { intros Hk. split; [by eapply storeOk_putNode|].
    destruct Hshape as (Hk' & _ & _ & Hc). eapply grows_putNode; [done|done|].
    by rewrite Hc. }
  destruct n as [m|f|t|c].
  - destruct (onMatchNode_ok node m st vars1) as (Hp & Hv & Hch & Hc).
    split; [|split].
    + split.
      * destruct Hst as (Hwf & Hroot & Hver & Hchs). unfold storeOk.
        rewrite Hp, Hv, Hch. split; [done|]. split; [done|]. by split.
      * rewrite Hp. destruct Hc as [->|[a ->]]; [done|]. simpl. by rewrite Hn.
    + rewrite Hp. apply grows_refl.
    + intros msg Hm. destruct Hc as [Hc|[a Hc]]; congruence.
  - by eapply visiterFunction_ok.
  - destruct Hreset as [Hst1 Hg1]; [done|].
    destruct (resetHeadByVersion (NTree t) (s_version st)) as [| |t'|] eqn:Hr;
      try by apply stepOk_same.
    eapply stepOk_grows; [|eapply visiterTree_ok; [exact Hst1|]]; [done|].
    simpl. by eapply getNode_putNode_eq.
  - destruct Hreset as [Hst1 Hg1]; [done|].
    destruct (resetHeadByVersion (NChain c) (s_version st)) as [| | |c'] eqn:Hr;
      try by apply stepOk_same.
    eapply stepOk_grows; [|eapply visiterChain_ok; [exact Hst1|]]; [done|].
    simpl. by eapply getNode_putNode_eq.
Qed.

(** One step keeps a sound configuration sound, only lets the parser grow,
    and throws nothing but build errors and allowed callback errors. *)
Lemma step_ok (cfg : Config V) :
  configOk cfg ->
  configOk (step g o cfg) /\
  grows (s_parser (store cfg)) (s_parser (store (step g o cfg))) /\
  forall msg, control (step g o cfg) = Thrown msg ->
    control cfg = Thrown msg \/ buildError msg \/ allowed msg.
Proof.
  intros [Hst Hc]. unfold step.
  destruct (control cfg) as [node|node a|node|node v next| |msg] eqn:Hctl.
  - destruct (visiter_ok node (store cfg) (closure cfg) Hst Hc) as (H1 & H2 & H3).
    split; [done|]. split; [done|]. intros msg Hm. right. by apply H3.
  - destruct (visiterNextNode_ok node a (store cfg) (closure cfg) Hst Hc) as (H1 & H2 & H3).
    split; [done|]. split; [done|]. intros msg Hm. right. by apply H3.
  - destruct (tryChances_ok node (store cfg) (closure cfg) Hst) as (H1 & H2 & H3).
    split; [done|]. split; [done|]. intros msg Hm. right. by apply H3.
  - destruct (resetParents_ok node v next (store cfg) (closure cfg) Hst Hc) as (H1 & H2 & H3).
    split; [done|]. split; [done|]. intros msg Hm. right. by apply H3.
  - split; [split; [done|by rewrite Hctl]|]. split; [apply grows_refl|].
    intros msg Hm. congruence.
  - split; [split; [done|by rewrite Hctl]|]. split; [apply grows_refl|].
    intros msg' Hm. left. congruence.
Qed.

Lemma steps_ok k : forall (cfg : Config V),
  configOk cfg ->
  configOk (steps g o k cfg) /\
  grows (s_parser (store cfg)) (s_parser (store (steps g o k cfg))) /\
  forall msg, control (steps g o k cfg) = Thrown msg ->
    control cfg = Thrown msg \/ buildError msg \/ allowed msg.
Proof.
  induction k as [|k IH]; intros cfg Hok.
  - split; [done|]. split; [apply grows_refl|]. intros msg Hm. by left.
  - simpl. destruct (step_ok cfg Hok) as (H1 & H2 & H3).
    destruct (IH (step g o cfg) H1) as (K1 & K2 & K3).
    split; [done|]. split; [by eapply grows_trans|].
    intros msg Hm. destruct (K3 msg Hm) as [Hs|Hs]; [by apply H3|by right].
Qed.

End StepOk.

(** ** The probe and the parse entry keep the invariant *)

Lemma probeOption_onMatchNode_ok r m st vars :
  s_parser (store (onMatchNode ProbeOption.option_ r m st vars)) = s_parser st /\
  s_version (store (onMatchNode ProbeOption.option_ r m st vars)) = s_version st /\
  restChances (store (onMatchNode ProbeOption.option_ r m st vars)) = restChances st /\
  (control (onMatchNode ProbeOption.option_ r m st vars) = TryChances r \/
   exists a, control (onMatchNode ProbeOption.option_ r m st vars) = VisiterNextNode r a).
Proof.
  simpl. unfold ProbeOption.onMatchNode. destruct (_ && _); simpl; eauto 10.
Qed.

Lemma parseOption_onMatchNode_ok t r m st vars :
  s_parser (store (onMatchNode (ParseOption.option_ t) r m st vars)) = s_parser st /\
  s_version (store (onMatchNode (ParseOption.option_ t) r m st vars)) = s_version st /\
  restChances (store (onMatchNode (ParseOption.option_ t) r m st vars)) = restChances st /\
  (control (onMatchNode (ParseOption.option_ t) r m st vars) = TryChances r \/
   exists a, control (onMatchNode (ParseOption.option_ t) r m st vars) = VisiterNextNode r a).
Proof.
  simpl. unfold ParseOption.onMatchNode.
  destruct (mn_matchFunction m (scanner st) true) as [res sc].
  destruct (negb (matched res)); simpl; eauto 10.
Qed.

Lemma probe_steps_ok g k cfg :
  configOk cfg ->
  configOk (steps g ProbeOption.option_ k cfg) /\
  grows (s_parser (store cfg)) (s_parser (store (steps g ProbeOption.option_ k cfg))) /\
  forall msg, control (steps g ProbeOption.option_ k cfg) = Thrown msg ->
    control cfg = Thrown msg \/ buildError msg.
Proof.
  intros Hok.
  destruct (steps_ok g ProbeOption.option_ (fun _ => False) probeOption_onMatchNode_ok)
    with (k := k) (cfg := cfg) as (H1 & H2 & H3); try done.
  split; [done|]. split; [done|]. intros msg Hm.
  destruct (H3 msg Hm) as [H|[H|[]]]; auto.
Qed.

Lemma onSuccess_rootOk p v : rootOk p -> exists v1, ParseOption.onSuccess p v = Ok v1.
Proof.
  intros (r & n & Hr & Hn). unfold ParseOption.onSuccess. rewrite Hr. simpl. rewrite Hn.
  destruct n; eauto.
Qed.

Lemma parse_steps_ok g t k cfg :
  configOk cfg ->
  configOk (steps g (ParseOption.option_ t) k cfg) /\
  grows (s_parser (store cfg)) (s_parser (store (steps g (ParseOption.option_ t) k cfg))) /\
  forall msg, control (steps g (ParseOption.option_ t) k cfg) = Thrown msg ->
    control cfg = Thrown msg \/ buildError msg \/ budgetError msg.
Proof.
  intros Hok.
  apply (steps_ok g (ParseOption.option_ t) budgetError (parseOption_onMatchNode_ok t));
    try done.
  - intros vars msg H. simpl in H. apply onCallVisiter_throw in H as [-> _]. by left.
  - intros vars msg H. simpl in H. apply onVisiterNextNode_throw in H as [-> _]. by right.
  - intros f p vars msg [= <-] Hroot H.
    destruct (onSuccess_rootOk p vars Hroot) as [v1 Hv1]. congruence.
Qed.

Lemma storeOk_init sc p :
  wf p -> rootOk p -> storeOk (mkStore [] sc (getNewVersion p).1 (getNewVersion p).2).
Proof.
  intros Hwf Hroot. split; [by apply wf_newVersion|].
  split; [eapply rootOk_grows; [apply grows_getNewVersion|done]|]. split; [done|].
  constructor.
Qed.

(** A probe from a node of a sound parser. *)
Lemma probe_ok g fuel node parent p :
  wf p -> rootOk p -> is_Some (getNode node p) ->
  (forall par, parent = Some par -> is_Some (getNode par p)) ->
  effOk p (probe g fuel node parent p) (fun found p' => recorded p' found).
Proof.
  intros Hwf Hroot Hex Hpar. unfold effOk.
  assert (Hinit : configOk (probeConfig node parent p)).
  { split; [by apply storeOk_init|]. simpl. split; [done|]. split; [lia|].
    destruct parent as [par|]; simpl; [by apply Hpar|done]. }
  destruct (probe g fuel node parent p) as [[[found p']|msg]|] eqn:Hprobe; [| |done].
  - destruct (probe_sound g fuel node parent p found p' Hprobe) as [Hrec Hstable].
    unfold probe in Hprobe.
    destruct (run g ProbeOption.option_ fuel (probeConfig node parent p)) as [cfg|] eqn:Hrun;
      [|discriminate].
    destruct (run_steps _ _ _ _ _ Hrun) as (k & <- & _ & _).
    destruct (probe_steps_ok g k (probeConfig node parent p)) as ((Hst & _) & Hg & _).
    { exact Hinit. }
    assert (p' = s_parser (store (steps g ProbeOption.option_ k (probeConfig node parent p))))
      as -> by (destruct (control _); by simplify_eq).
    destruct Hst as (Hwf' & Hroot' & _).
    split; [done|]. split; [done|]. split; [|done].
    eapply grows_trans; [apply grows_getNewVersion|exact Hg].
  - unfold probe in Hprobe.
    destruct (run g ProbeOption.option_ fuel (probeConfig node parent p)) as [cfg|] eqn:Hrun;
      [|discriminate].
    destruct (run_steps _ _ _ _ _ Hrun) as (k & <- & _ & _).
    destruct (probe_steps_ok g k (probeConfig node parent p)) as (_ & _ & Hthrow).
    { exact Hinit. }
    destruct (control _) eqn:Hc; simplify_eq.
    destruct (Hthrow _ eq_refl) as [H|H]; [discriminate|done].
Qed.

Lemma findNextMatchNodes_ok g fuel : forall node p,
  wf p -> rootOk p -> is_Some (getNode node p) ->
  effOk p (findNextMatchNodes g fuel node p) (fun found p' => recorded p' found).
Proof.
  assert (Hpar : forall node p n parent, wf p -> getNode node p = Some n ->
             parentNode n = Some parent ->
             forall par, Some parent = Some par -> is_Some (getNode par p)).
  { intros node p n parent [Hg _] Hn Hp par [= <-].
    destruct (Hg node n Hn) as (_ & Hr & _). unfold rooted in Hr. rewrite Hp in Hr.
    destruct Hr as (pn & Hpn & _). by exists pn. }
  induction fuel as [|fuel IH]; intros node p Hwf Hroot [n Hn]; simpl; rewrite Hn.
  - destruct (parentNode n) as [parent|] eqn:Hp; [|by apply probe_ok].
    destruct (getNode parent p) as [[m|f|t|c]|] eqn:Hpn;
      try (apply probe_ok; [done|done|by exists n|by apply (Hpar node p n parent)]); done.
  - destruct (parentNode n) as [parent|] eqn:Hp; [|by apply probe_ok].
    destruct (getNode parent p) as [[m|f|t|c]|] eqn:Hpn;
      try (apply probe_ok; [done|done|by exists n|by apply (Hpar node p n parent)]).
    apply IH; try done.
Qed.

Lemma effOk_bind {A B} (m : Eff A) (k : A -> Eff B) p (Q : A -> Parser -> Prop)
    (R : B -> Parser -> Prop) :
  effOk p (m p) Q ->
  (forall a p1, wf p1 -> rootOk p1 -> grows p p1 -> matchStable p p1 -> Q a p1 ->
                effOk p1 (k a p1) R) ->
  effOk p (ebind m k p) R.
Proof.
  intros Hm Hk. unfold ebind, effOk in *.
  destruct (m p) as [[[a p1]|msg]|]; [|done|done].
  destruct Hm as (Hwf & Hroot & Hg & Hs & HQ).
  specialize (Hk a p1 Hwf Hroot Hg Hs HQ).
  destruct (k a p1) as [[[b p2]|msg]|]; [|done|done].
  destruct Hk as (Hwf2 & Hroot2 & Hg2 & Hs2 & HR).
  split; [done|]. split; [done|]. split; [by eapply grows_trans|].
  split; [by eapply matchStable_trans|done].
Qed.

Ltac eff_ret :=
  hnf; split; [done|]; split; [done|]; split; [apply grows_refl|];
  split; [apply matchStable_refl|done].

Lemma concatNextMatchNodes_ok g fuel prev : forall all p,
  wf p -> rootOk p -> (forall r, r ∈ prev -> is_Some (getNode r p)) -> recorded p all ->
  effOk p (concatNextMatchNodes g fuel prev all p) (fun found p' => recorded p' found).
Proof.
  induction prev as [|n prev IH]; intros all p Hwf Hroot Hprev Hall; simpl.
  - eff_ret.
  - eapply effOk_bind; [apply findNextMatchNodes_ok; try done; apply Hprev; by left|].
    intros found p1 Hwf1 Hroot1 Hg1 Hs1 Hrec. apply IH; try done.
    + intros r Hr. eapply exists_grows; [done|]. apply Hprev. by right.
    + apply recorded_app; [by eapply recorded_stable|done].
Qed.

Lemma matchingsOf_ok rs p :
  recorded p rs ->
  exists l, matchingsOf rs p = Some (Ok (l, p)) /\
            forall r m, (r, m) ∈ l -> isMatchRef p r.
Proof.
  intros Hrec. unfold matchingsOf.
  assert (H : exists l, mapM (fun r => m ← matchingOf p r; Some (r, m)) rs = Some l /\
                        forall r m, (r, m) ∈ l -> isMatchRef p r).
  { induction Hrec as [|r rs (m & Hm & _) _ (l & Hl & Hin)]; simpl.
    - exists []. split; [done|]. intros r m H. by apply elem_of_nil in H.
    - assert (Hmo : matchingOf p r = Some (mn_matching m)).
      { unfold matchingOf. by rewrite Hm. }
      rewrite Hmo. simpl. rewrite Hl. simpl.
      eexists. split; [done|]. intros r' m' H. apply elem_of_cons in H as [[= -> ->]|H].
      + by exists m.
      + by eapply Hin. }
  destruct H as (l & -> & Hin). by exists l.
Qed.

Lemma someValueIs_ok value found p :
  recorded p found -> exists b, someValueIs value found p = Some (Ok (b, p)).
Proof.
  intros Hrec. induction Hrec as [|r rs (m & Hm & _) _ [b IH]]; simpl.
  - by exists false.
  - unfold matchingOf. rewrite Hm. case_bool_decide; eauto.
Qed.

Lemma filterByNextToken_ok g fuel value l : forall p,
  wf p -> rootOk p -> (forall r m, (r, m) ∈ l -> is_Some (getNode r p)) ->
  effOk p (filterByNextToken g fuel value l p) (fun _ _ => True).
Proof.
  induction l as [|[r m] l IH]; intros p Hwf Hroot Hl; simpl.
  - eff_ret.
  - eapply effOk_bind;
      [apply findNextMatchNodes_ok; try done; eapply Hl; by left|].
    intros found p1 Hwf1 Hroot1 Hg1 Hs1 Hrec.
    destruct (someValueIs_ok value found p1 Hrec) as [keep Hkeep].
    unfold ebind at 1. rewrite Hkeep.
    eapply effOk_bind; [apply IH; try done|].
    + intros r' m' Hin. eapply exists_grows; [done|]. eapply Hl. by right.
    + intros kept p2 Hwf2 Hroot2 Hg2 Hs2 _. eff_ret.
Qed.

Lemma nextMatchNodesAt_ok g fuel tokens cursorIndex prev p :
  wf p -> rootOk p -> (forall r, r ∈ prev -> is_Some (getNode r p)) ->
  effOk p (nextMatchNodesAt g fuel tokens cursorIndex prev p) (fun _ _ => True).
Proof.
  intros Hwf Hroot Hprev. unfold nextMatchNodesAt.
  eapply effOk_bind; [apply concatNextMatchNodes_ok; try done|].
  - intros r Hr. apply Hprev. unfold uniq, uniqBy in Hr.
    by apply (uniqByFrom_subset id prev []) in Hr.
  - constructor.
  - intros found p1 Hwf1 Hroot1 Hg1 Hs1 Hrec.
    destruct (matchingsOf_ok found p1 Hrec) as (l & Hl & Hin).
    unfold ebind at 1. rewrite Hl. unfold narrowByNextToken.
    destruct (Scan.getNextTokenFromCharacterIndex _ _); [|eff_ret].
    apply filterByNextToken_ok; try done.
    intros r m Hrm.
    apply (uniqByFrom_subset (fun each : NodeRef * IMatching => matchingKey each.2) _ [])
      in Hrm.
    destruct (Hin r m Hrm) as [m' Hm']. by rewrite Hm'.
Qed.

Lemma errorOf_ok g fuel tokens root v p :
  wf p -> rootOk p -> is_Some (getNode root p) -> varsOk p v ->
  effOk p (errorOf g fuel tokens root v p) (fun _ _ => True).
Proof.
  intros Hwf Hroot Hr [_ Hlast]. unfold errorOf.
  destruct (success v); [eff_ret|].
  eapply effOk_bind; [apply findNextMatchNodes_ok; try done|].
  - destruct (lastMatchUnderShortestRestToken v) as [l|]; [by apply Hlast|done].
  - intros found p1 Hwf1 Hroot1 Hg1 Hs1 Hrec.
    destruct (matchingsOf_ok found p1 Hrec) as (l & Hl & Hin).
    unfold ebind. rewrite Hl. eff_ret.
Qed.

Lemma finish_ok g fuel tokens cursorIndex root v p :
  wf p -> rootOk p -> is_Some (getNode root p) -> varsOk p v ->
  effOk p (finish g fuel tokens cursorIndex root v p) (fun _ _ => True).
Proof.
  intros Hwf Hroot Hr Hv. unfold finish.
  eapply effOk_bind; [apply nextMatchNodesAt_ok; try done; apply Hv|].
  intros next p1 Hwf1 Hroot1 Hg1 Hs1 _.
  eapply effOk_bind; [apply errorOf_ok; try done|].
  - by eapply exists_grows.
  - destruct Hv as [H1 H2]. split.
    + intros r Hin. eapply exists_grows; [done|]. by apply H1.
    + intros l Hl. eapply exists_grows; [done|]. by apply H2.
  - intros err p2 Hwf2 Hroot2 Hg2 Hs2 _. eff_ret.
Qed.

Section ParseVarsOk.

Variables (g : Grammar) (t : option IToken).

(** A step of the main traversal records no node but the match node it has
    just run. *)
Lemma step_cursorPrevNodes (cfg : Config ParseVars) r :
  r ∈ cursorPrevNodes (closure (step g (ParseOption.option_ t) cfg)) ->
  r ∈ cursorPrevNodes (closure cfg) \/ is_Some (getNode r (s_parser (store cfg))).
Proof.
  destruct cfg as [ctl st vars]. unfold step. simpl.
  destruct ctl as [node|node a|node|node v next| |msg]; simpl; auto.
  - unfold visiter. destruct (getNode node (s_parser st)) as [n|] eqn:Hn; simpl; [|auto].
    unfold callIfPresent. simpl.
    destruct (ParseOption.onCallVisiter vars) as [vars1|msg] eqn:Hc; simpl; [|auto].
    apply onCallVisiter_ok in Hc as [-> _].
    destruct n as [m|f|tr|c].
    + unfold ParseOption.onMatchNode. simpl.
      destruct (mn_matchFunction m (scanner st) true) as [res sc] eqn:Hm.
      destruct (matched res) eqn:Hres; simpl; [|auto].
      destruct (isCursorPrev t res); simpl; [|auto].
      unfold push. intros Hin. apply elem_of_app in Hin as [Hin|Hin]; [by left|].
      apply list_elem_of_singleton in Hin as ->. right. by rewrite Hn.
    + rewrite closure_visiterFunction. auto.
    + case_match; simpl; auto. rewrite closure_visiterTree. auto.
    + case_match; simpl; auto. rewrite closure_visiterChain. auto.
  - unfold visiterNextNode, callIfPresent. simpl.
    destruct (ParseOption.onVisiterNextNode vars) as [vars1|msg] eqn:Hc; simpl; [|auto].
    apply onVisiterNextNode_ok in Hc as [-> _].
    destruct (getNode node (s_parser st)) as [n|] eqn:Hn; simpl; [|auto].
    destruct (parentNode n) as [parent|] eqn:Hp.
    + left. revert H. repeat case_match; simpl; auto.
    + destruct (Scan.isEnd (scanner st)); simpl; [|auto].
      destruct (ParseOption.onSuccess _ _) eqn:Hs; simpl; [|auto].
      apply onSuccess_ok in Hs as (_ & _ & _ & _ & ->). auto.
  - left. revert H. unfold tryChances. simpl. repeat case_match; simpl; auto.
  - rewrite closure_resetParents. auto.
Qed.

Lemma step_varsOk (cfg : Config ParseVars) :
  configOk cfg -> varsOk (s_parser (store cfg)) (closure cfg) ->
  varsOk (s_parser (store (step g (ParseOption.option_ t) cfg)))
    (closure (step g (ParseOption.option_ t) cfg)).
Proof.
  intros Hok [Hprev Hlast].
  destruct (parse_steps_ok g t 1 cfg Hok) as (_ & Hg & _). simpl in Hg.
  split.
  - intros r Hr. eapply exists_grows; [done|].
    destruct (step_cursorPrevNodes cfg r Hr); auto.
  - intros l Hl. eapply exists_grows; [done|].
    destruct (step_last g t cfg) as [Hsame|(r & m & res & sc & Hm & Hnew & _)].
    + apply Hlast. congruence.
    + rewrite Hnew in Hl. injection Hl as <-. simpl.
      destruct Hm as (_ & Hn & _). by rewrite Hn.
Qed.

Lemma steps_varsOk k : forall (cfg : Config ParseVars),
  configOk cfg -> varsOk (s_parser (store cfg)) (closure cfg) ->
  varsOk (s_parser (store (steps g (ParseOption.option_ t) k cfg)))
    (closure (steps g (ParseOption.option_ t) k cfg)).
Proof.
  induction k as [|k IH]; intros cfg Hok Hv; [done|]. simpl.
  apply IH; [|by apply step_varsOk].
  by destruct (parse_steps_ok g t 1 cfg Hok) as (H & _).
Qed.

End ParseVarsOk.

(** Building the parser of a root: the root's rule body is built without a
    name, so no FIRST set is generated; the parser is sound, and the only
    error is an unknown element. *)
Lemma wf_newParser : wf newParser.
Proof.
  split; [by intros q n Hq|]. intros name rs r Hrs. simpl in Hrs.
  by rewrite lookup_empty in Hrs.
Qed.

Lemma buildParser_spec g root :
  match buildParser g root with
  | Ok p => wf p /\ rootOk p /\ rootChainNode p = Some 0
  | Throw msg => buildError msg
  end.
Proof.
  unfold buildParser. destruct (g root) as [elements solveAst].
  pose proof (chainNodeFactory_spec elements solveAst None None 0 newParser wf_newParser I)
    as H.
  destruct (chainNodeFactory elements solveAst None None 0 newParser) as [[r p]|msg];
    [|done].
  destruct H as (-> & [Hg Hfs] & Hext & c & Hc & _). simpl in Hc.
  split; [|split; [|done]].
  - split.
    + by apply (graphOk_frame p).
    + by apply (firstSetsOk_frame p).
  - exists 0, (NChain c). by split.
Qed.

Lemma obtainParser_spec g root parserMap :
  mapOk parserMap ->
  match obtainParser g root parserMap with
  | Ok p => wf p /\ rootOk p
  | Throw msg => buildError msg
  end.
Proof.
  intros Hmap. unfold obtainParser. destruct (parserMap !! root) as [p|] eqn:Hp.
  - by eapply Hmap.
  - pose proof (buildParser_spec g root) as H.
    destruct (buildParser g root); [|done]. by destruct H as (H1 & H2 & _).
Qed.

Lemma mainVisit_ok g fuel tokens cursorIndex parser root cfg :
  wf parser -> rootOk parser -> rootChainNode parser = Some root ->
  mainVisit g fuel tokens cursorIndex parser root = Some cfg ->
  configOk cfg /\ grows parser (s_parser (store cfg)) /\
  varsOk (s_parser (store cfg)) (closure cfg) /\
  forall msg, control cfg = Thrown msg -> buildError msg \/ budgetError msg.
Proof.
  intros Hwf Hroot Hr Hrun. unfold mainVisit in Hrun.
  destruct (run_steps _ _ _ _ _ Hrun) as (k & <- & _ & _).
  unfold parseOption.
  set (t := Scan.getPrevTokenFromCharacterIndex cursorIndex (Scan.new tokens)).
  assert (Hok : configOk (initialConfig tokens cursorIndex parser root)).
  { split; [by apply storeOk_init|]. simpl. destruct Hroot as (r0 & n & Hr0 & Hn).
    assert (r0 = root) as -> by congruence. by exists n. }
  assert (Hv : varsOk (s_parser (store (initialConfig tokens cursorIndex parser root)))
                 (closure (initialConfig tokens cursorIndex parser root))).
  { split; [|done]. simpl. intros r Hin. destruct Hroot as (r0 & n & Hr0 & Hn).
    assert (r0 = root) as -> by congruence.
    destruct (Scan.getPrevTokenFromCharacterIndex _ _); [by apply elem_of_nil in Hin|].
    apply list_elem_of_singleton in Hin as ->. by exists n. }
  destruct (parse_steps_ok g t k _ Hok) as (H1 & H2 & H3).
  split; [done|]. split; [|split].
  - eapply grows_trans; [apply grows_getNewVersion|exact H2].
  - by apply steps_varsOk.
  - intros msg Hm. destruct (H3 msg Hm) as [H|H]; [discriminate|done].
Qed.

(** A parse on sound memoized parsers: it throws nothing but a build error
    or the guard's error, and when it returns, the parsers it leaves are
    sound, the one it used has only grown and the others are untouched. *)
Lemma createParser_ok g root lexer parserMap text cursorIndex fuel :
  mapOk parserMap ->
  match createParser g root lexer parserMap text cursorIndex fuel with
  | Some (Ok (result, parserMap')) =>
      mapOk parserMap' /\
      (forall p, parserMap !! root = Some p ->
                 exists p', parserMap' !! root = Some p' /\ grows p p') /\
      (forall other, other <> root -> parserMap' !! other = parserMap !! other)
  | Some (Throw msg) => buildError msg \/ budgetError msg
  | None => True
  end.
Proof.
  intros Hmap. unfold createParser.
  pose proof (obtainParser_spec g root parserMap Hmap) as Hob.
  destruct (obtainParser g root parserMap) as [parser|msg] eqn:Hobtain; [|by left].
  destruct Hob as [Hwf Hroot]. pose proof Hroot as (rootNode & rn & Hr & Hrn).
  rewrite Hr.
  destruct (mainVisit g fuel (lexer text) cursorIndex parser rootNode) as [cfg|] eqn:Hmain;
    [|done].
  destruct (mainVisit_ok g fuel (lexer text) cursorIndex parser rootNode cfg Hwf Hroot Hr Hmain)
    as (((Hwf1 & Hroot1 & _) & _) & Hg1 & Hv1 & Hthrow).
  assert (Hfin : match finish g fuel (lexer text) cursorIndex rootNode (closure cfg)
                         (s_parser (store cfg)) with
                 | Some (Ok (result, p)) =>
                     (mapOk (<[root := p]> parserMap) /\
                      (forall p0, parserMap !! root = Some p0 ->
                                  exists p', <[root := p]> parserMap !! root = Some p' /\
                                             grows p0 p') /\
                      (forall other, other <> root ->
                                     <[root := p]> parserMap !! other = parserMap !! other))
                 | Some (Throw msg) => buildError msg \/ budgetError msg
                 | None => True
                 end).
  { pose proof (finish_ok g fuel (lexer text) cursorIndex rootNode (closure cfg)
                  (s_parser (store cfg)) Hwf1 Hroot1) as Hf.
    destruct (finish _ _ _ _ _ _ _) as [[[result p]|msg]|]; [| |done].
    - destruct Hf as (Hwf2 & Hroot2 & Hg2 & _); [by eapply exists_grows; [|by exists rn]|done|].
      split; [|split].
      + intros r0 p0 Hp0. destruct (decide (r0 = root)) as [->|Hne].
        * rewrite lookup_insert_eq in Hp0. by injection Hp0 as <-.
        * rewrite lookup_insert_ne in Hp0 by done. by eapply Hmap.
      + intros p0 Hp0. exists p. rewrite lookup_insert_eq. split; [done|].
        unfold obtainParser in Hobtain. rewrite Hp0 in Hobtain. injection Hobtain as ->.
        by eapply grows_trans.
      + intros other Hne. by rewrite lookup_insert_ne.
    - left. apply Hf; [by eapply exists_grows; [|by exists rn]|done]. }
  destruct (control cfg) eqn:Hc;
    try (destruct (finish _ _ _ _ _ _ _) as [[[result p]|msg]|]; exact Hfin).
  destruct (Hthrow _ eq_refl); auto.
Qed.

(** ** No duplicates among the matchings offered *)

Lemma uniqByFrom_NoDup {A K} `{EqDecision K} (key : A -> K) l : forall seen,
  NoDup (key <$> uniqByFrom key seen l) /\
  forall x, x ∈ uniqByFrom key seen l -> key x ∉ seen.
Proof.
  induction l as [|y l IH]; intros seen; simpl.
  - split; [constructor|]. intros x Hx. by apply elem_of_nil in Hx.
  - case_bool_decide as Hin; [apply IH|].
    destruct (IH (key y :: seen)) as [Hnd Hout]. split.
    + simpl. constructor; [|done]. intros Hy.
      apply list_elem_of_fmap in Hy as (x & Hk & Hx). apply (Hout x Hx). rewrite Hk. by left.
    + intros x Hx. apply elem_of_cons in Hx as [->|Hx]; [done|].
      intros Hs. apply (Hout x Hx). by right.
Qed.

Lemma filterByNextToken_sublist g fuel value l : forall p kept p',
  filterByNextToken g fuel value l p = Some (Ok (kept, p')) -> kept `sublist_of` l.
Proof.
  induction l as [|[r m] l IH]; intros p kept p'; simpl.
  - unfold eret. by intros [= <- <-].
  - unfold ebind, eret.
    destruct (findNextMatchNodes g fuel r p) as [[[found p1]|]|]; try discriminate.
    destruct (someValueIs value found p1) as [[[keep p2]|]|]; try discriminate.
    destruct (filterByNextToken g fuel value l p2) as [[[kept0 p3]|]|] eqn:Hrest;
      try discriminate.
    intros [= <- <-]. specialize (IH _ _ _ Hrest).
    destruct keep; [by apply sublist_skip|by apply sublist_cons].
Qed.

Lemma nextMatchNodesAt_NoDup g fuel tokens cursorIndex prev p l p' :
  nextMatchNodesAt g fuel tokens cursorIndex prev p = Some (Ok (l, p')) ->
  NoDup ((fun each : NodeRef * IMatching => matchingKey each.2) <$> l).
Proof.
  unfold nextMatchNodesAt, ebind.
  destruct (concatNextMatchNodes _ _ _ _ _) as [[[found p1]|]|]; try discriminate.
  destruct (matchingsOf found p1) as [[[withMatchings p2]|]|]; try discriminate.
  pose proof (uniqByFrom_NoDup (fun each : NodeRef * IMatching => matchingKey each.2)
                withMatchings []) as [Hnd _].
  unfold narrowByNextToken. destruct (Scan.getNextTokenFromCharacterIndex _ _).
  - intros Hf. apply filterByNextToken_sublist in Hf.
    eapply sublist_NoDup; [exact Hnd|]. by apply fmap_sublist.
  - unfold eret. by intros [= <- <-].
Qed.

Lemma errorOf_NoDup g fuel tokens root v p err p' e :
  errorOf g fuel tokens root v p = Some (Ok (err, p')) -> err = Some e ->
  NoDup (matchingKey <$> e_suggestions e).
Proof.
  unfold errorOf. destruct (success v); [unfold eret; by intros [= <- <-]|].
  unfold ebind, eret.
  destruct (findNextMatchNodes _ _ _ _) as [[[found p1]|]|]; try discriminate.
  destruct (matchingsOf found p1) as [[[suggested p2]|]|]; try discriminate.
  intros [= <- <-] [= <-].
  assert (Hs : forall sc last s, e_suggestions (makeError sc last s) = s).
  { intros sc last s. unfold makeError. by destruct (_ ≫= _). }
  rewrite Hs. apply (uniqByFrom_NoDup matchingKey (snd <$> suggested) []).
Qed.

Lemma finish_NoDup g fuel tokens cursorIndex root v p r p' :
  finish g fuel tokens cursorIndex root v p = Some (Ok (r, p')) ->
  NoDup (matchingKey <$> r_nextMatchings r) /\
  forall e, r_error r = Some e -> NoDup (matchingKey <$> e_suggestions e).
Proof.
  unfold finish, ebind, eret.
  destruct (nextMatchNodesAt _ _ _ _ _ _) as [[[next p1]|]|] eqn:Hn; try discriminate.
  destruct (errorOf _ _ _ _ _ _) as [[[err p2]|]|] eqn:He; try discriminate.
  intros [= <- <-]. simpl. split.
  - apply nextMatchNodesAt_NoDup in Hn.
    rewrite <- list_fmap_compose, fmap_reverse. by rewrite reverse_Permutation.
  - intros e Herr. by eapply errorOf_NoDup.
Qed.

Lemma buildParser_sound g root p : buildParser g root = Ok p -> wf p /\ rootOk p.
Proof.
  intros H. pose proof (buildParser_spec g root) as Hs. rewrite H in Hs.
  by destruct Hs as (H1 & H2 & _).
Qed.

Lemma traversal_configOk g tokens cursorIndex parser root k :
  wf parser -> rootOk parser -> is_Some (getNode root parser) ->
  configOk (steps g (parseOption tokens cursorIndex) k
              (initialConfig tokens cursorIndex parser root)).
Proof.
  intros Hwf Hroot Hex. unfold parseOption.
  apply parse_steps_ok. split; [by apply storeOk_init|done].
Qed.


(** ** The root rule is built without a name *)


(** * Further properties *)

(** ** The builder *)



(** X3.  The nodes [createNodeByElement] makes for an element of known shape:
    the one returned has the parent and position it was given; every new node
    is as its constructor leaves it (no version, head index 0, no results);
    every child a new node lists was created after it and names it as parent,
    with the child's position in the list as [parentIndex]; and every new
    node but the first has a tree or chain node as parent. *)
Theorem createNodeByElement_fresh_and_linked (element : Element)
    (parent : option NodeRef) (parentIdx : nat) (p : Parser) :
  knownElement element = true ->
  exists r p' n,
    createNodeByElement element parent parentIdx p = Ok (r, p') /\
    getNode r p' = Some n /\ parentNode n = parent /\ parentIndex n = parentIdx /\
    forall q n', length (nodes p) <= q -> getNode q p' = Some n' ->
      freshNode n' /\ childrenLinked p' q n' /\ (r < q -> rooted p' n').
Proof.
  intros Hk. pose proof (createNodeByElement_spec element parent parentIdx p) as H.
  rewrite Hk in H. destruct H as (new & n & -> & Hn & Hp & Hi & Hfresh & Hroot).
  eexists _, _, n. split; [done|]. split.
  { rewrite getNode_setNodes, lookup_app_r, Nat.sub_diag; done. }
  split; [done|]. split; [done|].
  intros q n' Hq Hn'. rewrite getNode_setNodes, lookup_app_r in Hn' by done.
  destruct (Hfresh _ _ Hn') as [Hf Hl].
  replace (length (nodes p) + (q - length (nodes p))) with q in Hl by lia.
  split; [done|]. split; [done|]. intros Hlt.
  destruct (q - length (nodes p)) as [|d] eqn:E; [lia|]. by eapply Hroot.
Qed.

Lemma createNodeByElement_fresh_and_linked_witness :
  let element := EArray [EString "a"; EBoolean false] in
  exists r p' n,
    createNodeByElement element None 0 newParser = Ok (r, p') /\
    getNode r p' = Some n /\ parentNode n = None /\ parentIndex n = 0 /\
    forall q n', length (nodes newParser) <= q -> getNode q p' = Some n' ->
      freshNode n' /\ childrenLinked p' q n' /\ (r < q -> rooted p' n').
Proof.
  intros element.
  apply (createNodeByElement_fresh_and_linked element None 0 newParser). reflexivity.
Defined.




(** ** FIRST sets *)

(** X6.  [solveFirstSet] touches nothing but the FIRST-set tables and never
    changes or removes a FIRST set that is published; for a rule that is
    published already it does nothing at all.  It throws exactly one error,
    the [TypeError] of [reduce] on a missing candidate list, and only for a
    rule that is not published. *)
Theorem solveFirstSet_keeps_published_sets (functionName : string) (p : Parser) :
  (is_Some (firstSet p !! functionName) -> solveFirstSet functionName p = Ok (tt, p)) /\
  match solveFirstSet functionName p with
  | Ok (_, p') => onlyTables p p'
  | Throw msg =>
      msg = "TypeError: Cannot read properties of undefined (reading 'reduce')" /\
      firstSet p !! functionName = None /\
      (firstOrFunctionSet p !! functionName = None \/
       firstOrFunctionSet p !! functionName = Some None)
  end.
Proof.
  split.
  - intros H. unfold solveFirstSet. by rewrite bool_decide_eq_true_2.
  - unfold solveFirstSet.
    assert (Hfold : forall (l : list string) (q : Parser),
               foldl (fun (q0 : Parser) (_ : string) => q0) q l = q).
    { induction l; simpl; auto. }
    case_bool_decide as Hhas; [apply onlyTables_refl|].
    assert (Hnone : firstSet p !! functionName = None).
    { destruct (firstSet p !! functionName) eqn:E; [|done]. destruct Hhas. eauto. }
    destruct (firstOrFunctionSet p !! functionName) as [[l|]|] eqn:Hl; [|by auto|by auto].
    destruct (forallb isMatchEntry _); [|by repeat split].
    simpl. destruct (relatedSet p !! functionName); rewrite ?Hfold.
    + split; [done|]. split; [done|]. split; [done|]. simpl.
      intros name rs Hrs. rewrite lookup_insert_ne; [done|]. congruence.
    + split; [done|]. split; [done|]. split; [done|]. simpl.
      intros name rs Hrs. rewrite lookup_insert_ne; [done|]. congruence.
Qed.

(** X7.  [generateFirstSet] for a chain of a linked graph whose published
    FIRST sets hold match nodes: the collection of candidates always returns
    (it descends to children only, and children are newer than their
    parents), so the only possible error is the [TypeError] of [reduce];
    otherwise nothing but the FIRST-set tables is changed, no published set
    is changed or removed, and every published set still holds match nodes
    of the store. *)
Theorem generateFirstSet_on_linked_graph (node : NodeRef) (functionName : string)
    (p : Parser) :
  linked p -> firstSetsOk p -> is_Some (getNode node p) ->
  match generateFirstSet node functionName p with
  | Ok (_, p') => onlyTables p p' /\ firstSetsOk p'
  | Throw msg =>
      msg = "TypeError: Cannot read properties of undefined (reading 'reduce')"
  end.
Proof. apply generateFirstSet_spec. Qed.

Lemma generateFirstSet_on_linked_graph_witness :
  let p := Demo.parserFor Demo.arith "root" in
  match generateFirstSet 0 "root" p with
  | Ok (_, p') => onlyTables p p' /\ firstSetsOk p'
  | Throw msg =>
      msg = "TypeError: Cannot read properties of undefined (reading 'reduce')"
  end.
Proof.
  intros p.
  destruct (buildParser_sound Demo.arith "root" p eq_refl) as [[Hg Hfs] Hroot].
  apply (generateFirstSet_on_linked_graph 0 "root" p).
  - by apply graphOk_linked.
  - exact Hfs.
  - vm_compute. eauto.
Defined.

(** X8.  Expanding a reference to a rule with an empty body, [chain()()],
    whose name is not the empty string and has no published FIRST set,
    throws: the chain has no first child, so the candidate list is
    [undefined] and [solveFirstSet] calls [reduce] on it. *)
Theorem empty_rule_expansion_throws (g : Grammar) (f : FunctionNode) (p : Parser) :
  (g (fn_chainFunction f)).1 = [] -> fn_chainFunction f <> "" ->
  firstSet p !! fn_chainFunction f = None ->
  runFunctionNode g f p
    = Throw "TypeError: Cannot read properties of undefined (reading 'reduce')".
Proof.
  intros Hg Hne Hfs. unfold runFunctionNode.
  destruct (g (fn_chainFunction f)) as [elements solveAst]. simpl in Hg. subst elements.
  unfold chainNodeFactory, solveDirectLeftRecursion, bind, alloc, ret, setChilds. simpl.
  unfold modifyNode, getNode. simpl. rewrite lookup_app_r, Nat.sub_diag by done. simpl.
  rewrite bool_decide_eq_false_2 by done. simpl.
  unfold generateFirstSet. simpl.
  rewrite bool_decide_eq_false_2 by (rewrite Hfs; by intros [? ?]).
  unfold bind. simpl. unfold getNode. simpl.
  rewrite list_lookup_insert_eq by (rewrite length_app; simpl; lia). simpl.
  unfold solveFirstSet. simpl.
  rewrite bool_decide_eq_false_2 by (rewrite Hfs; by intros [? ?]).
  by rewrite lookup_insert_eq.
Qed.

Lemma empty_rule_expansion_throws_witness :
  runFunctionNode (Demo.rules [("root", [EChainFunction "empty"]); ("empty", [])])
    (mkFunctionNode (Some 0) "empty" 0)
    (Demo.parserFor (Demo.rules [("root", [EChainFunction "empty"]); ("empty", [])]) "root")
  = Throw "TypeError: Cannot read properties of undefined (reading 'reduce')".
Proof.
  apply empty_rule_expansion_throws; [reflexivity|discriminate|reflexivity].
Defined.

(** ** The traversal *)

(** X9.  Where [visiterNextNode] stores the result of a child: when the
    parent is a chain that is not a plus chain and the option object asks for
    an AST, the value is written to the parent's [astResults] at the child's
    [parentIndex], as [a[i] = v] does on a JavaScript array: the slots that
    were there keep their values, the array grows to reach the slot when it
    was shorter, and nothing else of the parent changes before [visiter]
    runs on it. *)
Theorem visiterNextNode_stores_ast {V : Type} (o : VisiterOption V) (node : NodeRef)
    (astValue : IAst) (st : VisiterStore) (vars vars1 : V) (n : Node)
    (parent : NodeRef) (c : ChainNode) :
  callIfPresent (onVisiterNextNode o) vars = Ok vars1 ->
  getNode node (s_parser st) = Some n -> parentNode n = Some parent ->
  getNode parent (s_parser st) = Some (NChain c) ->
  generateAst o = true -> cn_isPlus c = false ->
  let cfg' := visiterNextNode o node astValue st vars in
  control cfg' = Visiter parent /\ closure cfg' = vars1 /\
  exists c',
    getNode parent (s_parser (store cfg')) = Some (NChain c') /\
    cn_astResults c' !! parentIndex n = Some astValue /\
    (forall j, j <> parentIndex n -> j < length (cn_astResults c) ->
               cn_astResults c' !! j = cn_astResults c !! j) /\
    length (cn_astResults c') = Nat.max (length (cn_astResults c)) (S (parentIndex n)) /\
    sameShape (NChain c) (NChain c') /\ cn_headIndex c' = cn_headIndex c /\
    cn_version c' = cn_version c.
Proof.
  intros Hcb Hn Hp Hpn Hgen Hplus. unfold visiterNextNode.
  rewrite Hcb, Hn, Hp, Hpn, Hgen, Hplus. simpl.
  split; [done|]. split; [done|]. eexists. split; [by eapply getNode_putNode_eq|].
  simpl. split; [|split; [|split; [|done]]].
  - rewrite arraySet_lookup. by rewrite decide_True.
  - intros j Hj Hlt. rewrite arraySet_lookup.
    rewrite decide_False by done. by rewrite decide_True.
  - apply arraySet_length.
Qed.

Lemma visiterNextNode_stores_ast_witness :
  let cfg := Demo.traversal Demo.arith "a + b" 13 in
  let o := parseOption (Demo.lexer "a + b") 0 in
  let plus := AstToken (mkToken "+" 2 3) in
  let n := NTree (mkTreeNode (Some 0) [Some 3; Some 4] 1 (Some 1%N) 1) in
  let c := mkChainNode None [Some 6; Some 2; Some 5]
             [AstArray [AstToken (mkToken "a" 0 1)]] 2 None Demo.identity (Some 1%N)
             false 0 0 in
  let cfg' := visiterNextNode o 2 plus (store cfg) (closure cfg) in
  control cfg' = Visiter 0 /\
  closure cfg' = closure (Demo.traversal Demo.arith "a + b" 14) /\
  exists c',
    getNode 0 (s_parser (store cfg')) = Some (NChain c') /\
    cn_astResults c' !! parentIndex n = Some plus /\
    (forall j, j <> parentIndex n -> j < length (cn_astResults c) ->
               cn_astResults c' !! j = cn_astResults c !! j) /\
    length (cn_astResults c') = Nat.max (length (cn_astResults c)) (S (parentIndex n)) /\
    sameShape (NChain c) (NChain c') /\ cn_headIndex c' = cn_headIndex c /\
    cn_version c' = cn_version c.
Proof.
  intros cfg o plus n c cfg'.
  apply (visiterNextNode_stores_ast o 2 plus (store cfg) (closure cfg)
           (closure (Demo.traversal Demo.arith "a + b" 14)) n 0 c).
  - vm_compute; reflexivity.
  - vm_compute; reflexivity.
  - reflexivity.
  - vm_compute; reflexivity.
  - reflexivity.
  - reflexivity.
Defined.

(** X10.  The invariant of the main traversal.  Started on a parser that
    satisfies the parser invariant and names a root of its store, every
    configuration the traversal reaches is sound: [visiter] and
    [visiterNextNode] are only ever pending on nodes of the store (the test
    [!node] of [visiter] never fires); each child listed by a node
    names that node as its parent and its slot as its position; the parent a
    node names is a tree or chain node; no head index exceeds the number of
    children; every version stamp was handed out by the parser and the
    store's version is the parser's; every published FIRST set holds match
    nodes; every pending chance names a tree or chain node and a head index
    within its children.  The parser only grows.  And whatever the traversal
    throws is a build error of a rule it expanded or one of the two errors of
    the call budget: no step fails on a missing node, parent or chance. *)
Theorem main_traversal_keeps_invariant (g : Grammar) (tokens : list IToken)
    (cursorIndex : nat) (parser : Parser) (root : NodeRef) (k : nat) :
  wf parser -> rootOk parser -> rootChainNode parser = Some root ->
  let cfg := steps g (parseOption tokens cursorIndex) k
               (initialConfig tokens cursorIndex parser root) in
  configOk cfg /\ grows parser (s_parser (store cfg)) /\
  forall msg, control cfg = Thrown msg -> buildError msg \/ budgetError msg.
Proof.
  intros Hwf Hroot Hr cfg. unfold cfg, parseOption.
  destruct (parse_steps_ok g
              (Scan.getPrevTokenFromCharacterIndex cursorIndex (Scan.new tokens)) k
              (initialConfig tokens cursorIndex parser root)) as (H1 & H2 & H3).
  { split; [by apply storeOk_init|]. simpl. destruct Hroot as (r0 & n & Hr0 & Hn).
    assert (r0 = root) as -> by congruence. by exists n. }
  split; [done|]. split.
  - eapply grows_trans; [apply grows_getNewVersion|exact H2].
  - intros msg Hm. destruct (H3 msg Hm) as [H|H]; [discriminate|done].
Qed.

Lemma main_traversal_keeps_invariant_witness :
  let parser := Demo.parserFor Demo.arith "root" in
  let cfg := Demo.traversal Demo.arith "a & b" 13 in
  configOk cfg /\ grows parser (s_parser (store cfg)) /\
  forall msg, control cfg = Thrown msg -> buildError msg \/ budgetError msg.
Proof.
  intros parser cfg.
  destruct (buildParser_sound Demo.arith "root" parser eq_refl) as [Hwf Hroot].
  exact (main_traversal_keeps_invariant Demo.arith (Demo.lexer "a & b") 0 parser 0 13
           Hwf Hroot eq_refl).
Defined.





(** ** The parse *)



(** X14.  What a parse leaves behind.  With sound memoized parsers, a parse
    that returns leaves sound parsers: the parser of its root is memoized,
    the parsers of other roots are untouched, and a parser that was memoized
    for this root has only grown: its nodes are all there, of the same class
    and with at least as many child slots, its root is the same, its version
    has not gone back and its published FIRST sets are unchanged. *)
Theorem parse_keeps_parsers_sound (g : Grammar) (root : string)
    (lexer : string -> list IToken) (parserMap parserMap' : gmap string Parser)
    (text : string) (cursorIndex fuel : nat) (result : ParseResult) :
  mapOk parserMap ->
  createParser g root lexer parserMap text cursorIndex fuel
    = Some (Ok (result, parserMap')) ->
  mapOk parserMap' /\
  (exists p', parserMap' !! root = Some p') /\
  (forall p, parserMap !! root = Some p ->
             exists p', parserMap' !! root = Some p' /\ grows p p') /\
  (forall other, other <> root -> parserMap' !! other = parserMap !! other).
Proof.
  intros Hmap H.
  pose proof (createParser_ok g root lexer parserMap text cursorIndex fuel Hmap) as Hok.
  rewrite H in Hok. destruct Hok as (H1 & H2 & H3). split; [done|]. split; [|done].
  destruct (createParser_returns _ _ _ _ _ _ _ _ _ H) as (_ & _ & _ & p' & _ & _ & _ & _ & _ & ->).
  exists p'. by rewrite lookup_insert_eq.
Qed.

Lemma parse_keeps_parsers_sound_witness :
  let parserMap : gmap string Parser := {[ "root" := Demo.parserFor Demo.arith "root" ]} in
  let result :=
    mkResult true
      (AstArray [AstArray [AstToken (mkToken "a" 0 1)]; AstToken (mkToken "+" 2 3);
                 AstArray [AstToken (mkToken "b" 4 5)]])
      18 [] None [mkToken "a" 0 1; mkToken "+" 2 3; mkToken "b" 4 5] in
  exists parserMap',
    createParser Demo.arith "root" Demo.lexer parserMap "a + b" 5 100
      = Some (Ok (result, parserMap')) /\
    mapOk parserMap' /\
    (exists p', parserMap' !! "root" = Some p') /\
    (forall p, parserMap !! "root" = Some p ->
               exists p', parserMap' !! "root" = Some p' /\ grows p p') /\
    (forall other, other <> "root" -> parserMap' !! other = parserMap !! other).
Proof.
  intros parserMap result.
  destruct (resultOf_returns
              (createParser Demo.arith "root" Demo.lexer parserMap "a + b" 5 100) result)
    as [parserMap' Hrun]; [vm_compute; reflexivity|].
  exists parserMap'. split; [exact Hrun|].
  apply (parse_keeps_parsers_sound Demo.arith "root" Demo.lexer parserMap parserMap'
           "a + b" 5 100 result); [|exact Hrun].
  intros r p Hp. apply lookup_singleton_Some in Hp as [<- <-].
  by apply (buildParser_sound Demo.arith "root").
Defined.

(** X15.  No two of the [nextMatchings] of a result have the same key
    [type + value], and no two of the [suggestions] of its error. *)
Theorem next_matchings_have_distinct_keys (g : Grammar) (root : string)
    (lexer : string -> list IToken) (parserMap : gmap string Parser)
    (text : string) (cursorIndex fuel : nat) (result : ParseResult) :
  resultOf (createParser g root lexer parserMap text cursorIndex fuel) = Some result ->
  NoDup (matchingKey <$> r_nextMatchings result) /\
  forall e, r_error result = Some e -> NoDup (matchingKey <$> e_suggestions e).
Proof.
  intros H. apply resultOf_returns in H as [parserMap' H].
  destruct (createParser_returns _ _ _ _ _ _ _ _ _ H)
    as (parser & rootNode & cfg & p' & _ & _ & _ & _ & Hf & _).
  by eapply finish_NoDup.
Qed.

Lemma next_matchings_have_distinct_keys_witness :
  let plus := mkMatching TString (VString "+") in
  let minus := mkMatching TString (VString "-") in
  let result :=
    mkResult false AstNull 13 []
      (Some (mkError [plus; minus] (Some (mkToken "&" 2 3)) wrong))
      [mkToken "a" 0 1; mkToken "&" 2 3; mkToken "b" 4 5] in
  NoDup (matchingKey <$> r_nextMatchings result) /\
  forall e, r_error result = Some e -> NoDup (matchingKey <$> e_suggestions e).
Proof.
  intros plus minus result.
  apply (next_matchings_have_distinct_keys Demo.arith "root" Demo.lexer ∅ "a & b" 5 100).
  vm_compute; reflexivity.
Defined.

(** ** Backtracking *)

(** X16.  A new version makes every node stale.  In a sound store no node
    carries a version above the parser's, and [tryChances] takes the next
    one: whether it finds a chance or not, the store's version afterwards is
    the parser's old version plus one, above the stamp of every node of the
    store it was called on.  So after a backtrack only the nodes it stamps
    itself (the chance's node and its ancestors) pass the version test of
    [resetHeadByVersion]; every other tree or chain node starts from head
    index 0 when it is visited again. *)
Theorem new_version_makes_every_node_stale {V : Type} (o : VisiterOption V)
    (node : NodeRef) (st : VisiterStore) (vars : V) :
  storeOk st ->
  let cfg' := tryChances o node st vars in
  s_version (store cfg') = (s_version st + 1)%N /\
  p_version (s_parser (store cfg')) = (s_version st + 1)%N /\
  forall q n v, getNode q (s_parser st) = Some n -> version n = Some v ->
    (v < s_version (store cfg'))%N /\
    exists n', resetHeadByVersion n (s_version (store cfg')) = n' /\
               headIndex n' = Some 0 /\ version n' = Some (s_version (store cfg')) /\
               (kindOf n = KChain -> astResults n' = []).
Proof.
  intros ((Hg & _) & _ & Hv & _) cfg'.
  assert (Hver : s_version (store cfg') = (s_version st + 1)%N /\
                 p_version (s_parser (store cfg')) = (s_version st + 1)%N).
  { unfold cfg', tryChances. rewrite Hv. simpl.
    destruct (pop (restChances st)) as [[ch rest]|]; simpl; [|done].
    unfold getNode. simpl.
    destruct (nodes (s_parser st) !! ch_node ch) eqn:Hn; simpl; [|done].
    unfold modifyNode, getNode. simpl. by rewrite Hn. }
  destruct Hver as [Hs Hp]. split; [done|]. split; [done|].
  intros q n v Hn Hvn. destruct (Hg q n Hn) as (_ & _ & [Hle _]).
  specialize (Hle v Hvn). rewrite Hs, Hv. split; [lia|].
  eexists. split; [reflexivity|]. unfold resetHeadByVersion.
  rewrite bool_decide_eq_true_2 by (rewrite Hvn; intros [= ->]; lia).
  by destruct n.
Qed.

Lemma new_version_makes_every_node_stale_witness :
  let cfg := Demo.traversal Demo.arith "a & b" 8 in
  let cfg' := tryChances (parseOption (Demo.lexer "a & b") 0) 8 (store cfg) (closure cfg) in
  s_version (store cfg') = (s_version (store cfg) + 1)%N /\
  p_version (s_parser (store cfg')) = (s_version (store cfg) + 1)%N /\
  forall q n v, getNode q (s_parser (store cfg)) = Some n -> version n = Some v ->
    (v < s_version (store cfg'))%N /\
    exists n', resetHeadByVersion n (s_version (store cfg')) = n' /\
               headIndex n' = Some 0 /\ version n' = Some (s_version (store cfg')) /\
               (kindOf n = KChain -> astResults n' = []).
Proof.
  intros cfg cfg'.
  destruct (buildParser_sound Demo.arith "root" (Demo.parserFor Demo.arith "root") eq_refl)
    as [Hwf Hroot].
  assert (Hex : is_Some (getNode 0 (Demo.parserFor Demo.arith "root")))
    by (vm_compute; eauto).
  destruct (traversal_configOk Demo.arith (Demo.lexer "a & b") 0 _ 0 8 Hwf Hroot Hex)
    as [Hst _].
  exact (new_version_makes_every_node_stale (parseOption (Demo.lexer "a & b") 0) 8
           (store cfg) (closure cfg) Hst).
Defined.

(** ** The probe *)

Lemma probe_step_tokens g (cfg : Config (list NodeRef)) :
  tokens (scanner (store (step g ProbeOption.option_ cfg))) = tokens (scanner (store cfg)).
Proof.
  destruct cfg as [ctl st found]. unfold step. simpl.
  destruct ctl as [node|node a|node|node v next| |msg]; simpl; try done.
  - unfold visiter. destruct (getNode node (s_parser st)) as [[m|f|t|c]|]; simpl; try done.
    + unfold ProbeOption.onMatchNode. by destruct (_ && _).
    + unfold visiterFunction. repeat case_match; done.
    + destruct (resetHeadByVersion _ _); try done. unfold visiterTree.
      repeat case_match; done.
    + destruct (resetHeadByVersion _ _); try done. unfold visiterChain. simpl.
      repeat case_match; done.
  - unfold visiterNextNode. simpl. repeat case_match; done.
  - unfold tryChances. simpl. repeat case_match; done.
  - unfold resetParentsHeadIndexAndVersion. repeat case_match; done.
Qed.

Lemma probe_steps_tokens g node parent p k :
  tokens (scanner (store (steps g ProbeOption.option_ k (probeConfig node parent p)))) = [].
Proof.
  assert (H : forall cfg, tokens (scanner (store cfg)) = [] ->
                tokens (scanner (store (steps g ProbeOption.option_ k cfg))) = []).
  { induction k as [|k IH]; intros cfg Hc; [done|]. simpl. apply IH.
    by rewrite probe_step_tokens. }
  by apply H.
Qed.

(** X17.  A probe ends when it ascends past the root.  The probe of
    [findNextMatchNodes] runs over a scanner without tokens, which is at its
    end throughout, and its option object has no [onSuccess]: so when
    [visiterNextNode] is reached on a node without parent, the probe returns
    at once.  The chances still pending are not tried, and the list of match
    nodes found is returned as it stands. *)
Theorem probe_ends_at_root (g : Grammar) (node : NodeRef) (parent : option NodeRef)
    (p : Parser) (k : nat) (r : NodeRef) (astValue : IAst) (n : Node) :
  let cfg := steps g ProbeOption.option_ k (probeConfig node parent p) in
  control cfg = VisiterNextNode r astValue ->
  getNode r (s_parser (store cfg)) = Some n -> parentNode n = None ->
  Scan.isEnd (scanner (store cfg)) = true /\
  step g ProbeOption.option_ cfg = mkConfig Returned (store cfg) (closure cfg) /\
  forall fuel, probe g (k + S fuel) node parent p
               = Some (Ok (closure cfg, s_parser (store cfg))).
Proof.
  intros cfg Hc Hn Hp.
  assert (Hend : Scan.isEnd (scanner (store cfg)) = true).
  { unfold Scan.isEnd, cfg. by rewrite probe_steps_tokens. }
  assert (Hstep : step g ProbeOption.option_ cfg
                  = mkConfig Returned (store cfg) (closure cfg)).
  { unfold step. rewrite Hc. unfold visiterNextNode. simpl. by rewrite Hn, Hp, Hend. }
  split; [done|]. split; [done|]. intros fuel. unfold probe.
  assert (Hrun : run g ProbeOption.option_ (k + S fuel) (probeConfig node parent p)
                 = Some (mkConfig Returned (store cfg) (closure cfg))).
  { assert (Hs : steps g ProbeOption.option_ (k + S fuel) (probeConfig node parent p)
                 = mkConfig Returned (store cfg) (closure cfg)).
    { rewrite <- Hstep. unfold cfg. rewrite <- steps_S.
      apply (halted_steps_mono g ProbeOption.option_ (S k) (k + S fuel)); [lia|].
      rewrite steps_S. fold cfg. by rewrite Hstep. }
    rewrite <- Hs. apply steps_run. by rewrite Hs. }
  by rewrite Hrun.
Qed.

Lemma probe_ends_at_root_witness :
  let g := Demo.rules [("root", [EArray [EBoolean true; EString "a"]])] in
  let p := Demo.parserFor g "root" in
  let cfg := steps g ProbeOption.option_ 7 (probeConfig 0 None p) in
  restChances (store cfg) = [mkChance 1 1 0] /\ closure cfg = [] /\
  Scan.isEnd (scanner (store cfg)) = true /\
  step g ProbeOption.option_ cfg = mkConfig Returned (store cfg) (closure cfg) /\
  forall fuel, probe g (7 + S fuel) 0 None p
               = Some (Ok (closure cfg, s_parser (store cfg))).
Proof.
  intros g p cfg.
  split; [vm_compute; reflexivity|]. split; [vm_compute; reflexivity|].
  apply (probe_ends_at_root g 0 None p 7 0 AstNull
           (NChain (mkChainNode None [Some 1] [] 1 None Demo.identity (Some 1%N) false 0 0))).
  - vm_compute; reflexivity.
  - vm_compute; reflexivity.
  - reflexivity.
Defined.

(** ** An array without elements *)

(** X18.  A tree node without children ends the traversal.  An empty array
    in a rule body gives a tree node with no child; when [visiter] reaches
    it, no chance is added (there is no other alternative), there is no next
    child to visit, and the tree branch has no [else]: the traversal returns
    at once, without [onSuccess], [onFail] or [tryChances], so the chances
    that are pending are not tried and the scanner stays where it is. *)
Theorem tree_without_children_ends_traversal {V : Type} (g : Grammar)
    (o : VisiterOption V) (node : NodeRef) (st : VisiterStore) (vars vars1 : V)
    (t : TreeNode) :
  getNode node (s_parser st) = Some (NTree t) -> tn_childs t = [] ->
  callIfPresent (onCallVisiter o) vars = Ok vars1 ->
  let cfg' := visiter g o node st vars in
  control cfg' = Returned /\ closure cfg' = vars1 /\
  restChances (store cfg') = restChances st /\ scanner (store cfg') = scanner st.
Proof.
  intros Hn Hc Hcb cfg'. unfold cfg', visiter. rewrite Hn, Hcb.
  assert (Hr : exists t', resetHeadByVersion (NTree t) (s_version st) = NTree t' /\
                          tn_childs t' = []).
  { unfold resetHeadByVersion. case_bool_decide; eexists; (split; [reflexivity|done]). }
  destruct Hr as (t' & -> & Hc'). unfold visiterTree. rewrite Hc'. simpl.
  replace (Z.of_nat (tn_headIndex t') <? 0 - 1)%Z with false
    by (symmetry; apply Z.ltb_ge; lia).
  by destruct (tn_headIndex t').
Qed.

Lemma tree_without_children_ends_traversal_witness :
  let g := Demo.rules [("root", [EString "a"; EArray []; EString "b"])] in
  let cfg := Demo.traversal g "a b" 4 in
  let cfg' := visiter g (parseOption (Demo.lexer "a b") 0) 2 (store cfg) (closure cfg) in
  control cfg' = Returned /\ closure cfg' = closure (Demo.traversal g "a b" 5) /\
  restChances (store cfg') = restChances (store cfg) /\
  scanner (store cfg') = scanner (store cfg).
Proof.
  intros g cfg cfg'.
  apply (tree_without_children_ends_traversal g (parseOption (Demo.lexer "a b") 0) 2
           (store cfg) (closure cfg) (closure (Demo.traversal g "a b" 5))
           (mkTreeNode (Some 0) [] 0 None 1)).
  - vm_compute; reflexivity.
  - reflexivity.
  - vm_compute; reflexivity.
Defined.

(** ** The result *)

Section ResultAst.

Variables (g : Grammar) (t : option IToken).

(** A step of the main traversal assigns [ast] only together with
    [success = true]. *)
Lemma step_ast (cfg : Config ParseVars) :
  ast (closure (step g (ParseOption.option_ t) cfg)) = ast (closure cfg) \/
  success (closure (step g (ParseOption.option_ t) cfg)) = true.
Proof.
  destruct cfg as [ctl st vars]. unfold step. simpl.
  destruct ctl as [node|node a|node|node v next| |msg]; simpl; auto.
  - unfold visiter. destruct (getNode node (s_parser st)) as [n|] eqn:Hn; simpl; [|auto].
    unfold callIfPresent. simpl.
    destruct (ParseOption.onCallVisiter vars) as [vars1|msg] eqn:Hc; simpl; [|auto].
    apply onCallVisiter_ok in Hc as [-> _].
    destruct n as [m|f|tr|c].
    + unfold ParseOption.onMatchNode. simpl.
      destruct (mn_matchFunction m (scanner st) true) as [res sc].
      destruct (matched res); simpl; auto.
    + rewrite closure_visiterFunction. auto.
    + case_match; simpl; auto. rewrite closure_visiterTree. auto.
    + case_match; simpl; auto. rewrite closure_visiterChain. auto.
  - unfold visiterNextNode, callIfPresent. simpl.
    destruct (ParseOption.onVisiterNextNode vars) as [vars1|msg] eqn:Hc; simpl; [|auto].
    apply onVisiterNextNode_ok in Hc as [-> _].
    destruct (getNode node (s_parser st)) as [n|] eqn:Hn; simpl; [|auto].
    destruct (parentNode n) as [parent|] eqn:Hp.
    + left. repeat case_match; reflexivity.
    + destruct (Scan.isEnd (scanner st)); simpl; [|auto].
      destruct (ParseOption.onSuccess _ _) eqn:Hs; simpl; [|auto].
      apply onSuccess_ok in Hs as (-> & _). auto.
  - left. unfold tryChances. simpl. repeat case_match; reflexivity.
  - rewrite closure_resetParents. auto.
Qed.

Lemma steps_ast k (cfg : Config ParseVars) :
  success (closure cfg) = false -> ast (closure cfg) = AstNull ->
  halted cfg = false ->
  success (closure (steps g (ParseOption.option_ t) k cfg)) = false ->
  ast (closure (steps g (ParseOption.option_ t) k cfg)) = AstNull.
Proof.
  intros Hs Ha Hh. induction k as [|k IH]; [done|]. rewrite steps_S. intros Hk.
  destruct (halted (steps g (ParseOption.option_ t) k cfg)) eqn:Hhk.
  { rewrite step_halted in Hk |- * by done. by apply IH. }
  pose proof (success_false_while_running g t cfg k Hs Hhk) as Hsk.
  destruct (step_ast (steps g (ParseOption.option_ t) k cfg)) as [Heq|Htrue].
  - rewrite Heq. by apply IH.
  - congruence.
Qed.

End ResultAst.

(** X19.  The result object.  In every result a parse returns, [error] is
    [null] exactly when [success] is true; a result without success has
    [ast = null] (the reducer of the root runs only in [onSuccess]); and
    [tokens] is what the lexer made of the text. *)
Theorem result_error_iff_failure (g : Grammar) (root : string)
    (lexer : string -> list IToken) (parserMap : gmap string Parser)
    (text : string) (cursorIndex fuel : nat) (result : ParseResult) :
  resultOf (createParser g root lexer parserMap text cursorIndex fuel) = Some result ->
  (r_error result = None <-> r_success result = true) /\
  (r_success result = false -> r_ast result = AstNull) /\
  r_tokens result = lexer text.
Proof.
  intros H. apply resultOf_returns in H as [parserMap' H].
  destruct (createParser_returns _ _ _ _ _ _ _ _ _ H)
    as (parser & rootNode & cfg & p' & _ & _ & Hm & _ & Hf & _).
  destruct (finish_result _ _ _ _ _ _ _ _ _ Hf)
    as (Hs & Ha & _ & Ht & Hnone & Hsome & _).
  split; [|split; [|done]].
  - rewrite Hs. destruct (success (closure cfg)) eqn:E.
    + split; [done|]. intros _. by apply Hnone.
    + destruct Hsome as [s Hes]; [done|]. rewrite Hes. by split.
  - rewrite Hs, Ha. intros Hfalse. unfold mainVisit in Hm.
    destruct (run_steps _ _ _ _ _ Hm) as (k & <- & _ & _).
    unfold parseOption in *. by apply steps_ast.
Qed.

Lemma result_error_iff_failure_witness :
  let result :=
    mkResult false AstNull 13 []
      (Some (mkError [mkMatching TString (VString "+"); mkMatching TString (VString "-")]
               (Some (mkToken "&" 2 3)) wrong))
      [mkToken "a" 0 1; mkToken "&" 2 3; mkToken "b" 4 5] in
  (r_error result = None <-> r_success result = true) /\
  (r_success result = false -> r_ast result = AstNull) /\
  r_tokens result = Demo.lexer "a & b".
Proof.
  intros result.
  apply (result_error_iff_failure Demo.arith "root" Demo.lexer ∅ "a & b" 5 100).
  vm_compute; reflexivity.
Defined.
